(** * The type-information cache of the rlp package

    A shallow embedding of [rlp/typecache.go]: the struct-tag parser
    [parseStructTag], the field enumerator [structFields], the generator
    [genTypeInfo], the cache protocol [cachedTypeInfo] /
    [cachedTypeInfo1] and [isUint], followed by the properties proved
    about them. *)

From Stdlib Require Import ZArith Ascii String.
From stdpp Require Import gmap strings list sorting.

Local Open Scope string_scope.
Local Open Scope list_scope.
Local Open Scope nat_scope.

(** ** Go strings

    A Go string is a sequence of bytes; it is modelled as a Rocq [string].
    The two functions of package [strings] that the parser calls are written
    out on bytes. *)

(** [strings.Split(s, sep)] for a one-byte separator: the pieces of [s]
    between the separators, in order; a string without separator is its own
    single piece (so the empty string gives one empty piece). *)
Fixpoint Split (s : string) (sep : ascii) : list string :=
  match s with
  | EmptyString => [EmptyString]
  | String c r =>
      if decide (c = sep) then EmptyString :: Split r sep
      else match Split r sep with
           | h :: t => String c h :: t
           | [] => [String c EmptyString]
           end
  end.

(** The UTF-8 encodings of the code points for which [unicode.IsSpace]
    holds: tab, line feed, vertical tab, form feed, carriage return, space,
    U+0085, U+00A0, U+1680, U+2000..U+200A, U+2028, U+2029, U+202F, U+205F
    and U+3000. *)
Definition whiteSpace : list (list ascii) :=
  map (map ascii_of_N)
  [ [0x09]; [0x0A]; [0x0B]; [0x0C]; [0x0D]; [0x20];
    [0xC2; 0x85]; [0xC2; 0xA0];
    [0xE1; 0x9A; 0x80];
    [0xE2; 0x80; 0x80]; [0xE2; 0x80; 0x81]; [0xE2; 0x80; 0x82];
    [0xE2; 0x80; 0x83]; [0xE2; 0x80; 0x84]; [0xE2; 0x80; 0x85];
    [0xE2; 0x80; 0x86]; [0xE2; 0x80; 0x87]; [0xE2; 0x80; 0x88];
    [0xE2; 0x80; 0x89]; [0xE2; 0x80; 0x8A];
    [0xE2; 0x80; 0xA8]; [0xE2; 0x80; 0xA9]; [0xE2; 0x80; 0xAF];
    [0xE2; 0x81; 0x9F];
    [0xE3; 0x80; 0x80] ]%N.

Fixpoint dropPrefix (p l : list ascii) : option (list ascii) :=
  match p, l with
  | [], _ => Some l
  | a :: p', b :: l' => if decide (a = b) then dropPrefix p' l' else None
  | _ :: _, [] => None
  end.

(** One white-space rune taken off the front of [l], if [l] starts with
    one of the encodings [enc]. *)
Definition dropSpace (enc : list (list ascii)) (l : list ascii)
  : option (list ascii) :=
  foldr (λ p acc, match dropPrefix p l with Some r => Some r | None => acc end)
        None enc.

Fixpoint trimLeft (enc : list (list ascii)) (n : nat) (l : list ascii)
  : list ascii :=
  match n with
  | O => l
  | S n' => match dropSpace enc l with
            | Some r => trimLeft enc n' r
            | None => l
            end
  end.

(** [strings.TrimSpace(s)]: all leading, then all trailing white space
    removed. The trailing runes are found on the reversed bytes. *)
Definition TrimSpace (s : string) : string :=
  let l := list_ascii_of_string s in
  let l1 := trimLeft whiteSpace (length l) l in
  let l2 := trimLeft (map reverse whiteSpace) (length l1) (reverse l1) in
  string_of_list_ascii (reverse l2).

(** ** Package reflect

    The part of [reflect.Type] that the cache inspects. A type is known by
    its identity; what reflection tells about it is an interface. *)

Inductive Kind : Set :=
  | Invalid | Bool | Int | Int8 | Int16 | Int32 | Int64
  | Uint | Uint8 | Uint16 | Uint32 | Uint64 | Uintptr
  | Float32 | Float64 | Complex64 | Complex128
  | Array | Chan | Func | Interface | Map | Ptr | Slice
  | String_ | Struct | UnsafePointer.

Global Instance Kind_eq_dec : EqDecision Kind.
Proof. solve_decision. Defined.

(** A [reflect.Kind] is an unsigned integer; the kinds are the constants
    0, 1, 2, ... in the order of their declaration, [Invalid] first. *)
Definition kindNumber (k : Kind) : N :=
  match k with
  | Invalid => 0 | Bool => 1 | Int => 2 | Int8 => 3 | Int16 => 4
  | Int32 => 5 | Int64 => 6 | Uint => 7 | Uint8 => 8 | Uint16 => 9
  | Uint32 => 10 | Uint64 => 11 | Uintptr => 12 | Float32 => 13
  | Float64 => 14 | Complex64 => 15 | Complex128 => 16 | Array => 17
  | Chan => 18 | Func => 19 | Interface => 20 | Map => 21 | Ptr => 22
  | Slice => 23 | String_ => 24 | Struct => 25 | UnsafePointer => 26
  end%N.

(** [isUint]: [k >= reflect.Uint && k <= reflect.Uintptr]. *)
Definition isUint (k : Kind) : bool :=
  (kindNumber Uint <=? kindNumber k)%N
  && (kindNumber k <=? kindNumber Uintptr)%N.

(** [reflect.StructTag] in its conventional form, a sequence of
    key:"value" pairs; [Get] returns the value of the first pair with the
    key, and the empty string when there is none. *)
Definition StructTag : Type := list (string * string).

Fixpoint Get (tag : StructTag) (key : string) : string :=
  match tag with
  | [] => ""
  | (k, v) :: rest => if decide (k = key) then v else Get rest key
  end.

(** [reflect.StructField]: [PkgPath] is empty exactly for exported
    fields. *)
Record StructField (T : Type) : Type := mkStructField {
  Name : string;
  PkgPath : string;
  Type_ : T;
  Tag : StructTag
}.
Global Arguments mkStructField {T}.
Global Arguments Name {T}.
Global Arguments PkgPath {T}.
Global Arguments Type_ {T}.
Global Arguments Tag {T}.

(** The interface [reflect.Type], for a type of type identities [T]. *)
Class ReflectType (T : Type) `{Countable T} : Type := {
  kindOf : T → Kind;
  fieldsOf : T → list (StructField T)
}.

Section reflect.
Context {T : Type} `{ReflectType T}.

(** [typ.NumField()] and [typ.Field(i)]; [None] stands for the run-time
    panic of reflect on a type that is not a struct, or on an index out
    of range. *)
Definition NumField (typ : T) : option nat :=
  if decide (kindOf typ = Struct) then Some (length (fieldsOf typ)) else None.

Definition Field (typ : T) (i : nat) : option (StructField T) :=
  if decide (kindOf typ = Struct) then fieldsOf typ !! i else None.
End reflect.

(** ** Struct tags *)

Record tags : Set := mkTags {
  nilOK : bool;
  tail : bool;
  ignored : bool
}.

Global Instance tags_eq_dec : EqDecision tags.
Proof. solve_decision. Defined.

Global Instance tags_countable : Countable tags.
Proof.
  refine (inj_countable' (λ ts, (nilOK ts, tail ts, ignored ts))
                         (λ '(a, b, c), mkTags a b c) _).
  by intros [].
Defined.

Definition noTags : tags := mkTags false false false.

(** The errors of the package that this file can return. The three
    [fmt.Errorf] of [parseStructTag] keep their arguments: the message of
    [ErrUnknownTag t typ name] is
    [rlp: unknown struct tag %q on %v.%s] with t, typ and name;
    [ErrTailNotLast typ name] and [ErrTailNotSlice typ name] are
    [rlp: invalid struct tag "tail" for %v.%s] followed by
    [(must be on last field)] and [(field type is not slice)].
    [ErrGen e] is an error made by [makeDecoder] or [makeWriter]. *)
Inductive error (T E : Type) : Type :=
  | ErrTailNotLast (typ : T) (name : string)
  | ErrTailNotSlice (typ : T) (name : string)
  | ErrUnknownTag (t : string) (typ : T) (name : string)
  | ErrGen (e : E).
Global Arguments ErrTailNotLast {T E}.
Global Arguments ErrTailNotSlice {T E}.
Global Arguments ErrUnknownTag {T E}.
Global Arguments ErrGen {T E}.

Section parse.
Context {T : Type} `{ReflectType T} {E : Type}.

(** The loop of [parseStructTag] over the pieces of the tag. The result
    is the pair the Go function returns: the tags as set so far and the
    error, if any. [None] is a panic of reflect. *)
Fixpoint tagLoop (typ : T) (fi : nat) (f : StructField T)
         (pieces : list string) (ts : tags)
  : option (tags * option (error T E)) :=
  match pieces with
  | [] => Some (ts, None)
  | t :: rest =>
      let t := TrimSpace t in
      if decide (t = "") then tagLoop typ fi f rest ts
      else if decide (t = "-") then
        tagLoop typ fi f rest (mkTags (nilOK ts) (tail ts) true)
      else if decide (t = "nil") then
        tagLoop typ fi f rest (mkTags true (tail ts) (ignored ts))
      else if decide (t = "tail") then
        let ts := mkTags (nilOK ts) true (ignored ts) in
        n ← NumField typ;
        if decide (Z.of_nat fi ≠ (Z.of_nat n - 1)%Z) then
          Some (ts, Some (ErrTailNotLast typ (Name f)))
        else if decide (kindOf (Type_ f) ≠ Slice) then
          Some (ts, Some (ErrTailNotSlice typ (Name f)))
        else tagLoop typ fi f rest ts
      else Some (ts, Some (ErrUnknownTag t typ (Name f)))
  end.

Definition parseStructTag (typ : T) (fi : nat)
  : option (tags * option (error T E)) :=
  f ← Field typ fi;
  tagLoop typ fi f (Split (Get (Tag f) "rlp") ",") noTags.
End parse.

(** ** The cache

    A [*typeinfo] is the address of a [typeinfo] record in the heap; the
    zero record [new(typeinfo)] holds two nil function values. *)

Abbreviation loc := nat (only parsing).

Record typeinfo (D W : Type) : Type := mkTypeinfo {
  decoder : option D;
  writer : option W
}.
Global Arguments mkTypeinfo {D W}.
Global Arguments decoder {D W}.
Global Arguments writer {D W}.

Record field : Set := mkField {
  index : nat;
  info : loc
}.

(** What a Go function with results [(v, err)] returns. *)
Inductive result (T E A : Type) : Type :=
  | Ok (a : A)
  | Err (e : error T E).
Global Arguments Ok {T E A}.
Global Arguments Err {T E A}.

(** Modelled from the spec: [makeDecoder] and [makeWriter], which
    [genTypeInfo] calls, are defined in files of the package that are not
    part of these sources. The spec describes them as a collaborator that
    builds a strategy for a type and its tags or fails, and that resolves
    nested types by calling back into this file. Such a function is a
    finite tree: it returns, or it calls [cachedTypeInfo1] or
    [structFields] and goes on with what the call returned. *)
Inductive prog (T E A : Type) : Type :=
  | Ret (r : result T E A)
  | CallCachedTypeInfo1 (typ : T) (ts : tags)
                        (k : result T E loc → prog T E A)
  | CallStructFields (typ : T)
                     (k : result T E (list field) → prog T E A).
Global Arguments Ret {T E A}.
Global Arguments CallCachedTypeInfo1 {T E A}.
Global Arguments CallStructFields {T E A}.

(** History kept beside the program state, for the statements only: which
    calls were made, in order. *)
Inductive event (T : Type) : Type :=
  | GenTypeInfo (key : T * tags)          (* genTypeInfo entered, line 83 *)
  | Filled (key : T * tags) (p : loc)     (* lines 89-90 done *)
  | ParseStructTag (typ : T) (fi : nat).  (* parseStructTag called, line 101 *)
Global Arguments GenTypeInfo {T}.
Global Arguments Filled {T}.
Global Arguments ParseStructTag {T}.

(** How a call ends, for a program state of type [S]: it returns, it
    panics, it waits for a lock for ever, or the model ran out of fuel. *)
Inductive outcome (S A : Type) : Type :=
  | Returned (a : A) (s : S)
  | Panicked
  | Blocked
  | OutOfFuel.
Global Arguments Returned {S A}.
Global Arguments Panicked {S A}.
Global Arguments Blocked {S A}.
Global Arguments OutOfFuel {S A}.

Definition bind {S A B} (m : outcome S A) (k : A → S → outcome S B)
  : outcome S B :=
  match m with
  | Returned a s => k a s
  | Panicked => Panicked
  | Blocked => Blocked
  | OutOfFuel => OutOfFuel
  end.

(** [sync.RWMutex] as the calls of one goroutine find it: how many read
    locks are held, and whether the write lock is. *)
Record RWMutex : Set := mkRWMutex {
  readerCount : nat;
  locked : bool
}.

(** No lock is held. *)
Definition free : RWMutex := mkRWMutex 0 false.

(** [RLock] waits while the write lock is held. *)
Definition RLock (m : RWMutex) : outcome RWMutex unit :=
  if locked m then Blocked
  else Returned tt (mkRWMutex (S (readerCount m)) (locked m)).

(** [RUnlock] of a mutex that is not read-locked is a fatal error. *)
Definition RUnlock (m : RWMutex) : outcome RWMutex unit :=
  match readerCount m with
  | O => Panicked
  | S n => Returned tt (mkRWMutex n (locked m))
  end.

(** [Lock] waits while any lock is held. *)
Definition Lock (m : RWMutex) : outcome RWMutex unit :=
  if locked m then Blocked
  else match readerCount m with
       | O => Returned tt (mkRWMutex 0 true)
       | S _ => Blocked
       end.

(** [Unlock] of a mutex that is not write-locked is a fatal error. *)
Definition Unlock (m : RWMutex) : outcome RWMutex unit :=
  if locked m then Returned tt (mkRWMutex (readerCount m) false)
  else Panicked.

Section cache.
Context {T : Type} `{ReflectType T} {E D W : Type}.

Local Abbreviation typekey := (T * tags)%type.
Local Abbreviation error := (error T E).
Local Abbreviation result := (result T E).
Local Abbreviation prog := (prog T E).
Local Abbreviation typeinfo := (typeinfo D W).

Variable makeDecoder : T → tags → prog D.
Variable makeWriter : T → tags → prog W.

(** The package variable [typeCache], the records its pointers refer to,
    and the history. *)
Record state : Type := mkState {
  typeCache : gmap typekey loc;
  heap : list typeinfo;
  history : list (event T)
}.

(** The two package variables. *)
Record vars : Type := mkVars {
  typeCacheMutex : RWMutex;
  cache : state
}.

Definition record (ev : event T) (s : state) : state :=
  mkState (typeCache s) (heap s) (history s ++ [ev]).

Definition resolver : Type := T → tags → state → outcome state (result loc).

Section with_resolver.
(** [cachedTypeInfo1], as far as the fuel reaches. *)
Variable rec : resolver.

(** The loop of [structFields]: [todo] iterations are left, the next
    index is [i]. *)
Fixpoint structFieldsLoop (typ : T) (todo i : nat) (fields : list field)
         (s : state) : outcome state (result (list field)) :=
  match todo with
  | O => Returned (Ok fields) s
  | S todo' =>
      match Field typ i with
      | None => Panicked
      | Some f =>
          if decide (PkgPath f = "") then
            let s := record (ParseStructTag typ i) s in
            match parseStructTag typ i with
            | None => Panicked
            | Some (_, Some err) => Returned (Err err) s
            | Some (ts, None) =>
                if ignored ts then
                  structFieldsLoop typ todo' (S i) fields s
                else
                  bind (rec (Type_ f) ts s) (λ r s,
                    match r with
                    | Err err => Returned (Err err) s
                    | Ok info =>
                        structFieldsLoop typ todo' (S i)
                                         (fields ++ [mkField i info]) s
                    end)
            end
          else structFieldsLoop typ todo' (S i) fields s
      end
  end.

Definition structFields (typ : T) (s : state)
  : outcome state (result (list field)) :=
  match NumField typ with
  | None => Panicked
  | Some n => structFieldsLoop typ n 0 [] s
  end.

(** A call of [makeDecoder] or [makeWriter]. *)
Fixpoint run {A} (p : prog A) (s : state) : outcome state (result A) :=
  match p with
  | Ret r => Returned r s
  | CallCachedTypeInfo1 typ ts k =>
      bind (rec typ ts s) (λ r s, run (k r) s)
  | CallStructFields typ k =>
      bind (structFields typ s) (λ r s, run (k r) s)
  end.

(** The record [genTypeInfo] allocates is local to it and reaches its
    caller only through the copy on line 89, so it is returned by
    value. *)
Definition genTypeInfo (typ : T) (ts : tags) (s : state)
  : outcome state (result typeinfo) :=
  bind (run (makeDecoder typ ts) s) (λ r s,
    match r with
    | Err err => Returned (Err err) s
    | Ok dec =>
        bind (run (makeWriter typ ts) s) (λ r s,
          match r with
          | Err err => Returned (Err err) s
          | Ok wr => Returned (Ok (mkTypeinfo (Some dec) (Some wr))) s
          end)
    end).
End with_resolver.

(** Line 82: [typeCache[key] = new(typeinfo)]. *)
Definition putDummy (key : typekey) (s : state) : state :=
  mkState (<[key := length (heap s)]> (typeCache s))
          (heap s ++ [mkTypeinfo None None])
          (history s).

(** Lines 84-90, after the generator returned. Both reads of
    [typeCache[key]] on lines 89 and 90 see the same map; a missing entry
    would be a nil pointer dereference on line 89. *)
Definition finish (key : typekey) (r : result typeinfo) (s : state)
  : outcome state (result loc) :=
  match r with
  | Err err =>
      Returned (Err err)
               (mkState (delete key (typeCache s)) (heap s) (history s))
  | Ok info =>
      match typeCache s !! key with
      | None => Panicked
      | Some p =>
          Returned (Ok p)
                   (record (Filled key p)
                      (mkState (typeCache s) (<[p := info]> (heap s))
                               (history s)))
      end
  end.

Fixpoint cachedTypeInfo1 (fuel : nat) (typ : T) (ts : tags) (s : state)
  : outcome state (result loc) :=
  let key := (typ, ts) in
  match typeCache s !! key with
  | Some info => Returned (Ok info) s
  | None =>
      match fuel with
      | O => OutOfFuel
      | S fuel' =>
          let s := record (GenTypeInfo key) (putDummy key s) in
          bind (genTypeInfo (cachedTypeInfo1 fuel') typ ts s) (finish key)
      end
  end.

(** A call on [typeCacheMutex], and a call that holds the write lock and
    does not touch the mutex. *)
Definition onMutex {A} (op : RWMutex → outcome RWMutex A) (v : vars)
  : outcome vars A :=
  match op (typeCacheMutex v) with
  | Returned a m => Returned a (mkVars m (cache v))
  | Panicked => Panicked
  | Blocked => Blocked
  | OutOfFuel => OutOfFuel
  end.

Definition onCache {A} (op : state → outcome state A) (v : vars)
  : outcome vars A :=
  match op (cache v) with
  | Returned a s => Returned a (mkVars (typeCacheMutex v) s)
  | Panicked => Panicked
  | Blocked => Blocked
  | OutOfFuel => OutOfFuel
  end.

(** The deferred [Unlock] runs when [cachedTypeInfo1] has returned; a
    panic of [cachedTypeInfo1] ends the call. *)
Definition cachedTypeInfo (fuel : nat) (typ : T) (ts : tags) (v : vars)
  : outcome vars (result loc) :=
  bind (onMutex RLock v) (λ _ v,
    let info := typeCache (cache v) !! (typ, ts) in
    bind (onMutex RUnlock v) (λ _ v,
      match info with
      | Some info => Returned (Ok info) v
      | None =>
          bind (onMutex Lock v) (λ _ v,
            bind (onCache (cachedTypeInfo1 fuel typ ts) v) (λ r v,
              bind (onMutex Unlock v) (λ _ v, Returned r v)))
      end)).
End cache.

(** * The vocabulary of the statements *)

(** ** Go strings *)

(** A sequence of white-space characters, in the encodings [enc]. *)
Inductive blankOf (enc : list (list ascii)) : list ascii → Prop :=
  | blank_nil : blankOf enc []
  | blank_cons w l : w ∈ enc → blankOf enc l → blankOf enc (w ++ l).

Definition blank : list ascii → Prop := blankOf whiteSpace.

(** No white-space character stands at the beginning or at the end. *)
Definition tight (l : list ascii) : Prop :=
  ∀ w, w ∈ whiteSpace → ¬ w `prefix_of` l ∧ ¬ w `suffix_of` l.

(** [tok] is [piece] without the white space at its two ends. *)
Definition trims (piece tok : string) : Prop :=
  ∃ a b,
    list_ascii_of_string piece = a ++ list_ascii_of_string tok ++ b ∧
    blank a ∧ blank b ∧ tight (list_ascii_of_string tok).

(** ** The struct-tag parser *)

Section parse_vocabulary.
Context {T : Type} `{ReflectType T} {E : Type}.

(** The pieces of the tag as the loop sees them. *)
Definition tokens (f : StructField T) : list string :=
  TrimSpace <$> Split (Get (Tag f) "rlp") ",".

(** The tag of [f] cut at its commas and trimmed, said without [Split]
    and [TrimSpace]: [pieces] are strings without comma that give the
    value of the rlp tag when joined with commas, and [toks] are the
    pieces without the white space at their ends. *)
Definition tokenized (f : StructField T) (pieces toks : list string)
  : Prop :=
  pieces ≠ [] ∧
  String.concat "," pieces = Get (Tag f) "rlp" ∧
  Forall (λ p, ","%char ∉ list_ascii_of_string p) pieces ∧
  Forall2 trims pieces toks.

(** The four forms the loop recognises. *)
Definition known (t : string) : Prop :=
  t = "" ∨ t = "-" ∨ t = "nil" ∨ t = "tail".

Global Instance known_dec t : Decision (known t).
Proof. unfold known. apply _. Defined.

(** The test the loop makes on a "tail": the field is the last one
    declared and its type is a slice. *)
Definition tailAllowed (typ : T) (fi : nat) (f : StructField T) : Prop :=
  NumField typ = Some (S fi) ∧ kindOf (Type_ f) = Slice.

(** No exported field is declared after field [fi]. *)
Definition lastVisible (typ : T) (fi : nat) : Prop :=
  ∀ j g, fi < j → Field typ j = Some g → PkgPath g ≠ "".

Definition placementError (typ : T) (fi : nat) (f : StructField T)
  : error T E :=
  if decide (NumField typ = Some (S fi)) then ErrTailNotSlice typ (Name f)
  else ErrTailNotLast typ (Name f).

Definition isPlacementError (e : error T E) : Prop :=
  match e with
  | ErrTailNotLast _ _ | ErrTailNotSlice _ _ => True
  | _ => False
  end.

Definition isSyntaxError (e : error T E) : Prop :=
  match e with
  | ErrUnknownTag _ _ _ => True
  | _ => False
  end.

End parse_vocabulary.

(** ** The cache *)

Section cache_vocabulary.
Context {T : Type} `{ReflectType T} {E D W : Type}.

Local Abbreviation typekey := (T * tags)%type.
Local Abbreviation result := (result T E).
Local Abbreviation prog := (prog T E).
Local Abbreviation typeinfo := (typeinfo D W).
Local Abbreviation state := (state (T:=T) (D:=D) (W:=W)).
Local Abbreviation vars := (vars (T:=T) (D:=D) (W:=W)).
Local Abbreviation resolver := (resolver (T:=T) (E:=E) (D:=D) (W:=W)).
Local Abbreviation parseStructTag := (parseStructTag (T:=T) (E:=E)).

Variable makeDecoder : T → tags → prog D.
Variable makeWriter : T → tags → prog W.

Local Abbreviation cachedTypeInfo := (cachedTypeInfo makeDecoder makeWriter).

(** The record at [p] holds both strategies. *)
Definition filled (h : list typeinfo) (p : loc) : Prop :=
  ∃ d w, h !! p = Some (mkTypeinfo (Some d) (Some w)).

Definition exported (typ : T) (i : nat) : Prop :=
  ∃ f, Field typ i = Some f ∧ PkgPath f = "".

(** What an event recorded between [s] and [s'] tells: a generator runs
    only for a key that [s] does not have; a record that was filled
    belongs to such a key, was allocated after [s], and is still bound
    and filled in [s']; tags are parsed for exported fields only. *)
Definition event_ok (s s' : state) (ev : event T) : Prop :=
  match ev with
  | GenTypeInfo k => typeCache s !! k = None
  | Filled k p =>
      typeCache s !! k = None ∧ length (heap s) ≤ p ∧
      typeCache s' !! k = Some p ∧ filled (heap s') p
  | ParseStructTag typ i => exported typ i
  end.

(** [s'] comes after [s]: every entry of [s] is still bound to the same
    record, every record of [s] is unchanged, and the history grew by
    events that are [event_ok]. *)
Record extends (s s' : state) : Prop := mkExtends {
  ext_cache : typeCache s ⊆ typeCache s';
  ext_heap : heap s `prefix_of` heap s';
  ext_history :
    ∃ l, history s' = history s ++ l ∧ Forall (event_ok s s') l
}.

(** A resolver is sound when each call that returns leaves a later
    state, and a pointer it returns is the one its key is bound to. *)
Definition sound (rec : resolver) : Prop :=
  ∀ typ ts s r s',
    rec typ ts s = Returned r s' →
    extends s s' ∧ ∀ p, r = Ok p → typeCache s' !! (typ, ts) = Some p.

(** The state in which the generator starts: line 82 done, line 83
    entered. *)
Definition begin (key : typekey) (s : state) : state :=
  record (GenTypeInfo key) (putDummy key s).

(** The state [finish] leaves when the generator returned [info]. *)
Definition fill (key : typekey) (p : loc) (info : typeinfo) (s : state)
  : state :=
  record (Filled key p)
         (mkState (typeCache s) (<[p := info]> (heap s)) (history s)).

(** The state [finish] leaves when the generator failed. *)
Definition rollback (key : typekey) (s : state) : state :=
  mkState (delete key (typeCache s)) (heap s) (history s).

(** One call of [cachedTypeInfo] that returns. *)
Definition call (v v' : vars) : Prop :=
  ∃ fuel typ ts r, cachedTypeInfo fuel typ ts v = Returned r v'.

(** [v'] is reached from [v] by calls of [cachedTypeInfo]. *)
Definition later : vars → vars → Prop := rtc call.

(** Field [i] of [typ] is exported, its tag parses, and the tag does not
    ignore it. *)
Definition enumerated (typ : T) (i : nat) : bool :=
  match Field typ i with
  | Some f =>
      bool_decide (PkgPath f = "") &&
      match parseStructTag typ i with
      | Some (ts, None) => negb (ignored ts)
      | _ => false
      end
  | None => false
  end.

(** The descriptor [fd] is the one of an enumerated field of [typ], and
    its record is the one the key of the field is bound to in [s]. *)
Definition describes (typ : T) (s : state) (fd : field) : Prop :=
  ∃ f ts,
    Field typ (index fd) = Some f ∧ PkgPath f = "" ∧
    parseStructTag typ (index fd) = Some (ts, None) ∧
    ignored ts = false ∧
    typeCache s !! (Type_ f, ts) = Some (info fd).

(** With [ok] set, results are required to be successes. *)
Definition allowed (ok : bool) {A} (r : result A) : Prop :=
  if ok then ∃ a, r = Ok a else True.

(** *** The keys of a program

    The types of a program are finitely many. [U] is a set of keys that
    holds every key the generators and the field enumerator ask for. *)
Section universe.
Variable U : gset typekey.

(** [typ] is a struct whose enumerated fields have their keys in [U];
    with [ok] set, the tags of its exported fields parse without
    error. *)
Definition fieldsIn (ok : bool) (typ : T) : Prop :=
  kindOf typ = Struct ∧
  ∀ i f ts e,
    Field typ i = Some f → PkgPath f = "" →
    parseStructTag typ i = Some (ts, e) →
    (ok = true → e = None) ∧
    (e = None → ignored ts = false → (Type_ f, ts) ∈ U).

(** The calls of a generator stay within [U]; with [ok] set, it
    succeeds whenever its calls succeed. *)
Inductive progIn (ok : bool) {A : Type} : prog A → Prop :=
  | progIn_Ret r : allowed ok r → progIn ok (Ret r)
  | progIn_Cached typ ts k :
      (typ, ts) ∈ U →
      (∀ r, allowed ok r → progIn ok (k r)) →
      progIn ok (CallCachedTypeInfo1 typ ts k)
  | progIn_Fields typ k :
      fieldsIn ok typ →
      (∀ r, allowed ok r → progIn ok (k r)) →
      progIn ok (CallStructFields typ k).

Definition closed (ok : bool) : Prop :=
  ∀ typ ts, (typ, ts) ∈ U →
    progIn ok (makeDecoder typ ts) ∧ progIn ok (makeWriter typ ts).

(** The keys of [U] not in the cache: a bound on the depth of nested
    generator calls. *)
Definition missing (s : state) : nat := size (U ∖ dom (typeCache s)).

Definition total (ok : bool) (rec : resolver) (m : nat) : Prop :=
  ∀ typ ts s, (typ, ts) ∈ U → missing s ≤ m →
    ∃ r s', rec typ ts s = Returned r s' ∧ allowed ok r.

End universe.
End cache_vocabulary.

(** ** Shapes of the cache *)

Section cache_shapes.
Context {T : Type} `{ReflectType T} {D W : Type}.

Local Abbreviation state := (state (T:=T) (D:=D) (W:=W)).

(** Every pointer of the map refers to a record of the heap, and no two
    keys are bound to the same record. *)
Definition wellFormed (s : state) : Prop :=
  (∀ k p, typeCache s !! k = Some p → p < length (heap s)) ∧
  (∀ k1 k2 p,
     typeCache s !! k1 = Some p → typeCache s !! k2 = Some p → k1 = k2).

(** Every entry of the map refers to a record that holds both
    strategies: no entry is a dummy. *)
Definition complete (s : state) : Prop :=
  ∀ k p, typeCache s !! k = Some p → filled (heap s) p.

(** The entries of [s'] that [s] does not have refer to records that
    hold both strategies. *)
Definition newEntriesFilled (s s' : state) : Prop :=
  ∀ k p, typeCache s' !! k = Some p →
         typeCache s !! k = Some p ∨ filled (heap s') p.

(** No key is bound to the record at [q]. *)
Definition unbound (q : loc) (s : state) : Prop :=
  ∀ k, typeCache s !! k ≠ Some q.

(** A key whose record was filled is bound to this record, and the
    generator was not entered for it afterwards. *)
Definition builtOnce (s : state) : Prop :=
  ∀ l1 l2 k p,
    history s = l1 ++ Filled k p :: l2 →
    typeCache s !! k = Some p ∧ GenTypeInfo k ∉ l2.

End cache_shapes.

(** ** Calls for a key that is being derived *)

Section cache_reentry.
Context {T : Type} `{ReflectType T} {E D W : Type}.

(** The resolver that answers the key [key] with the pointer [p] at
    once, and the other keys as [rec] does. *)
Definition shortCircuit (key : T * tags) (p : loc)
           (rec : resolver (T:=T) (E:=E) (D:=D) (W:=W))
  : resolver (T:=T) (E:=E) (D:=D) (W:=W) :=
  λ typ ts s,
    if decide ((typ, ts) = key) then Returned (Ok p) s else rec typ ts s.

End cache_reentry.

Module Program.

Inductive ty : Set :=
  | tUint | tNode | tPtrNode | tUints | tChan | tBad | tMis | tMis2 | tHid.

Global Instance ty_eq_dec : EqDecision ty.
Proof. solve_decision. Defined.

Definition ty_to_nat (t : ty) : nat :=
  match t with
  | tUint => 0 | tNode => 1 | tPtrNode => 2 | tUints => 3
  | tChan => 4 | tBad => 5 | tMis => 6 | tMis2 => 7 | tHid => 8
  end.

Definition ty_of_nat (n : nat) : ty :=
  match n with
  | 0 => tUint | 1 => tNode | 2 => tPtrNode | 3 => tUints
  | 4 => tChan | 5 => tBad | 6 => tMis | 7 => tMis2 | _ => tHid
  end.

Global Instance ty_countable : Countable ty.
Proof. refine (inj_countable' ty_to_nat ty_of_nat _). by intros []. Defined.

Definition fld (name : string) (pkg : string) (t : ty) (tag : StructTag)
  : StructField ty :=
  mkStructField name pkg t tag.

Global Instance ty_reflect : ReflectType ty := {|
  kindOf t :=
    match t with
    | tUint => Uint | tPtrNode => Ptr | tUints => Slice | tChan => Chan
    | tNode | tBad | tMis | tMis2 | tHid => Struct
    end;
  fieldsOf t :=
    match t with
    | tNode => [ fld "Val" "" tUint [];
                 fld "Next" "" tPtrNode [("rlp", "nil")];
                 fld "hidden" "main" tChan [("rlp", "bogus")];
                 fld "Skip" "" tChan [("rlp", "-")];
                 fld "Rest" "" tUints [("rlp", " tail ")] ]
    | tBad => [ fld "A" "" tUint []; fld "C" "" tChan [] ]
    | tMis => [ fld "A" "" tUints [("rlp", "tail")]; fld "B" "" tUint [] ]
    | tMis2 => [ fld "A" "" tUints [("rlp", "bogus,tail")];
                 fld "B" "" tUint [] ]
    | tHid => [ fld "A" "" tUints [("rlp", "tail")];
                fld "b" "main" tUint [] ]
    | _ => []
    end
|}.

(** [typ.Elem()] *)
Definition Elem (t : ty) : ty :=
  match t with
  | tPtrNode => tNode
  | tUints => tUint
  | _ => t
  end.

Inductive strategy : Set :=
  | ForUint
  | ForElem (elem : nat)
  | ForFields (fields : list field).

(** The error of a type that is not serializable is the type. *)
Definition make (t : ty) (ts : tags) : prog ty ty strategy :=
  match kindOf t with
  | Uint => Ret (Ok ForUint)
  | Ptr | Slice =>
      CallCachedTypeInfo1 (Elem t) noTags (λ r,
        match r with
        | Ok p => Ret (Ok (ForElem p))
        | Err e => Ret (Err e)
        end)
  | Struct =>
      CallStructFields t (λ r,
        match r with
        | Ok fs => Ret (Ok (ForFields fs))
        | Err e => Ret (Err e)
        end)
  | _ => Ret (Err (ErrGen t))
  end.

Abbreviation state := (state (T:=ty) (D:=strategy) (W:=strategy)).

Abbreviation cachedTypeInfo1 := (cachedTypeInfo1 make make).

Abbreviation cachedTypeInfo := (cachedTypeInfo make make).

Abbreviation vars := (vars (T:=ty) (D:=strategy) (W:=strategy)).

Abbreviation genTypeInfo := (genTypeInfo make make).

Abbreviation parseStructTag := (parseStructTag (T:=ty) (E:=ty)).

(** The cache of a program that has resolved nothing yet, and its package
    variables with no lock held. *)
Definition s0 : state := mkState ∅ [] [].

Definition v0 : vars := mkVars free s0.

Definition stateOf {S A} (o : outcome S A) (default : S) : S :=
  match o with
  | Returned _ s => s
  | _ => default
  end.

Definition nodeKey : ty * tags := (tNode, noTags).

Definition badKey : ty * tags := (tBad, noTags).

(** The keys the resolution of [Node] asks for. *)
Definition nodeKeys : gset (ty * tags) :=
  {[ nodeKey; (tUint, noTags); (tPtrNode, mkTags true false false);
     (tUints, mkTags false true false) ]}.

(** The states after [Node] was resolved, and after a failed resolution
    of [Bad] that followed. *)
Definition sNode : state := stateOf (cachedTypeInfo1 4 tNode noTags s0) s0.

Definition vNode : vars := stateOf (cachedTypeInfo 4 tNode noTags v0) v0.

Definition vNodeBad : vars :=
  stateOf (cachedTypeInfo 4 tBad noTags vNode) vNode.

(** The state in which the generator of [Bad] returns its error. *)
Definition sBadGen : state :=
  stateOf (genTypeInfo (cachedTypeInfo1 3) tBad noTags (begin badKey s0)) s0.

(** The descriptors of [Node]: Val, Next and Rest. *)
Definition nodeFields : list field :=
  [mkField 0 0; mkField 1 1; mkField 4 3].

Definition sFields : state :=
  stateOf (structFields (cachedTypeInfo1 4) tNode s0) s0.

End Program.

(** A second program: a struct that refers to itself through a pointer
    and has a channel, which cannot be serialized, and a struct of
    which no field is enumerated. *)
Module Cell.

Inductive ty : Set := tUint | tChan | tCell | tPtrCell | tOpaque.

Global Instance cell_eq_dec : EqDecision ty.
Proof. solve_decision. Defined.

Definition cell_to_nat (t : ty) : nat :=
  match t with
  | tUint => 0 | tChan => 1 | tCell => 2 | tPtrCell => 3 | tOpaque => 4
  end.

Definition cell_of_nat (n : nat) : ty :=
  match n with
  | 0 => tUint | 1 => tChan | 2 => tCell | 3 => tPtrCell | _ => tOpaque
  end.

Global Instance cell_countable : Countable ty.
Proof.
  refine (inj_countable' cell_to_nat cell_of_nat _). by intros [].
Defined.

Global Instance cell_reflect : ReflectType ty := {|
  kindOf t :=
    match t with
    | tUint => Uint | tChan => Chan | tPtrCell => Ptr
    | tCell | tOpaque => Struct
    end;
  fieldsOf t :=
    match t with
    | tCell => [ mkStructField "Next" "" tPtrCell [];
                 mkStructField "C" "" tChan [] ]
    | tOpaque => [ mkStructField "a" "main" tChan [("rlp", "bogus")];
                   mkStructField "Skip" "" tChan [("rlp", "-")] ]
    | _ => []
    end
|}.

(** [typ.Elem()] *)
Definition Elem (t : ty) : ty :=
  match t with
  | tPtrCell => tCell
  | _ => t
  end.

(** The error of a type that is not serializable is the type. *)
Definition make (t : ty) (ts : tags) : prog ty ty Program.strategy :=
  match kindOf t with
  | Uint => Ret (Ok Program.ForUint)
  | Ptr =>
      CallCachedTypeInfo1 (Elem t) noTags (λ r,
        match r with
        | Ok p => Ret (Ok (Program.ForElem p))
        | Err e => Ret (Err e)
        end)
  | Struct =>
      CallStructFields t (λ r,
        match r with
        | Ok fs => Ret (Ok (Program.ForFields fs))
        | Err e => Ret (Err e)
        end)
  | _ => Ret (Err (ErrGen t))
  end.

Abbreviation state :=
  (state (T:=ty) (D:=Program.strategy) (W:=Program.strategy)).

Abbreviation cachedTypeInfo1 := (cachedTypeInfo1 make make).

Abbreviation parseStructTag := (parseStructTag (T:=ty) (E:=ty)).

Definition s0 : state := mkState ∅ [] [].

(** The state after the resolution of [Cell] has failed. *)
Definition sCell : state :=
  Program.stateOf (cachedTypeInfo1 3 tCell noTags s0) s0.

End Cell.

(** A third program, for the parser: a struct whose tags have several
    pieces and white space. *)
Module Tagged.

Inductive ty : Set := tUint | tUints | tTagged.

Global Instance tagged_eq_dec : EqDecision ty.
Proof. solve_decision. Defined.

Definition tagged_to_nat (t : ty) : nat :=
  match t with tUint => 0 | tUints => 1 | tTagged => 2 end.

Definition tagged_of_nat (n : nat) : ty :=
  match n with 0 => tUint | 1 => tUints | _ => tTagged end.

Global Instance tagged_countable : Countable ty.
Proof.
  refine (inj_countable' tagged_to_nat tagged_of_nat _). by intros [].
Defined.

Global Instance tagged_reflect : ReflectType ty := {|
  kindOf t :=
    match t with
    | tUint => Uint | tUints => Slice | tTagged => Struct
    end;
  fieldsOf t :=
    match t with
    | tTagged => [ mkStructField "A" "" tUints [("rlp", "tail,bogus")];
                   mkStructField "B" "" tUint [("rlp", " nil , - ,")] ]
    | _ => []
    end
|}.

Abbreviation parseStructTag := (parseStructTag (T:=ty) (E:=ty)).

End Tagged.

(** * Properties *)

(** ** Go strings *)

Lemma Split_nonempty s sep : Split s sep ≠ [].
Proof.
  destruct s as [|c r]; simpl; [done|].
  case_decide; [done|]. by destruct (Split r sep).
Qed.

(** X1. [strings.Split] cuts at every separator and loses nothing: the
    pieces, joined with the separator, are the string; a string with n
    separators has n + 1 pieces, so there is at least one; and no piece
    holds the separator. *)
Theorem Split_pieces (s : string) (sep : ascii) :
  String.concat (String sep EmptyString) (Split s sep) = s
  ∧ length (Split s sep)
    = S (length (filter (λ c, c = sep) (list_ascii_of_string s)))
  ∧ Forall (λ p, sep ∉ list_ascii_of_string p) (Split s sep).
Proof.
  induction s as [|c r (IHc & IHn & IHf)].
  - simpl. split_and!; [done..|]. repeat constructor. by intros ?%elem_of_nil.
  - pose proof (Split_nonempty r sep) as Hne. simpl.
    destruct (decide (c = sep)) as [->|Hc].
    + split_and!.
      * destruct (Split r sep) as [|h t] eqn:Hs; [done|].
        rewrite <- IHc. by destruct t.
      * rewrite filter_cons_True by done. simpl. by rewrite IHn.
      * constructor; [by intros ?%elem_of_nil|done].
    + destruct (Split r sep) as [|h t] eqn:Hs; [done|]. split_and!.
      * rewrite <- IHc. by destruct t.
      * rewrite filter_cons_False by done. by rewrite <- IHn.
      * apply Forall_cons in IHf as [Hh Ht]. constructor; [|done].
        simpl. intros [?|?]%elem_of_cons; [congruence|done].
Qed.

Lemma Split_join s sep :
  String.concat (String sep EmptyString) (Split s sep) = s.
Proof.
  induction s as [|c r IH]; simpl; [done|].
  pose proof (Split_nonempty r sep) as Hne.
  destruct (Split r sep) as [|h t] eqn:Hs; [done|].
  case_decide as Hc.
  - subst c. rewrite <- IH. by destruct t.
  - rewrite <- IH. by destruct t.
Qed.

Lemma Split_no_separator s sep :
  Forall (λ p, sep ∉ list_ascii_of_string p) (Split s sep).
Proof.
  induction s as [|c r IH]; simpl.
  - repeat constructor. by intros ?%elem_of_nil.
  - case_decide as Hc.
    + constructor; [by intros ?%elem_of_nil|done].
    + pose proof (Split_nonempty r sep) as Hne.
      destruct (Split r sep) as [|h t]; [done|].
      apply Forall_cons in IH as [Hh Ht]. constructor; [|done].
      simpl. intros [?|?]%elem_of_cons; [congruence|done].
Qed.

Lemma Split_no_sep p sep :
  sep ∉ list_ascii_of_string p → Split p sep = [p].
Proof.
  induction p as [|c r IH]; simpl; [done|].
  intros [Hc Hr]%not_elem_of_cons. rewrite decide_False by done.
  by rewrite IH.
Qed.

Lemma Split_cut p r sep :
  sep ∉ list_ascii_of_string p →
  Split (p ++ String sep r) sep = p :: Split r sep.
Proof.
  induction p as [|c p IH]; simpl.
  - intros _. by rewrite decide_True.
  - intros [Hc Hp]%not_elem_of_cons. rewrite decide_False by done.
    by rewrite IH.
Qed.

(** Pieces without the separator, joined with it, are what [Split]
    gives back. *)
Lemma Split_concat pieces sep :
  pieces ≠ [] →
  Forall (λ p, sep ∉ list_ascii_of_string p) pieces →
  Split (String.concat (String sep EmptyString) pieces) sep = pieces.
Proof.
  induction pieces as [|p pieces IH]; [done|]. intros _ Hall.
  apply Forall_cons in Hall as [Hp Hall].
  destruct pieces as [|q pieces]; [by apply Split_no_sep|].
  change (String.concat (String sep "") (p :: q :: pieces))
    with (p ++ String sep (String.concat (String sep "") (q :: pieces)))%string.
  rewrite Split_cut by done. by rewrite IH.
Qed.

Lemma dropPrefix_Some p l r : dropPrefix p l = Some r ↔ l = p ++ r.
Proof.
  revert l. induction p as [|a p IH]; intros l; simpl.
  - split; [by intros [= ->]|by intros ->].
  - destruct l as [|b l]; [done|]. case_decide as Hab.
    + subst b. rewrite IH. split; [by intros ->|by intros [= ->]].
    + split; [done|]. by intros [= -> _].
Qed.

Lemma dropSpace_Some enc l r :
  dropSpace enc l = Some r → ∃ p, p ∈ enc ∧ l = p ++ r.
Proof.
  induction enc as [|p enc IH]; simpl; [done|].
  destruct (dropPrefix p l) as [r'|] eqn:Hp.
  - intros [= ->]. exists p. split; [by left|]. by apply dropPrefix_Some.
  - intros (q & Hq & ->)%IH. exists q. split; [by right|done].
Qed.

Lemma dropSpace_None enc l :
  dropSpace enc l = None ↔ ∀ p, p ∈ enc → ¬ p `prefix_of` l.
Proof.
  induction enc as [|p enc IH]; simpl.
  - split; [|done]. by intros _ p ?%elem_of_nil.
  - destruct (dropPrefix p l) as [r|] eqn:Hp.
    + split; [done|]. intros Hall. destruct (Hall p); [by left|].
      exists r. by apply dropPrefix_Some.
    + rewrite IH. split.
      * intros Hall q [->|Hq]%elem_of_cons; [|by apply Hall].
        intros [r Hr]. apply dropPrefix_Some in Hr. congruence.
      * intros Hall q Hq. apply Hall. by right.
Qed.

Lemma trimLeft_suffix enc n l : ∃ a, l = a ++ trimLeft enc n l.
Proof.
  revert l. induction n as [|n IH]; intros l; simpl; [by exists []|].
  destruct (dropSpace enc l) as [r|] eqn:Hd; [|by exists []].
  apply dropSpace_Some in Hd as (p & _ & ->).
  destruct (IH r) as [a Ha]. exists (p ++ a).
  by rewrite <- app_assoc, <- Ha.
Qed.

Lemma trimLeft_done enc n l :
  Forall (λ p, p ≠ []) enc →
  length l ≤ n → dropSpace enc (trimLeft enc n l) = None.
Proof.
  intros Henc. revert l. induction n as [|n IH]; intros l Hn; simpl.
  - destruct l; [|simpl in Hn; lia].
    apply dropSpace_None. intros p Hp [r Hr].
    rewrite Forall_forall in Henc. apply (Henc p Hp).
    by destruct p.
  - destruct (dropSpace enc l) as [r|] eqn:Hd; [|done].
    apply dropSpace_Some in Hd as (p & Hp & ->). apply IH.
    rewrite Forall_forall in Henc. specialize (Henc p Hp).
    rewrite length_app in Hn. destruct p; [done|]. simpl in Hn. lia.
Qed.

Lemma trimLeft_id enc n l : dropSpace enc l = None → trimLeft enc n l = l.
Proof. intros Hd. destruct n; simpl; [done|]. by rewrite Hd. Qed.

Lemma whiteSpace_nonempty : Forall (λ p, p ≠ []) whiteSpace.
Proof. by repeat constructor. Qed.

Lemma whiteSpace_reverse_nonempty :
  Forall (λ p, p ≠ []) (map reverse whiteSpace).
Proof. by repeat constructor. Qed.

(** *** What [TrimSpace] removes *)

Lemma blankOf_app enc a b :
  blankOf enc a → blankOf enc b → blankOf enc (a ++ b).
Proof.
  induction 1 as [|w l Hw _ IH]; intros Hb; [done|].
  rewrite <- app_assoc. constructor; [done|]. by apply IH.
Qed.

Lemma blankOf_reverse enc a :
  blankOf enc a → blankOf (map reverse enc) (reverse a).
Proof.
  induction 1 as [|w l Hw _ IH]; [constructor|].
  rewrite reverse_app. apply blankOf_app; [done|].
  rewrite <- (app_nil_r (reverse w)). constructor; [|constructor].
  by apply (list_elem_of_fmap_2 reverse).
Qed.

(** What [trimLeft] takes off is white space. *)
Lemma trimLeft_blank enc n l :
  ∃ a, blankOf enc a ∧ l = a ++ trimLeft enc n l.
Proof.
  revert l. induction n as [|n IH]; intros l; simpl.
  - exists []. split; [constructor|done].
  - destruct (dropSpace enc l) as [r|] eqn:Hd.
    + apply dropSpace_Some in Hd as (p & Hp & ->).
      destruct (IH r) as (a & Ha & Hr). exists (p ++ a).
      split; [by constructor|]. by rewrite <- app_assoc, <- Hr.
    + exists []. split; [constructor|done].
Qed.

Section prefix_free.
Variable enc : list (list ascii).
Hypothesis Hne : Forall (λ p, p ≠ []) enc.
Hypothesis Hfree : ∀ p w, p ∈ enc → w ∈ enc → p `prefix_of` w → p = w.

(** No encoding is the beginning of another, so a string that begins
    with a white-space character loses this one. *)
Lemma dropSpace_first w r : w ∈ enc → dropSpace enc (w ++ r) = Some r.
Proof.
  intros Hw. destruct (dropSpace enc (w ++ r)) as [r'|] eqn:Hd.
  - apply dropSpace_Some in Hd as (p & Hp & Heq).
    assert (p = w) as ->.
    { destruct (prefix_weak_total p w (w ++ r)) as [Hpw|Hwp].
      - exists r'. by rewrite Heq.
      - by exists r.
      - by apply Hfree.
      - symmetry. by apply Hfree. }
    by apply app_inv_head in Heq as ->.
  - rewrite dropSpace_None in Hd. destruct (Hd w Hw). by exists r.
Qed.

Lemma trimLeft_eats n a rest :
  blankOf enc a →
  length (a ++ rest) ≤ n →
  dropSpace enc rest = None →
  trimLeft enc n (a ++ rest) = rest.
Proof.
  intros Ha. revert n. induction Ha as [|w l Hw _ IH]; intros n Hn Hrest.
  - by apply trimLeft_id.
  - rewrite <- app_assoc in Hn |- *.
    rewrite Forall_forall in Hne. specialize (Hne w Hw).
    rewrite length_app in Hn.
    destruct n as [|n]; [destruct w; [done|simpl in Hn; lia]|].
    simpl. rewrite (dropSpace_first _ _ Hw). apply IH; [|done].
    destruct w; [done|]. simpl in Hn. lia.
Qed.

End prefix_free.

Lemma whiteSpace_prefix_free p w :
  p ∈ whiteSpace → w ∈ whiteSpace → p `prefix_of` w → p = w.
Proof.
  assert (H : Forall (λ p, Forall (λ w, p `prefix_of` w → p = w)
                                  whiteSpace) whiteSpace).
  { apply (bool_decide_unpack _). vm_compute. exact I. }
  rewrite Forall_forall in H. intros Hp Hw.
  specialize (H p Hp). rewrite Forall_forall in H. by apply H.
Qed.

Lemma whiteSpace_suffix_free p w :
  p ∈ map reverse whiteSpace → w ∈ map reverse whiteSpace →
  p `prefix_of` w → p = w.
Proof.
  assert (H : Forall (λ p, Forall (λ w, p `prefix_of` w → p = w)
                                  (map reverse whiteSpace))
                     (map reverse whiteSpace)).
  { apply (bool_decide_unpack _). vm_compute. exact I. }
  rewrite Forall_forall in H. intros Hp Hw.
  specialize (H p Hp). rewrite Forall_forall in H. by apply H.
Qed.

(** A byte of an encoding that is not its first byte is not the first
    byte of an encoding. *)
Lemma whiteSpace_lead w w2 c :
  w ∈ whiteSpace → w2 ∈ whiteSpace → c ∈ drop 1 w → head w2 ≠ Some c.
Proof.
  assert (H : Forall (λ w, Forall (λ w2,
                Forall (λ c, head w2 ≠ Some c) (drop 1 w))
                whiteSpace) whiteSpace).
  { apply (bool_decide_unpack _). vm_compute. exact I. }
  rewrite Forall_forall in H. intros Hw Hw2 Hc.
  specialize (H w Hw). rewrite Forall_forall in H.
  specialize (H w2 Hw2). rewrite Forall_forall in H. by apply H.
Qed.

(** A string that does not begin with white space and is followed by
    white space: no white-space character begins the whole. *)
Lemma tight_then_blank core b :
  core ≠ [] →
  (∀ w, w ∈ whiteSpace → ¬ w `prefix_of` core) →
  blank b →
  dropSpace whiteSpace (core ++ b) = None.
Proof.
  intros Hcore Htight Hb. apply dropSpace_None. intros w Hw [k Hk].
  apply app_eq_inv in Hk as [(x & Hc & Hx)|(x & Hwx & Hx)].
  - apply (Htight _ Hw). by exists x.
  - destruct x as [|c x].
    { apply (Htight _ Hw). exists []. by rewrite Hwx, !app_nil_r. }
    inversion Hb as [Hnil|w2 b' Hw2 Hb' Heq]; [by rewrite <- Hnil in Hx|].
    pose proof (Forall_forall (λ p, p ≠ []) whiteSpace) as [Hall _].
    specialize (Hall whiteSpace_nonempty w2 Hw2).
    destruct w2 as [|c2 w2]; [done|].
    rewrite <- Heq in Hx. simpl in Hx. injection Hx as -> _.
    apply (whiteSpace_lead w (c :: w2) c Hw Hw2); [|done].
    rewrite Hwx. destruct core as [|c0 core]; [done|]. simpl.
    apply elem_of_app. right. by left.
Qed.

(** [TrimSpace] is the trimming: when a string is white space, a part
    that neither begins nor ends with white space, and white space,
    [TrimSpace] returns the part. *)
Lemma TrimSpace_spec piece tok : trims piece tok → TrimSpace piece = tok.
Proof.
  intros (a & b & Hl & Ha & Hb & Htight).
  unfold TrimSpace. cbv zeta. rewrite Hl.
  set (core := list_ascii_of_string tok) in *.
  transitivity (string_of_list_ascii core);
    [|apply string_of_list_ascii_of_string].
  f_equal.
  assert (Hnone : ∀ enc, Forall (λ p, p ≠ []) enc → dropSpace enc [] = None).
  { intros enc Hne. apply dropSpace_None. intros p Hp [k Hk].
    rewrite Forall_forall in Hne. apply (Hne p Hp). by destruct p. }
  destruct (decide (core = [])) as [Hnil|Hcore].
  - rewrite Hnil. simpl app.
    pose proof (trimLeft_eats whiteSpace whiteSpace_nonempty
                  whiteSpace_prefix_free (length (a ++ b)) (a ++ b) []
                  (blankOf_app _ _ _ Ha Hb)) as H1.
    rewrite app_nil_r in H1. rewrite H1; [done|done|].
    apply Hnone, whiteSpace_nonempty.
  - pose proof (trimLeft_eats whiteSpace whiteSpace_nonempty
                  whiteSpace_prefix_free (length (a ++ core ++ b)) a
                  (core ++ b) Ha) as H1.
    rewrite H1; [|done|].
    + pose proof (trimLeft_eats (map reverse whiteSpace)
                    whiteSpace_reverse_nonempty whiteSpace_suffix_free
                    (length (core ++ b)) (reverse b) (reverse core)
                    (blankOf_reverse _ _ Hb)) as H2.
      rewrite reverse_app, H2; [by rewrite reverse_involutive| |].
      * by rewrite !length_app, !length_reverse, Nat.add_comm.
      * apply dropSpace_None. intros p Hp [k Hk].
        apply list_elem_of_fmap_1 in Hp as (w & -> & Hw).
        destruct (Htight w Hw) as [_ Hsuf]. apply Hsuf.
        exists (reverse k).
        by rewrite <- (reverse_involutive core), Hk, reverse_app,
          reverse_involutive.
    + apply tight_then_blank; [done| |done].
      intros w Hw. by destruct (Htight w Hw).
Qed.

(** Ways to show [tight] and [trims]. *)
Lemma tight_check l :
  Forall (λ w, ¬ w `prefix_of` l ∧ ¬ w `suffix_of` l) whiteSpace → tight l.
Proof. intros Hall w Hw. rewrite Forall_forall in Hall. by apply Hall. Qed.

Lemma blank_space : blank [" "%char].
Proof.
  apply (blank_cons _ [" "%char] []); [|constructor].
  apply (bool_decide_unpack _). vm_compute. exact I.
Qed.

Lemma trims_self tok : tight (list_ascii_of_string tok) → trims tok tok.
Proof.
  intros Ht. exists [], []. rewrite app_nil_r.
  split_and!; [done|constructor|constructor|done].
Qed.

Lemma list_ascii_of_string_app (a b : string) :
  list_ascii_of_string (a ++ b)
    = list_ascii_of_string a ++ list_ascii_of_string b.
Proof. induction a as [|c a IH]; simpl; [done|]. by rewrite IH. Qed.

Lemma trims_spaces tok :
  tight (list_ascii_of_string tok) →
  trims (String " " (tok ++ " ")) tok.
Proof.
  intros Ht. exists [" "%char], [" "%char].
  split_and!; [|apply blank_space|apply blank_space|done].
  simpl. by rewrite list_ascii_of_string_app.
Qed.

(** What [TrimSpace] leaves, on the bytes: the string without white
    space that stood at its two ends, a part that neither begins nor
    ends with white space. *)
Lemma TrimSpace_bytes s :
  let out := list_ascii_of_string (TrimSpace s) in
  dropSpace whiteSpace out = None
  ∧ dropSpace (map reverse whiteSpace) (reverse out) = None
  ∧ ∃ a b, list_ascii_of_string s = a ++ out ++ b ∧ blank a ∧ blank b.
Proof.
  unfold TrimSpace. cbv zeta.
  set (l := list_ascii_of_string s).
  set (l1 := trimLeft whiteSpace (length l) l).
  set (l2 := trimLeft (map reverse whiteSpace) (length l1) (reverse l1)).
  rewrite list_ascii_of_string_of_list_ascii.
  assert (H1 : dropSpace whiteSpace l1 = None).
  { by apply trimLeft_done; [apply whiteSpace_nonempty|]. }
  assert (H2 : dropSpace (map reverse whiteSpace) l2 = None).
  { apply trimLeft_done; [apply whiteSpace_reverse_nonempty|].
    by rewrite length_reverse. }
  destruct (trimLeft_blank whiteSpace (length l) l) as (a & Hblanka & Ha).
  destruct (trimLeft_blank (map reverse whiteSpace) (length l1)
              (reverse l1)) as (b & Hblankb & Hb).
  fold l1 in Ha. fold l2 in Hb.
  assert (Hl1 : l1 = reverse l2 ++ reverse b).
  { by rewrite <- reverse_app, <- Hb, reverse_involutive. }
  split_and!.
  - apply dropSpace_None. intros p Hp [r Hr].
    rewrite dropSpace_None in H1. apply (H1 p Hp).
    exists (r ++ reverse b). by rewrite Hl1, Hr, <- app_assoc.
  - by rewrite reverse_involutive.
  - exists a, (reverse b). split_and!; [by rewrite Ha, Hl1|done|].
    apply blankOf_reverse in Hblankb. exact Hblankb.
Qed.

Lemma TrimSpace_trims s : trims s (TrimSpace s).
Proof.
  destruct (TrimSpace_bytes s) as (H1 & H2 & a & b & Hl & Ha & Hb).
  exists a, b. split_and!; [done..|]. intros w Hw. split.
  - rewrite dropSpace_None in H1. by apply H1.
  - rewrite dropSpace_None in H2. intros [k Hk].
    apply (H2 (reverse w)).
    + by apply (list_elem_of_fmap_2 reverse).
    + exists (reverse k). by rewrite Hk, reverse_app.
Qed.

(** X2. [strings.TrimSpace] takes white space off the two ends only, and
    all of it: what it removes before and after the result is white
    space, no white-space character is at the beginning or at the end
    of the result, and the result is the only part of the string of
    which this is true. Trimming it again changes nothing. *)
Theorem TrimSpace_trimmed (s : string) :
  TrimSpace (TrimSpace s) = TrimSpace s
  ∧ (∀ w, w ∈ whiteSpace →
       ¬ w `prefix_of` list_ascii_of_string (TrimSpace s)
       ∧ ¬ w `suffix_of` list_ascii_of_string (TrimSpace s))
  ∧ (∃ a b, list_ascii_of_string s
            = a ++ list_ascii_of_string (TrimSpace s) ++ b
            ∧ blank a ∧ blank b)
  ∧ (∀ tok, trims s tok → TrimSpace s = tok).
Proof.
  destruct (TrimSpace_bytes s) as (H1 & H2 & Hpart).
  split_and!; [|intros w Hw; split|done|apply TrimSpace_spec].
  - unfold TrimSpace at 1. cbv zeta.
    rewrite (trimLeft_id _ _ _ H1), (trimLeft_id _ _ _ H2).
    by rewrite reverse_involutive, string_of_list_ascii_of_string.
  - rewrite dropSpace_None in H1. by apply H1.
  - rewrite dropSpace_None in H2. intros [k Hk].
    apply (H2 (reverse w)).
    + apply list_elem_of_fmap_2 with (f := reverse) in Hw. exact Hw.
    + exists (reverse k). by rewrite Hk, reverse_app.
Qed.

(** ** Kinds *)

(** X3. [isUint] holds of the six unsigned integer kinds, [Uintptr] among
    them, and of no other kind: not of the signed integers, and not of
    [Invalid]. *)
Theorem isUint_unsigned_kinds (k : Kind) :
  isUint k = true ↔ k ∈ [Uint; Uint8; Uint16; Uint32; Uint64; Uintptr].
Proof.
  split.
  - destruct k; try discriminate; intros _; set_solver.
  - intros Hk. repeat (apply elem_of_cons in Hk as [->|Hk]; [done|]).
    by apply elem_of_nil in Hk.
Qed.

(** ** The struct-tag parser *)

Section parse_facts.
Context {T : Type} `{ReflectType T} {E : Type}.

Lemma Field_NumField typ fi f :
  Field typ fi = Some f → ∃ n, NumField typ = Some n ∧ fi < n.
Proof.
  unfold Field, NumField. case_decide; [|done].
  intros Hf. eexists; split; [done|]. by eapply lookup_lt_Some.
Qed.

Lemma lastVisible_of_last typ fi :
  NumField typ = Some (S fi) → lastVisible typ fi.
Proof.
  intros Hn j g Hj Hg. unfold NumField, Field in *.
  case_decide; [|done]. apply lookup_lt_Some in Hg. simplify_eq. lia.
Qed.

Lemma bool_decide_elem_cons (x y : string) (l : list string) :
  bool_decide (x ∈ y :: l) = bool_decide (x = y) || bool_decide (x ∈ l).
Proof.
  rewrite <- bool_decide_or. apply bool_decide_ext, elem_of_cons.
Qed.

Local Ltac flags :=
  match goal with
  | ts : tags |- _ => destruct ts; simpl
  end;
  repeat (case_bool_decide; try done); simpl;
  rewrite ?orb_true_r, ?orb_false_r; done.

Section loop.
Variables (typ : T) (fi n : nat) (f : StructField T).
Hypothesis Hn : NumField typ = Some n.

Lemma tagLoop_cons t rest ts :
  tagLoop (E:=E) typ fi f (t :: rest) ts =
    let t := TrimSpace t in
    if decide (t = "") then tagLoop typ fi f rest ts
    else if decide (t = "-") then
      tagLoop typ fi f rest (mkTags (nilOK ts) (tail ts) true)
    else if decide (t = "nil") then
      tagLoop typ fi f rest (mkTags true (tail ts) (ignored ts))
    else if decide (t = "tail") then
      if decide (n = S fi) then
        if decide (kindOf (Type_ f) = Slice) then
          tagLoop typ fi f rest (mkTags (nilOK ts) true (ignored ts))
        else Some (mkTags (nilOK ts) true (ignored ts),
                   Some (ErrTailNotSlice typ (Name f)))
      else Some (mkTags (nilOK ts) true (ignored ts),
                 Some (ErrTailNotLast typ (Name f)))
    else Some (ts, Some (ErrUnknownTag t typ (Name f))).
Proof.
  simpl. rewrite Hn. simpl.
  repeat case_decide; try done; lia.
Qed.

(** Every piece is recognised and a "tail", if any, is allowed: the
    loop ends without error and each flag tells whether its token
    occurs. *)
Lemma tagLoop_known pieces ts :
  Forall known (TrimSpace <$> pieces) →
  ("tail" ∈ TrimSpace <$> pieces → n = S fi ∧ kindOf (Type_ f) = Slice) →
  tagLoop (E:=E) typ fi f pieces ts =
    Some (mkTags (nilOK ts || bool_decide ("nil" ∈ TrimSpace <$> pieces))
                 (tail ts || bool_decide ("tail" ∈ TrimSpace <$> pieces))
                 (ignored ts || bool_decide ("-" ∈ TrimSpace <$> pieces)),
          None).
Proof.
  revert ts. induction pieces as [|t rest IH]; intros ts Hk Ht.
  - destruct ts; simpl. by rewrite !orb_false_r.
  - rewrite tagLoop_cons. rewrite fmap_cons in Hk, Ht.
    rewrite fmap_cons, !bool_decide_elem_cons.
    apply Forall_cons in Hk as [Hk1 Hk].
    assert (Hrest : "tail" ∈ TrimSpace <$> rest →
                    n = S fi ∧ kindOf (Type_ f) = Slice).
    { intros ?. apply Ht. by right. }
    cbv zeta.
    destruct Hk1 as [Ht0|[Ht0|[Ht0|Ht0]]]; rewrite Ht0 in *.
    + rewrite decide_True by done. rewrite IH by done. flags.
    + rewrite decide_False, decide_True by done. rewrite IH by done.
      flags.
    + rewrite !decide_False, decide_True by done. rewrite IH by done.
      flags.
    + destruct Ht as [-> Hs]; [by left|].
      rewrite !decide_False, !decide_True by done. rewrite IH by done.
      flags.
Qed.

(** The first piece that is not recognised, with no misplaced "tail"
    before it, ends the loop with the error that names it. *)
Lemma tagLoop_unknown pre t post ts :
  Forall known (TrimSpace <$> pre) →
  ("tail" ∈ TrimSpace <$> pre → n = S fi ∧ kindOf (Type_ f) = Slice) →
  ¬ known (TrimSpace t) →
  ∃ ts', tagLoop (E:=E) typ fi f (pre ++ t :: post) ts =
           Some (ts', Some (ErrUnknownTag (TrimSpace t) typ (Name f))).
Proof.
  revert ts. induction pre as [|p pre IH]; intros ts Hk Ht Hu.
  - simpl app. rewrite tagLoop_cons. cbv zeta. unfold known in Hu.
    repeat case_decide; try tauto. by eexists.
  - simpl app. rewrite tagLoop_cons. rewrite fmap_cons in Hk, Ht.
    apply Forall_cons in Hk as [Hk1 Hk].
    assert (Hrest : "tail" ∈ TrimSpace <$> pre →
                    n = S fi ∧ kindOf (Type_ f) = Slice).
    { intros ?. apply Ht. by right. }
    cbv zeta.
    destruct Hk1 as [Ht0|[Ht0|[Ht0|Ht0]]]; rewrite Ht0;
      repeat (case_decide; try done); try (by apply IH).
    all: destruct Ht as [? ?]; [rewrite Ht0; by left|done].
Qed.

(** The first "tail", with only recognised pieces before it, ends the
    loop with a placement error when it is not allowed. *)
Lemma tagLoop_tail pre t post ts :
  Forall known (TrimSpace <$> pre) →
  "tail" ∉ TrimSpace <$> pre →
  TrimSpace t = "tail" →
  ¬ (n = S fi ∧ kindOf (Type_ f) = Slice) →
  ∃ ts', tagLoop (E:=E) typ fi f (pre ++ t :: post) ts =
           Some (ts', Some (if decide (n = S fi)
                            then ErrTailNotSlice typ (Name f)
                            else ErrTailNotLast typ (Name f)))
         ∧ tail ts' = true.
Proof.
  revert ts. induction pre as [|p pre IH]; intros ts Hk Hnt Ht Hbad.
  - simpl app. rewrite tagLoop_cons. cbv zeta. rewrite Ht.
    repeat (case_decide; try done); try tauto; by eexists.
  - simpl app. rewrite tagLoop_cons. rewrite fmap_cons in Hk, Hnt.
    apply Forall_cons in Hk as [Hk1 Hk].
    apply not_elem_of_cons in Hnt as [Hp Hnt].
    cbv zeta.
    destruct Hk1 as [Ht0|[Ht0|[Ht0|Ht0]]]; [| | |done]; rewrite Ht0;
      repeat (case_decide; try done); by apply IH.
Qed.

(** A piece that is not recognised makes the loop end with an error,
    wherever it stands: the error names the first such piece, unless a
    "tail" that is not allowed comes before it. *)
Lemma tagLoop_rejects pieces ts :
  Exists (λ t, ¬ known t) (TrimSpace <$> pieces) →
  ∃ ts' e,
    tagLoop (E:=E) typ fi f pieces ts = Some (ts', Some e) ∧
    ((∃ t, t ∈ TrimSpace <$> pieces ∧ ¬ known t ∧
           e = ErrUnknownTag t typ (Name f))
     ∨ ("tail" ∈ TrimSpace <$> pieces ∧
        ¬ (n = S fi ∧ kindOf (Type_ f) = Slice) ∧
        e = if decide (n = S fi) then ErrTailNotSlice typ (Name f)
            else ErrTailNotLast typ (Name f))).
Proof.
  revert ts. induction pieces as [|p pieces IH]; intros ts Hex.
  - by apply Exists_nil in Hex.
  - rewrite fmap_cons in Hex |- *. rewrite tagLoop_cons. cbv zeta.
    assert (Hstep : ∀ ts1, known (TrimSpace p) →
              ∃ ts' e,
                tagLoop (E:=E) typ fi f pieces ts1 = Some (ts', Some e) ∧
                ((∃ t, t ∈ TrimSpace p :: (TrimSpace <$> pieces) ∧
                       ¬ known t ∧ e = ErrUnknownTag t typ (Name f))
                 ∨ ("tail" ∈ TrimSpace p :: (TrimSpace <$> pieces) ∧
                    ¬ (n = S fi ∧ kindOf (Type_ f) = Slice) ∧
                    e = if decide (n = S fi)
                        then ErrTailNotSlice typ (Name f)
                        else ErrTailNotLast typ (Name f)))).
    { intros ts1 Hp. apply Exists_cons in Hex as [Hex|Hex]; [done|].
      destruct (IH ts1 Hex) as (ts' & e & Hl & [(t & Ht & Hu & ->)|Hr]).
      - eexists ts', _. split; [done|]. left. exists t.
        split_and!; [by right|done..].
      - destruct Hr as (Ht & Hbad & ->). eexists ts', _. split; [done|].
        right. split_and!; [by right|done..]. }
    destruct (decide (TrimSpace p = "")) as [Hp|?];
      [apply Hstep; unfold known; tauto|].
    destruct (decide (TrimSpace p = "-")) as [Hp|?];
      [apply Hstep; unfold known; tauto|].
    destruct (decide (TrimSpace p = "nil")) as [Hp|?];
      [apply Hstep; unfold known; tauto|].
    destruct (decide (TrimSpace p = "tail")) as [Hp|?].
    + destruct (decide (n = S fi)) as [Hn1|Hn1].
      * destruct (decide (kindOf (Type_ f) = Slice)) as [Hs|Hs];
          [apply Hstep; unfold known; tauto|].
        eexists _, _. split; [done|]. right.
        split_and!; [rewrite Hp; by left|tauto|done].
      * eexists _, _. split; [done|]. right.
        split_and!; [rewrite Hp; by left|tauto|done].
    + eexists _, _. split; [done|]. left. exists (TrimSpace p).
      split_and!; [by left|unfold known; tauto|done].
Qed.

Lemma tagLoop_returns pieces ts :
  ∃ ts' e, tagLoop (E:=E) typ fi f pieces ts = Some (ts', e).
Proof.
  revert ts. induction pieces as [|t rest IH]; intros ts.
  - by eexists _, _.
  - rewrite tagLoop_cons. cbv zeta.
    repeat case_decide; try apply IH; by eexists _, _.
Qed.

End loop.

Lemma parseStructTag_returns typ fi f :
  Field typ fi = Some f →
  ∃ ts e, parseStructTag (E:=E) typ fi = Some (ts, e).
Proof.
  intros Hf. unfold parseStructTag. rewrite Hf. simpl.
  destruct (Field_NumField _ _ _ Hf) as (n & Hn & _).
  by eapply tagLoop_returns.
Qed.

Lemma tokens_split (f : StructField T) pre t post :
  tokens f = pre ++ t :: post →
  ∃ pre' t' post',
    Split (Get (Tag f) "rlp") "," = pre' ++ t' :: post' ∧
    pre = TrimSpace <$> pre' ∧ t = TrimSpace t'.
Proof.
  unfold tokens. intros Hsplit.
  apply fmap_app_inv in Hsplit as (pre' & rest & -> & Hrest & ->).
  symmetry in Hrest.
  apply fmap_cons_inv in Hrest as (t' & post' & -> & -> & ->).
  by eexists _, _, _.
Qed.

(** The first piece of a list that is not recognised. *)
Lemma first_unknown (l : list string) :
  ¬ Forall known l →
  ∃ l1 t l2, l = l1 ++ t :: l2 ∧ Forall known l1 ∧ ¬ known t.
Proof.
  induction l as [|a l IH]; intros Hl.
  - by destruct Hl.
  - destruct (decide (known a)) as [Ha|Ha].
    + destruct IH as (l1 & t & l2 & -> & Hl1 & Ht).
      { intros Hall. apply Hl. by constructor. }
      exists (a :: l1), t, l2. split_and!; [done| |done]. by constructor.
    + exists [], a, l. by split_and!.
Qed.

(** The parser on the pieces as the loop sees them. When every piece
    is one of the four forms (a "tail" standing where it is allowed)
    the result has no error and its flags tell which of "nil", "tail"
    and "-" occur. The first piece of another form ends the parse with
    the error that carries it. *)
Lemma parseStructTag_on_tokens typ fi f :
  Field typ fi = Some f →
  (Forall known (tokens f) →
   ("tail" ∈ tokens f → tailAllowed typ fi f) →
   parseStructTag (E:=E) typ fi =
     Some (mkTags (bool_decide ("nil" ∈ tokens f))
                  (bool_decide ("tail" ∈ tokens f))
                  (bool_decide ("-" ∈ tokens f)), None))
  ∧ (∀ pre t post,
       tokens f = pre ++ t :: post →
       Forall known pre →
       ("tail" ∈ pre → tailAllowed typ fi f) →
       ¬ known t →
       ∃ ts, parseStructTag (E:=E) typ fi =
               Some (ts, Some (ErrUnknownTag t typ (Name f))))
  ∧ (∀ t, t ∈ tokens f → ¬ known t →
       ∃ ts e,
         parseStructTag (E:=E) typ fi = Some (ts, Some e) ∧
         ((∃ t', t' ∈ tokens f ∧ ¬ known t' ∧
                 e = ErrUnknownTag t' typ (Name f))
          ∨ ("tail" ∈ tokens f ∧ ¬ tailAllowed typ fi f ∧
             e = placementError typ fi f)))
  ∧ (Get (Tag f) "rlp" = "nil" →
     parseStructTag (E:=E) typ fi = Some (mkTags true false false, None))
  ∧ (Get (Tag f) "rlp" = "-" →
     parseStructTag (E:=E) typ fi = Some (mkTags false false true, None))
  ∧ (Get (Tag f) "rlp" = "bogus" →
     parseStructTag (E:=E) typ fi =
       Some (noTags, Some (ErrUnknownTag "bogus" typ (Name f)))).
Proof.
  intros Hf. destruct (Field_NumField _ _ _ Hf) as (n & Hn & Hfi).
  unfold parseStructTag. rewrite Hf. cbn [mbind option_bind].
  assert (Hallowed : tailAllowed typ fi f →
                     n = S fi ∧ kindOf (Type_ f) = Slice).
  { intros [Hl Hs]. split; [congruence|done]. }
  split_and!.
  - intros Hk Ht. rewrite (tagLoop_known typ fi n f Hn); [done|done|].
    intros Hin. by apply Hallowed, Ht.
  - intros pre t post Hsplit Hk Ht Hu.
    apply tokens_split in Hsplit as (pre' & t' & post' & -> & -> & ->).
    apply (tagLoop_unknown typ fi n f Hn); [done| |done].
    intros Hin. by apply Hallowed, Ht.
  - intros t Ht Hu.
    destruct (tagLoop_rejects typ fi n f Hn (Split (Get (Tag f) "rlp") ",")
                noTags) as (ts & e & Hl & Hcase).
    { apply Exists_exists. by exists t. }
    exists ts, e. split; [done|].
    destruct Hcase as [?|(Htail & Hbad & ->)]; [by left|right].
    split_and!; [done| |].
    + intros Ha. by apply Hbad, Hallowed.
    + unfold placementError. rewrite Hn.
      destruct (decide (n = S fi)) as [->|Hne].
      * by rewrite decide_True.
      * rewrite decide_False; [done|]. by intros [= ->].
  - intros ->. change (Split "nil" ",") with ["nil"].
    rewrite (tagLoop_cons typ fi n f Hn). cbv zeta.
    change (TrimSpace "nil") with "nil".
    by rewrite !decide_False, decide_True by done.
  - intros ->. change (Split "-" ",") with ["-"].
    rewrite (tagLoop_cons typ fi n f Hn). cbv zeta.
    change (TrimSpace "-") with "-".
    by rewrite !decide_False, decide_True by done.
  - intros ->. change (Split "bogus" ",") with ["bogus"].
    rewrite (tagLoop_cons typ fi n f Hn). cbv zeta.
    change (TrimSpace "bogus") with "bogus".
    by rewrite !decide_False by done.
Qed.

(** The test on "tail" is on the declared fields: a "tail" on a field
    that is not the last one declared, or whose type is not a slice, is
    rejected. *)
Lemma tail_rejected typ fi f :
  Field typ fi = Some f →
  "tail" ∈ tokens f →
  ¬ tailAllowed typ fi f →
  ∃ ts e pre post,
    parseStructTag (E:=E) typ fi = Some (ts, Some e) ∧
    tokens f = pre ++ ("tail" :: post) ∧ ("tail" ∉ pre) ∧
    (Forall known pre →
     e = placementError typ fi f ∧ isPlacementError e) ∧
    (¬ Forall known pre →
     ∃ pre1 t pre2, pre = pre1 ++ t :: pre2 ∧ Forall known pre1 ∧
                    ¬ known t ∧ e = ErrUnknownTag t typ (Name f)).
Proof.
  intros Hf Htail Hbad.
  destruct (Field_NumField _ _ _ Hf) as (n & Hn & Hfi).
  assert (Hbad' : ¬ (n = S fi ∧ kindOf (Type_ f) = Slice)).
  { intros [-> Hs]. by apply Hbad. }
  apply list_elem_of_split_l in Htail as (pre & post & Hsplit & Hpre).
  destruct (tokens_split _ _ _ _ Hsplit)
    as (pre' & t' & post' & Hpieces & -> & Ht').
  unfold parseStructTag. rewrite Hf. cbn [mbind option_bind].
  rewrite Hpieces.
  destruct (decide (Forall known (TrimSpace <$> pre'))) as [Hk|Hk].
  - destruct (tagLoop_tail typ fi n f Hn pre' t' post' noTags)
      as (ts & Hts & _); [done..|].
    rewrite Hts. eexists ts, _, _, post. split_and!; [done..| |done].
    intros _. unfold placementError. rewrite Hn.
    destruct (decide (n = S fi)) as [->|Hne].
    + by rewrite decide_True.
    + rewrite decide_False; [done|]. by intros [= ->].
  - destruct (first_unknown _ Hk) as (l1 & t & l2 & Hl & Hl1 & Ht).
    apply fmap_app_inv in Hl as (l1' & rest & -> & Hrest & ->).
    symmetry in Hrest.
    apply fmap_cons_inv in Hrest as (t0 & l2' & -> & -> & ->).
    rewrite <- app_assoc. simpl app.
    destruct (tagLoop_unknown typ fi n f Hn l1' t0
                (l2' ++ t' :: post') noTags) as [ts Hts]; [done| |done|].
    { intros Hin. destruct Hpre. rewrite fmap_app.
      apply elem_of_app. by left. }
    rewrite Hts. eexists ts, _, _, post. split_and!; [done..| |].
    + by intros ?.
    + intros _. eexists _, _, _. by split_and!; [rewrite fmap_app|..].
Qed.

(** The pieces and tokens that [tokenized] describes are those the
    loop sees, and every tag has them. *)
Lemma tokens_spec (f : StructField T) pieces toks :
  tokenized f pieces toks → tokens f = toks.
Proof.
  intros (Hne & Hcat & Hsep & Htrim). unfold tokens.
  rewrite <- Hcat, (Split_concat pieces ","%char Hne Hsep).
  clear Hne Hcat Hsep. induction Htrim as [|p t ps ts Hp _ IH]; [done|].
  rewrite fmap_cons. f_equal; [by apply TrimSpace_spec|done].
Qed.

Lemma tokenized_exists (f : StructField T) :
  tokenized f (Split (Get (Tag f) "rlp") ",") (tokens f).
Proof.
  split_and!.
  - apply Split_nonempty.
  - apply (Split_join _ ","%char).
  - apply Split_no_separator.
  - unfold tokens. induction (Split (Get (Tag f) "rlp") ",") as [|p ps IH];
      constructor; [apply TrimSpace_trims|done].
Qed.

(** C5, as the code has it. The rlp tag is cut at its commas and each
    piece loses the white space at its ends: every tag has pieces and
    tokens so related to it ([tokenized]), and the parser acts on them.
    The tokens "", "-", "nil" and "tail" are the four that are
    recognised. When every token is one of them (a "tail" standing
    where it is allowed) the result has no error and its flags tell
    which of "nil", "tail" and "-" occur, so the empty token sets
    nothing. Otherwise the parse ends at the first token, from the
    left, that is not acceptable: a token of another form gives the
    error that carries this token, the owning type and the name of the
    field; a "tail" that is not allowed gives the placement error, also
    when a token of another form comes after it. A token of another
    form makes the parse fail wherever it stands. The tag "nil" gives
    nilOK alone, the tag "-" gives ignored alone, and the tag "bogus"
    gives the unknown-tag error. *)
Theorem parseStructTag_grammar typ fi f :
  Field typ fi = Some f →
  (∃ pieces toks, tokenized f pieces toks)
  ∧ (∀ pieces toks,
       tokenized f pieces toks →
       (Forall known toks →
        ("tail" ∈ toks → tailAllowed typ fi f) →
        parseStructTag (E:=E) typ fi =
          Some (mkTags (bool_decide ("nil" ∈ toks))
                       (bool_decide ("tail" ∈ toks))
                       (bool_decide ("-" ∈ toks)), None))
       ∧ (∀ pre t post,
            toks = pre ++ t :: post →
            Forall known pre →
            ("tail" ∈ pre → tailAllowed typ fi f) →
            (¬ known t →
             ∃ ts, parseStructTag (E:=E) typ fi =
                     Some (ts, Some (ErrUnknownTag t typ (Name f))))
            ∧ (t = "tail" → ¬ tailAllowed typ fi f →
               ∃ ts, parseStructTag (E:=E) typ fi =
                       Some (ts, Some (placementError typ fi f))))
       ∧ (∀ t, t ∈ toks → ¬ known t →
            ∃ ts e, parseStructTag (E:=E) typ fi = Some (ts, Some e)))
  ∧ (Get (Tag f) "rlp" = "nil" →
     parseStructTag (E:=E) typ fi = Some (mkTags true false false, None))
  ∧ (Get (Tag f) "rlp" = "-" →
     parseStructTag (E:=E) typ fi = Some (mkTags false false true, None))
  ∧ (Get (Tag f) "rlp" = "bogus" →
     parseStructTag (E:=E) typ fi =
       Some (noTags, Some (ErrUnknownTag "bogus" typ (Name f)))).
Proof.
  intros Hf.
  destruct (parseStructTag_on_tokens typ fi f Hf)
    as (Hacc & Hunk & Hany & Hnil & Hminus & Hbogus).
  split_and!; [|intros pieces toks Htok|done..].
  { eexists _, _. apply tokenized_exists. }
  rewrite <- (tokens_spec f pieces toks Htok).
  split_and!; [done| |].
  - intros pre t post Hsplit Hk Ht. split; [by eapply Hunk|].
    intros -> Hbad.
    destruct (Field_NumField _ _ _ Hf) as (n & Hn & Hfi).
    destruct (tokens_split _ _ _ _ Hsplit)
      as (pre' & t' & post' & Hpieces & -> & Ht').
    unfold parseStructTag. rewrite Hf. cbn [mbind option_bind].
    rewrite Hpieces.
    destruct (tagLoop_tail typ fi n f Hn pre' t' post' noTags)
      as (ts & Hts & _); [done| |done| |].
    + intros Hin. by apply Hbad, Ht.
    + intros [-> Hs]. by apply Hbad.
    + exists ts. rewrite Hts. unfold placementError. rewrite Hn.
      destruct (decide (n = S fi)) as [->|Hne'].
      * by rewrite decide_True.
      * rewrite decide_False; [done|]. by intros [= ->].
  - intros t Hin Hu. destruct (Hany t Hin Hu) as (ts & e & Hparse & _).
    by exists ts, e.
Qed.

(** A "tail" that is allowed raises no placement error. *)
Lemma tail_allowed_no_placement_error typ fi f ts e :
  Field typ fi = Some f →
  tailAllowed typ fi f →
  parseStructTag (E:=E) typ fi = Some (ts, Some e) →
  isSyntaxError e.
Proof.
  intros Hf [Hlast Hs] Hparse.
  destruct (Field_NumField _ _ _ Hf) as (n & Hn & Hfi).
  assert (n = S fi) as -> by congruence.
  unfold parseStructTag in Hparse. rewrite Hf in Hparse.
  cbn [mbind option_bind] in Hparse.
  revert Hparse. generalize noTags.
  induction (Split (Get (Tag f) "rlp") ",") as [|p pieces IH]; intros ts0.
  - done.
  - rewrite (tagLoop_cons typ fi (S fi) f Hn). cbv zeta.
    repeat case_decide; try apply IH; try done.
    by intros [= <- <-].
Qed.

(** C4, as the code has it. A tag with a "tail" piece, on a field that
    is followed by an exported field or whose type is not a slice, is
    never accepted: [parseStructTag] returns an error. The error is the
    placement error, unless a piece before the first "tail" is not
    recognised: the loop stops at the first such piece, with the
    unknown-tag error that names it. *)
Theorem tail_placement_rejected typ fi f :
  Field typ fi = Some f →
  "tail" ∈ tokens f →
  ¬ (lastVisible typ fi ∧ kindOf (Type_ f) = Slice) →
  ∃ ts e pre post,
    parseStructTag (E:=E) typ fi = Some (ts, Some e) ∧
    tokens f = pre ++ ("tail" :: post) ∧ ("tail" ∉ pre) ∧
    (Forall known pre →
     e = placementError typ fi f ∧ isPlacementError e) ∧
    (¬ Forall known pre →
     ∃ pre1 t pre2, pre = pre1 ++ t :: pre2 ∧ Forall known pre1 ∧
                    ¬ known t ∧ e = ErrUnknownTag t typ (Name f)).
Proof.
  intros Hf Htail Hbad. apply tail_rejected; [done..|].
  intros [Hlast Hs]. apply Hbad. split; [|done].
  by apply lastVisible_of_last.
Qed.

(** *** What the parser accepts, and what its errors tell *)

Section loop_inversion.
Variables (typ : T) (fi n : nat) (f : StructField T).
Hypothesis Hn : NumField typ = Some n.

(** The loop ends without error only when every piece is recognised and
    a "tail", if any, passed both tests. *)
Lemma tagLoop_accepted pieces ts ts' :
  tagLoop (E:=E) typ fi f pieces ts = Some (ts', None) →
  Forall known (TrimSpace <$> pieces) ∧
  ("tail" ∈ TrimSpace <$> pieces → n = S fi ∧ kindOf (Type_ f) = Slice).
Proof.
  revert ts. induction pieces as [|p pieces IH]; intros ts.
  - intros _. split; [constructor|]. by intros ?%elem_of_nil.
  - rewrite (tagLoop_cons typ fi n f Hn). cbv zeta. rewrite fmap_cons.
    assert (Hstep : ∀ ts1,
              known (TrimSpace p) →
              (TrimSpace p = "tail" → n = S fi ∧ kindOf (Type_ f) = Slice) →
              tagLoop (E:=E) typ fi f pieces ts1 = Some (ts', None) →
              Forall known (TrimSpace p :: (TrimSpace <$> pieces)) ∧
              ("tail" ∈ TrimSpace p :: (TrimSpace <$> pieces) →
               n = S fi ∧ kindOf (Type_ f) = Slice)).
    { intros ts1 Hp Hpt Hl. apply IH in Hl as [Hk Ht].
      split; [by constructor|].
      intros [Heq|Hin]%elem_of_cons; [by apply Hpt|by apply Ht]. }
    unfold known in Hstep.
    repeat case_decide; try done; apply Hstep; try tauto; congruence.
Qed.

(** The loop ends with an error at the first piece that is not
    recognised or is a "tail" failing a test; the error is the one of
    that piece, and the test on the position comes before the test on
    the type. *)
Lemma tagLoop_failed pieces ts ts' e :
  tagLoop (E:=E) typ fi f pieces ts = Some (ts', Some e) →
  ∃ pre t post,
    pieces = pre ++ t :: post ∧
    Forall known (TrimSpace <$> pre) ∧
    ("tail" ∈ TrimSpace <$> pre → n = S fi ∧ kindOf (Type_ f) = Slice) ∧
    ((¬ known (TrimSpace t) ∧ e = ErrUnknownTag (TrimSpace t) typ (Name f))
     ∨ (TrimSpace t = "tail" ∧ n ≠ S fi ∧ e = ErrTailNotLast typ (Name f))
     ∨ (TrimSpace t = "tail" ∧ n = S fi ∧ kindOf (Type_ f) ≠ Slice ∧
        e = ErrTailNotSlice typ (Name f))).
Proof.
  revert ts. induction pieces as [|p pieces IH]; intros ts; [done|].
  rewrite (tagLoop_cons typ fi n f Hn). cbv zeta.
  assert (Hstep : ∀ ts1,
            known (TrimSpace p) →
            (TrimSpace p = "tail" → n = S fi ∧ kindOf (Type_ f) = Slice) →
            tagLoop (E:=E) typ fi f pieces ts1 = Some (ts', Some e) →
            ∃ pre t post,
              p :: pieces = pre ++ t :: post ∧
              Forall known (TrimSpace <$> pre) ∧
              ("tail" ∈ TrimSpace <$> pre →
               n = S fi ∧ kindOf (Type_ f) = Slice) ∧
              ((¬ known (TrimSpace t) ∧
                e = ErrUnknownTag (TrimSpace t) typ (Name f))
               ∨ (TrimSpace t = "tail" ∧ n ≠ S fi ∧
                  e = ErrTailNotLast typ (Name f))
               ∨ (TrimSpace t = "tail" ∧ n = S fi ∧
                  kindOf (Type_ f) ≠ Slice ∧
                  e = ErrTailNotSlice typ (Name f)))).
  { intros ts1 Hp Hpt Hl.
    apply IH in Hl as (pre & t & post & -> & Hk & Ht & Hcase).
    exists (p :: pre), t, post. rewrite fmap_cons.
    split_and!; [done|by constructor| |done].
    intros [Heq|Hin]%elem_of_cons; [by apply Hpt|by apply Ht]. }
  assert (Hnil : "tail" ∈ TrimSpace <$> [] →
                 n = S fi ∧ kindOf (Type_ f) = Slice).
  { by intros ?%elem_of_nil. }
  unfold known in Hstep.
  destruct (decide (TrimSpace p = "")) as [Hp|Hp1];
    [apply Hstep; [tauto|congruence]|].
  destruct (decide (TrimSpace p = "-")) as [Hp|Hp2];
    [apply Hstep; [tauto|congruence]|].
  destruct (decide (TrimSpace p = "nil")) as [Hp|Hp3];
    [apply Hstep; [tauto|congruence]|].
  destruct (decide (TrimSpace p = "tail")) as [Hp|Hp4].
  - destruct (decide (n = S fi)) as [Hlast|Hlast].
    + destruct (decide (kindOf (Type_ f) = Slice)) as [Hs|Hs].
      * apply Hstep; [tauto|done].
      * intros [= <- <-]. exists [], p, pieces.
        split_and!; [done|constructor|done|]. right. by right.
    + intros [= <- <-]. exists [], p, pieces.
      split_and!; [done|constructor|done|]. right. by left.
  - intros [= <- <-]. exists [], p, pieces.
    split_and!; [done|constructor|done|]. left. split; [|done].
    unfold known. tauto.
Qed.

End loop_inversion.

(** Tags returned without error: every piece is recognised, a "tail"
    passed both tests, and each flag tells whether its token occurs. *)
Lemma parseStructTag_accepted typ fi f ts :
  Field typ fi = Some f →
  parseStructTag (E:=E) typ fi = Some (ts, None) →
  Forall known (tokens f)
  ∧ ("tail" ∈ tokens f →
     NumField typ = Some (S fi) ∧ kindOf (Type_ f) = Slice)
  ∧ ts = mkTags (bool_decide ("nil" ∈ tokens f))
                (bool_decide ("tail" ∈ tokens f))
                (bool_decide ("-" ∈ tokens f)).
Proof.
  intros Hf Hparse. destruct (Field_NumField _ _ _ Hf) as (n & Hn & Hfi).
  unfold parseStructTag in Hparse. rewrite Hf in Hparse.
  cbn [mbind option_bind] in Hparse.
  pose proof Hparse as Hacc.
  apply (tagLoop_accepted typ fi n f Hn) in Hacc as [Hk Ht].
  rewrite (tagLoop_known typ fi n f Hn _ _ Hk Ht) in Hparse.
  injection Hparse as <-. split_and!; [done| |done].
  intros Hin. destruct (Ht Hin) as [-> Hs]. by split.
Qed.

(** X4. A field whose tag has no rlp key, or whose rlp value holds only
    commas and white space, gets the zero tags and no error. *)
Theorem blank_tag_sets_nothing typ fi f :
  Field typ fi = Some f →
  Get (Tag f) "rlp" = "" ∨ Forall (λ t, t = "") (tokens f) →
  parseStructTag (E:=E) typ fi = Some (noTags, None).
Proof.
  intros Hf Hblank.
  assert (Hall : Forall (λ t, t = "") (tokens f)).
  { destruct Hblank as [Hg|Hall]; [|done].
    unfold tokens. rewrite Hg. by repeat constructor. }
  destruct (Field_NumField _ _ _ Hf) as (n & Hn & Hfi).
  assert (Hnot : ∀ t, t ≠ "" → t ∉ tokens f).
  { intros t Ht Hin. rewrite Forall_forall in Hall. by apply Hall in Hin. }
  unfold parseStructTag. rewrite Hf. cbn [mbind option_bind].
  rewrite (tagLoop_known typ fi n f Hn).
  - fold (tokens f). simpl.
    by rewrite !bool_decide_eq_false_2 by (by apply Hnot).
  - eapply Forall_impl; [exact Hall|]. intros t ->. by left.
  - intros Hin. by apply Hnot in Hin.
Qed.

(** X5. [parseStructTag] panics exactly when [typ.Field(fi)] does: the type
    is not a struct, or it has no field of index [fi]. On a field that
    exists it returns. *)
Theorem parseStructTag_panics_iff typ fi :
  parseStructTag (E:=E) typ fi = None ↔
  kindOf typ ≠ Struct ∨ length (fieldsOf typ) ≤ fi.
Proof.
  split.
  - intros Hparse.
    destruct (decide (kindOf typ = Struct)) as [Hk|Hk]; [right|by left].
    destruct (fieldsOf typ !! fi) as [f|] eqn:Hf.
    + assert (Hf' : Field typ fi = Some f).
      { unfold Field. by rewrite decide_True. }
      destruct (parseStructTag_returns typ fi f Hf') as (ts & e & Hr).
      congruence.
    + by apply lookup_ge_None in Hf.
  - intros Hbad. unfold parseStructTag, Field.
    destruct Hbad as [Hk|Hlen].
    + by rewrite decide_False.
    + case_decide; [|done]. apply lookup_ge_None in Hlen.
      by rewrite Hlen.
Qed.

(** X6. The tags are accepted exactly when every piece is one of the four
    forms and a "tail", if there is one, stands on the last declared
    field and this field is a slice. *)
Theorem parseStructTag_accepts_iff typ fi f :
  Field typ fi = Some f →
  (∃ ts, parseStructTag (E:=E) typ fi = Some (ts, None)) ↔
  Forall known (tokens f) ∧ ("tail" ∈ tokens f → tailAllowed typ fi f).
Proof.
  intros Hf. destruct (Field_NumField _ _ _ Hf) as (n & Hn & Hfi).
  unfold parseStructTag. rewrite Hf. cbn [mbind option_bind]. split.
  - intros [ts Hl].
    apply (tagLoop_accepted typ fi n f Hn) in Hl as [Hk Ht].
    split; [done|]. intros Hin. destruct (Ht Hin) as [-> Hs].
    by split.
  - intros [Hk Ht]. eexists.
    apply (tagLoop_known typ fi n f Hn); [done|].
    intros Hin. destruct (Ht Hin) as [Hl Hs]. split; [congruence|done].
Qed.

(** X7. The invariant of the field [tail] of [tags]: in tags returned
    without error, [tail] is set only for the last declared field of
    the struct, whose type is a slice, and then no exported field
    follows it. Each flag is set exactly when its token occurs. *)
Theorem tail_only_on_last_slice typ fi f ts :
  Field typ fi = Some f →
  parseStructTag (E:=E) typ fi = Some (ts, None) →
  (tail ts = true →
   NumField typ = Some (S fi) ∧ kindOf (Type_ f) = Slice ∧
   lastVisible typ fi)
  ∧ (tail ts = true ↔ "tail" ∈ tokens f)
  ∧ (nilOK ts = true ↔ "nil" ∈ tokens f)
  ∧ (ignored ts = true ↔ "-" ∈ tokens f).
Proof.
  intros Hf Hparse. destruct (Field_NumField _ _ _ Hf) as (n & Hn & Hfi).
  unfold parseStructTag in Hparse. rewrite Hf in Hparse.
  cbn [mbind option_bind] in Hparse.
  pose proof Hparse as Hacc.
  apply (tagLoop_accepted typ fi n f Hn) in Hacc as [Hk Ht].
  rewrite (tagLoop_known typ fi n f Hn _ _ Hk Ht) in Hparse.
  injection Hparse as <-. fold (tokens f) in *. simpl.
  rewrite !bool_decide_eq_true. split_and!; [|done..].
  intros Hin. destruct (Ht Hin) as [-> Hs].
  split_and!; [done..|]. by apply lastVisible_of_last.
Qed.

(** X8. An error of [parseStructTag] is the error of the first piece, from
    the left, that is not recognised or is a "tail" failing a test:
    the unknown-tag error with this piece, or the error of the failed
    test, the test on the position first. It carries the type and the
    name of the field. *)
Theorem parseStructTag_first_error typ fi f ts e :
  Field typ fi = Some f →
  parseStructTag (E:=E) typ fi = Some (ts, Some e) →
  ∃ pre t post,
    tokens f = pre ++ t :: post ∧
    Forall known pre ∧
    ("tail" ∈ pre → tailAllowed typ fi f) ∧
    ((¬ known t ∧ e = ErrUnknownTag t typ (Name f))
     ∨ (t = "tail" ∧ NumField typ ≠ Some (S fi) ∧
        e = ErrTailNotLast typ (Name f))
     ∨ (t = "tail" ∧ NumField typ = Some (S fi) ∧
        kindOf (Type_ f) ≠ Slice ∧ e = ErrTailNotSlice typ (Name f))).
Proof.
  intros Hf Hparse. destruct (Field_NumField _ _ _ Hf) as (n & Hn & Hfi).
  unfold parseStructTag in Hparse. rewrite Hf in Hparse.
  cbn [mbind option_bind] in Hparse.
  destruct (tagLoop_failed typ fi n f Hn _ _ _ _ Hparse)
    as (pre & t & post & Hsplit & Hk & Ht & Hcase).
  exists (TrimSpace <$> pre), (TrimSpace t), (TrimSpace <$> post).
  split_and!.
  - unfold tokens. by rewrite Hsplit, fmap_app, fmap_cons.
  - done.
  - intros Hin. destruct (Ht Hin) as [-> Hs]. by split.
  - destruct Hcase as [?|[(Htl & Hne & ->)|(Htl & -> & Hs & ->)]].
    + by left.
    + right; left. split_and!; [done| |done]. rewrite Hn. congruence.
    + right; right. by split_and!.
Qed.

End parse_facts.

(** ** The cache: what every call leaves in place *)

Section cache_facts.
Context {T : Type} `{ReflectType T} {E D W : Type}.

Local Abbreviation typekey := (T * tags)%type.
Local Abbreviation result := (result T E).
Local Abbreviation prog := (prog T E).
Local Abbreviation typeinfo := (typeinfo D W).
Local Abbreviation state := (state (T:=T) (D:=D) (W:=W)).
Local Abbreviation vars := (vars (T:=T) (D:=D) (W:=W)).
Local Abbreviation resolver := (resolver (T:=T) (E:=E) (D:=D) (W:=W)).

Variable makeDecoder : T → tags → prog D.
Variable makeWriter : T → tags → prog W.

Lemma genTypeInfo_eq rec typ ts s :
  genTypeInfo makeDecoder makeWriter rec typ ts s =
    bind (run rec (makeDecoder typ ts) s) (λ r s,
      match r with
      | Err err => Returned (Err err) s
      | Ok dec =>
          bind (run rec (makeWriter typ ts) s) (λ r s,
            match r with
            | Err err => Returned (Err err) s
            | Ok wr => Returned (Ok (mkTypeinfo (Some dec) (Some wr))) s
            end)
      end).
Proof. reflexivity. Qed.

(** [cachedTypeInfo] on a key that is cached: when the write lock is
    free it returns the record, and the variables are as before. *)
Lemma cachedTypeInfo_hit fuel typ ts (v : vars) p :
  locked (typeCacheMutex v) = false →
  typeCache (cache v) !! (typ, ts) = Some p →
  cachedTypeInfo makeDecoder makeWriter fuel typ ts v = Returned (Ok p) v.
Proof.
  destruct v as [[n w] s]. simpl. intros -> Hp.
  unfold cachedTypeInfo, onMutex, RLock, RUnlock. simpl. by rewrite Hp.
Qed.

(** [cachedTypeInfo] on a key that is not cached: when no lock is held it
    is [cachedTypeInfo1], and it leaves no lock held. *)
Lemma cachedTypeInfo_miss fuel typ ts (v : vars) :
  typeCacheMutex v = free →
  typeCache (cache v) !! (typ, ts) = None →
  cachedTypeInfo makeDecoder makeWriter fuel typ ts v =
    onCache (cachedTypeInfo1 makeDecoder makeWriter fuel typ ts) v.
Proof.
  destruct v as [m s]. simpl. intros -> Hk.
  unfold cachedTypeInfo, onMutex, onCache, RLock, RUnlock, Lock. simpl.
  rewrite Hk. simpl.
  by destruct (cachedTypeInfo1 makeDecoder makeWriter fuel typ ts s).
Qed.

(** While the write lock is held [cachedTypeInfo] waits: the calls made
    during a derivation go to [cachedTypeInfo1]. *)
Lemma cachedTypeInfo_locked fuel typ ts (v : vars) :
  locked (typeCacheMutex v) = true →
  cachedTypeInfo makeDecoder makeWriter fuel typ ts v = Blocked.
Proof.
  destruct v as [[n w] s]. simpl. intros ->.
  by unfold cachedTypeInfo, onMutex, RLock.
Qed.

(** A call of [cachedTypeInfo] that returns found the write lock free,
    leaves the mutex as it found it, and either found the key cached or
    found no lock held and returns what [cachedTypeInfo1] does. *)
Lemma cachedTypeInfo_returned fuel typ ts (v : vars) r v' :
  cachedTypeInfo makeDecoder makeWriter fuel typ ts v = Returned r v' →
  typeCacheMutex v' = typeCacheMutex v ∧
  locked (typeCacheMutex v) = false ∧
  match typeCache (cache v) !! (typ, ts) with
  | Some p => r = Ok p ∧ cache v' = cache v
  | None =>
      readerCount (typeCacheMutex v) = 0 ∧
      cachedTypeInfo1 makeDecoder makeWriter fuel typ ts (cache v)
        = Returned r (cache v')
  end.
Proof.
  destruct v as [[n w] s].
  unfold cachedTypeInfo, onMutex, onCache, RLock, RUnlock, Lock, Unlock.
  simpl. destruct w; [done|]. simpl.
  destruct (typeCache s !! (typ, ts)) as [p|] eqn:Hk.
  - by intros [= <- <-].
  - destruct n as [|n]; [|done]. simpl.
    destruct (cachedTypeInfo1 makeDecoder makeWriter fuel typ ts s)
      as [r1 s1| | |]; [|done..].
    simpl. by intros [= <- <-].
Qed.

Local Abbreviation genTypeInfo := (genTypeInfo makeDecoder makeWriter).
Local Abbreviation cachedTypeInfo1 := (cachedTypeInfo1 makeDecoder makeWriter).
Local Abbreviation cachedTypeInfo := (cachedTypeInfo makeDecoder makeWriter).
Local Abbreviation finish := (finish (T:=T) (E:=E) (D:=D) (W:=W)).
Local Abbreviation parseStructTag := (parseStructTag (T:=T) (E:=E)).
Local Abbreviation closed := (closed makeDecoder makeWriter).
Local Abbreviation call := (call makeDecoder makeWriter).
Local Abbreviation later := (later makeDecoder makeWriter).
Local Abbreviation fieldsIn := (fieldsIn (E:=E)).
Local Abbreviation enumerated := (enumerated (E:=E)).
Local Abbreviation describes := (describes (E:=E)).
Local Abbreviation filled := (filled (D:=D) (W:=W)).
Local Abbreviation event_ok := (event_ok (T:=T) (D:=D) (W:=W)).
Local Abbreviation extends := (extends (T:=T) (D:=D) (W:=W)).
Local Abbreviation sound := (sound (T:=T) (E:=E) (D:=D) (W:=W)).
Local Abbreviation begin := (begin (T:=T) (D:=D) (W:=W)).
Local Abbreviation fill := (fill (T:=T) (D:=D) (W:=W)).
Local Abbreviation rollback := (rollback (T:=T) (D:=D) (W:=W)).
Local Abbreviation missing := (missing (T:=T) (D:=D) (W:=W)).
Local Abbreviation total := (total (T:=T) (E:=E) (D:=D) (W:=W)).

Lemma extends_lookup s s' k p :
  extends s s' → typeCache s !! k = Some p → typeCache s' !! k = Some p.
Proof. intros [Hc _ _] Hk. by eapply lookup_weaken. Qed.

Lemma extends_lookup_None s s' k :
  extends s s' → typeCache s' !! k = None → typeCache s !! k = None.
Proof.
  intros Hext Hk. destruct (typeCache s !! k) as [p|] eqn:Hp; [|done].
  by rewrite (extends_lookup _ _ _ _ Hext Hp) in Hk.
Qed.

Lemma extends_heap_lookup s s' p x :
  extends s s' → heap s !! p = Some x → heap s' !! p = Some x.
Proof. intros [_ Hh _] Hp. by eapply prefix_lookup_Some. Qed.

Lemma extends_heap_length s s' :
  extends s s' → length (heap s) ≤ length (heap s').
Proof. intros [_ Hh _]. by apply prefix_length. Qed.

Lemma extends_filled s s' p :
  extends s s' → filled (heap s) p → filled (heap s') p.
Proof.
  intros Hext (d & w & Hp). exists d, w. by eapply extends_heap_lookup.
Qed.

Lemma event_ok_weaken s0 s s' s'' ev :
  extends s0 s → extends s' s'' → event_ok s s' ev → event_ok s0 s'' ev.
Proof.
  intros Ha Hb. destruct ev as [k|k p|typ i]; simpl; [| |done].
  - by apply extends_lookup_None.
  - intros (Hk & Hp & Hkp & Hf). split_and!.
    + by eapply extends_lookup_None.
    + pose proof (extends_heap_length _ _ Ha). lia.
    + by eapply extends_lookup.
    + by eapply extends_filled.
Qed.

Global Instance extends_refl : Reflexive extends.
Proof.
  intros s. split; [done|done|]. exists []. by rewrite app_nil_r.
Qed.

Global Instance extends_trans : Transitive extends.
Proof.
  intros s1 s2 s3 H12 H23.
  destruct (ext_history _ _ H12) as (l1 & Hl1 & Hok1).
  destruct (ext_history _ _ H23) as (l2 & Hl2 & Hok2).
  split.
  - etrans; [apply H12|apply H23].
  - etrans; [apply H12|apply H23].
  - exists (l1 ++ l2). split; [by rewrite Hl2, Hl1, app_assoc|].
    apply Forall_app. split.
    + eapply Forall_impl; [exact Hok1|]. intros ev.
      by apply event_ok_weaken.
    + eapply Forall_impl; [exact Hok2|]. intros ev.
      by apply event_ok_weaken.
Qed.

Lemma extends_record_parse s typ i :
  exported typ i → extends s (record (ParseStructTag typ i) s).
Proof.
  intros Hex. split; [done|done|]. exists [ParseStructTag typ i].
  split; [done|]. by apply Forall_singleton.
Qed.

Section sound_resolver.
Variable rec : resolver.
Hypothesis Hrec : sound rec.

Lemma structFieldsLoop_extends typ todo i fields s r s' :
  structFieldsLoop rec typ todo i fields s = Returned r s' →
  extends s s'.
Proof.
  revert i fields s. induction todo as [|todo IH]; intros i fields s.
  - simpl. by intros [= <- <-].
  - simpl. destruct (Field typ i) as [f|] eqn:Hf; [|done].
    case_decide as Hp; [|by apply IH].
    assert (Hs : extends s (record (ParseStructTag typ i) s)).
    { apply extends_record_parse. by exists f. }
    destruct (parseStructTag typ i) as [[ts [err|]]|]; [| |done].
    + by intros [= <- <-].
    + destruct (ignored ts).
      * intros Hl. etrans; [exact Hs|]. by eapply IH.
      * destruct (rec _ _ _) as [[info|err] s1| | |] eqn:Hr; simpl;
          [| |done..].
        -- intros Hl. etrans; [exact Hs|].
           etrans; [by eapply Hrec|]. by eapply IH.
        -- intros [= <- <-]. etrans; [exact Hs|]. by eapply Hrec.
Qed.

Lemma structFields_extends typ s r s' :
  structFields rec typ s = Returned r s' → extends s s'.
Proof.
  unfold structFields. destruct (NumField typ); [|done].
  apply structFieldsLoop_extends.
Qed.

Lemma run_extends {A} (p : prog A) s r s' :
  run rec p s = Returned r s' → extends s s'.
Proof.
  revert s. induction p as [r0|typ ts k IH|typ k IH]; intros s; simpl.
  - by intros [= <- <-].
  - destruct (rec typ ts s) as [r1 s1| | |] eqn:Hr; simpl; [|done..].
    intros Hk. etrans; [by eapply Hrec|]. by eapply IH.
  - destruct (structFields rec typ s) as [r1 s1| | |] eqn:Hr; simpl;
      [|done..].
    intros Hk. etrans; [by eapply structFields_extends|]. by eapply IH.
Qed.

Lemma genTypeInfo_extends typ ts s r s' :
  genTypeInfo rec typ ts s = Returned r s' →
  extends s s' ∧
  ∀ info, r = Ok info → ∃ d w, info = mkTypeinfo (Some d) (Some w).
Proof.
  rewrite genTypeInfo_eq.
  destruct (run rec (makeDecoder typ ts) s) as [[d|err] s1| | |] eqn:Hd;
    simpl; [| |done..].
  - destruct (run rec (makeWriter typ ts) s1) as [[w|err] s2| | |] eqn:Hw;
      simpl; [| |done..].
    + intros [= <- <-]. split.
      * etrans; by eapply run_extends.
      * intros info [= <-]. by eauto.
    + intros [= <- <-]. split; [|done]. etrans; by eapply run_extends.
  - intros [= <- <-]. split; [|done]. by eapply run_extends.
Qed.

End sound_resolver.

(** *** One call of [cachedTypeInfo1] *)

Lemma cachedTypeInfo1_hit fuel typ ts s p :
  typeCache s !! (typ, ts) = Some p →
  cachedTypeInfo1 fuel typ ts s = Returned (Ok p) s.
Proof. intros Hp. destruct fuel; simpl; by rewrite Hp. Qed.

Lemma cachedTypeInfo1_miss fuel typ ts s :
  typeCache s !! (typ, ts) = None →
  cachedTypeInfo1 (S fuel) typ ts s =
    bind (genTypeInfo (cachedTypeInfo1 fuel) typ ts (begin (typ, ts) s))
         (finish (typ, ts)).
Proof. intros Hp. simpl. by rewrite Hp. Qed.

Lemma begin_lookup key s :
  typeCache (begin key s) !! key = Some (length (heap s)).
Proof. simpl. apply lookup_insert_eq. Qed.

Lemma begin_heap key s :
  heap (begin key s) !! length (heap s) = Some (mkTypeinfo None None).
Proof. simpl. by rewrite lookup_app_r, Nat.sub_diag. Qed.

Lemma extends_begin key s :
  typeCache s !! key = None → extends s (begin key s).
Proof.
  intros Hk. split; simpl.
  - by apply insert_subseteq.
  - by apply prefix_app_r.
  - exists [GenTypeInfo key]. split; [done|]. by apply Forall_singleton.
Qed.

Lemma finish_Ok key s s2 info :
  extends (begin key s) s2 →
  finish key (Ok info) s2 =
    Returned (Ok (length (heap s))) (fill key (length (heap s)) info s2).
Proof.
  intros Hext. simpl.
  by rewrite (extends_lookup _ _ _ _ Hext (begin_lookup key s)).
Qed.

Lemma finish_Err key s2 err :
  finish key (Err err) s2 = Returned (Err err) (rollback key s2).
Proof. done. Qed.

Lemma extends_fill key s s2 d w :
  typeCache s !! key = None →
  extends (begin key s) s2 →
  extends s (fill key (length (heap s)) (mkTypeinfo (Some d) (Some w)) s2).
Proof.
  intros Hk Hext. set (p := length (heap s)).
  pose proof (extends_begin key s Hk) as Hb.
  assert (Hs2 : extends s s2) by (by etrans).
  assert (Hlen : p < length (heap s2)).
  { pose proof (extends_heap_length _ _ Hext) as Hl. simpl in Hl.
    rewrite length_app in Hl. simpl in Hl. unfold p. lia. }
  destruct (ext_history _ _ Hs2) as (l & Hl & Hok).
  split; simpl.
  - apply Hs2.
  - destruct (ext_heap _ _ Hs2) as [h Hh]. rewrite Hh.
    unfold p. rewrite insert_app_r_alt, Nat.sub_diag by lia.
    by apply prefix_app_r.
  - exists (l ++ [Filled key p]). split; [by rewrite Hl, app_assoc|].
    apply Forall_app. split.
    + destruct (ext_history _ _ Hext) as (l2 & Hl2 & Hok2).
      assert (l = GenTypeInfo key :: l2) as ->.
      { simpl in Hl2. rewrite <- app_assoc in Hl2. rewrite Hl in Hl2.
        by apply app_inv_head in Hl2. }
      apply Forall_cons. split; [done|].
      eapply Forall_impl; [exact Hok2|]. intros ev.
      destruct ev as [k|k q|typ i]; simpl; [| |done].
      * intros Hn. exact (extends_lookup_None _ (begin key s) _ Hb Hn).
      * intros (Hn & Hq & Hkq & (d' & w' & Hf)). split_and!.
        -- exact (extends_lookup_None _ (begin key s) _ Hb Hn).
        -- rewrite length_app in Hq. lia.
        -- done.
        -- exists d', w'. rewrite list_lookup_insert_ne; [done|].
           rewrite length_app in Hq. simpl in Hq. unfold p. lia.
    + apply Forall_singleton. simpl. split_and!; [done|done| |].
      * by apply (extends_lookup _ _ _ _ Hext), begin_lookup.
      * exists d, w. by apply list_lookup_insert_eq.
Qed.

Lemma extends_rollback key s s2 :
  typeCache s !! key = None →
  extends (begin key s) s2 →
  extends s (rollback key s2).
Proof.
  intros Hk Hext.
  pose proof (extends_begin key s Hk) as Hb.
  assert (Hs2 : extends s s2) by (by etrans).
  destruct (ext_history _ _ Hs2) as (l & Hl & Hok).
  split; simpl.
  - apply map_subseteq_spec. intros k p Hkp.
    rewrite lookup_delete_ne by congruence.
    by eapply extends_lookup.
  - apply Hs2.
  - exists l. split; [done|].
    destruct (ext_history _ _ Hext) as (l2 & Hl2 & Hok2).
    assert (l = GenTypeInfo key :: l2) as ->.
    { simpl in Hl2. rewrite <- app_assoc in Hl2. rewrite Hl in Hl2.
      by apply app_inv_head in Hl2. }
    apply Forall_cons. split; [done|].
    eapply Forall_impl; [exact Hok2|]. intros ev.
    destruct ev as [k|k q|typ i]; simpl; [| |done].
    + intros Hn. exact (extends_lookup_None _ (begin key s) _ Hb Hn).
    + intros (Hn & Hq & Hkq & Hf). split_and!.
      * exact (extends_lookup_None _ (begin key s) _ Hb Hn).
      * rewrite length_app in Hq. lia.
      * rewrite lookup_delete_ne; [done|]. intros <-.
        by rewrite lookup_insert_eq in Hn.
      * done.
Qed.

Lemma cachedTypeInfo1_sound fuel : sound (cachedTypeInfo1 fuel).
Proof.
  induction fuel as [|fuel IH]; intros typ ts s r s'.
  - simpl. destruct (typeCache s !! (typ, ts)) eqn:Hk; [|done].
    intros [= <- <-]. split; [done|]. by intros p [= <-].
  - destruct (typeCache s !! (typ, ts)) as [p|] eqn:Hk.
    + rewrite (cachedTypeInfo1_hit _ _ _ _ _ Hk). intros [= <- <-].
      split; [done|]. by intros ? [= <-].
    + rewrite (cachedTypeInfo1_miss _ _ _ _ Hk).
      destruct (genTypeInfo _ typ ts _) as [r2 s2| | |] eqn:Hg; [|done..].
      apply (genTypeInfo_extends _ IH) in Hg as [Hext Hinfo]. simpl.
      destruct r2 as [info|err].
      * destruct (Hinfo _ eq_refl) as (d & w & ->).
        rewrite (finish_Ok _ _ _ _ Hext). intros [= <- <-]. split.
        -- by apply extends_fill.
        -- intros p [= <-]. simpl.
           by apply (extends_lookup _ _ _ _ Hext), begin_lookup.
      * rewrite finish_Err. intros [= <- <-]. split; [|done].
        by apply extends_rollback.
Qed.

(** What [cachedTypeInfo1_sound] tells of [cachedTypeInfo1] holds of
    [cachedTypeInfo], which also leaves the mutex as it was. *)
Lemma cachedTypeInfo_sound fuel typ ts (v : vars) r v' :
  cachedTypeInfo fuel typ ts v = Returned r v' →
  extends (cache v) (cache v') ∧
  typeCacheMutex v' = typeCacheMutex v ∧
  locked (typeCacheMutex v) = false ∧
  ∀ p, r = Ok p → typeCache (cache v') !! (typ, ts) = Some p.
Proof.
  intros Hr. apply cachedTypeInfo_returned in Hr as (Hm & Hw & Hr).
  destruct (typeCache (cache v) !! (typ, ts)) as [p|] eqn:Hk.
  - destruct Hr as [-> Hc]. rewrite Hc. split_and!; [done..|].
    by intros ? [= <-].
  - destruct Hr as [_ Hr].
    destruct (cachedTypeInfo1_sound _ _ _ _ _ _ Hr) as [Hext Hp].
    by split_and!.
Qed.

(** *** Termination *)

Section universe.
Variable U : gset typekey.

Lemma missing_extends s s' : extends s s' → missing U s' ≤ missing U s.
Proof.
  intros Hext. unfold missing.
  apply (subseteq_size (U ∖ dom (typeCache s')) (U ∖ dom (typeCache s))).
  pose proof (subseteq_dom _ _ (ext_cache _ _ Hext)) as Hdom.
  intros k. rewrite !elem_of_difference. intros [HU Hk]. split; [done|].
  intros Hin. by apply Hk, Hdom.
Qed.

Lemma missing_begin key s :
  key ∈ U → typeCache s !! key = None →
  missing U (begin key s) < missing U s.
Proof.
  intros HU Hk. unfold missing.
  apply (subset_size (U ∖ dom (typeCache (begin key s)))
                     (U ∖ dom (typeCache s))).
  simpl. rewrite dom_insert_L. apply not_elem_of_dom in Hk. split.
  - intros k. rewrite !elem_of_difference, elem_of_union.
    intros [Hin Hn]. split; [done|]. intros Hd. apply Hn. by right.
  - intros Hsub. specialize (Hsub key).
    rewrite !elem_of_difference, elem_of_union, elem_of_singleton in Hsub.
    destruct Hsub as [_ Hn]; [done|]. apply Hn. by left.
Qed.

Section total_resolver.
Variables (ok : bool) (rec : resolver) (m : nat).
Hypothesis Hsound : sound rec.
Hypothesis Htotal : total U ok rec m.

Lemma structFieldsLoop_returns typ todo i fields s :
  fieldsIn U ok typ →
  i + todo ≤ length (fieldsOf typ) →
  missing U s ≤ m →
  ∃ r s', structFieldsLoop rec typ todo i fields s = Returned r s'
          ∧ allowed ok r.
Proof.
  intros [Hkind Hin]. revert i fields s.
  induction todo as [|todo IH]; intros i fields s Hi Hm.
  - simpl. eexists _, _. split; [done|]. destruct ok; simpl; eauto.
  - simpl. unfold Field at 1. rewrite decide_True by done.
    destruct (lookup_lt_is_Some_2 (fieldsOf typ) i) as [f Hf]; [lia|].
    rewrite Hf.
    assert (Hf' : Field typ i = Some f).
    { unfold Field. by rewrite decide_True. }
    case_decide as Hp; [|apply IH; [lia|done]].
    destruct (parseStructTag_returns (E:=E) typ i f Hf')
      as (ts & e & Hparse).
    rewrite Hparse.
    destruct (Hin i f ts e Hf' Hp Hparse) as [Hok HU].
    assert (Hs : extends s (record (ParseStructTag typ i) s)).
    { apply extends_record_parse. by exists f. }
    pose proof (missing_extends _ _ Hs) as Hm1.
    destruct e as [err|].
    { destruct ok; [by specialize (Hok eq_refl)|].
      by eexists _, _. }
    destruct (ignored ts) eqn:Hig; [apply IH; [lia|lia]|].
    destruct (Htotal (Type_ f) ts (record (ParseStructTag typ i) s))
      as (r & s1 & Hr & Hall); [by apply HU|lia|].
    rewrite Hr. simpl.
    destruct (Hsound _ _ _ _ _ Hr) as [Hext _].
    pose proof (missing_extends _ _ Hext) as Hm2.
    destruct r as [info|err].
    + apply IH; [lia|lia].
    + destruct ok; [by destruct Hall|]. by eexists _, _.
Qed.

Lemma structFields_returns typ s :
  fieldsIn U ok typ → missing U s ≤ m →
  ∃ r s', structFields rec typ s = Returned r s' ∧ allowed ok r.
Proof.
  intros Hin Hm. unfold structFields, NumField.
  rewrite decide_True by apply Hin.
  by apply structFieldsLoop_returns.
Qed.

Lemma run_returns {A} (p : prog A) s :
  progIn U ok p → missing U s ≤ m →
  ∃ r s', run rec p s = Returned r s' ∧ allowed ok r.
Proof.
  intros Hp. revert s.
  induction Hp as [r Hr|typ ts k HU Hk IH|typ k Hin Hk IH];
    intros s Hm; simpl.
  - by eexists _, _.
  - destruct (Htotal typ ts s HU Hm) as (r & s1 & Hr & Hall).
    rewrite Hr. simpl. apply IH; [done|].
    destruct (Hsound _ _ _ _ _ Hr) as [Hext _].
    pose proof (missing_extends _ _ Hext). lia.
  - destruct (structFields_returns typ s Hin Hm)
      as (r & s1 & Hr & Hall).
    rewrite Hr. simpl. apply IH; [done|].
    pose proof (missing_extends _ _
                  (structFields_extends _ Hsound _ _ _ _ Hr)). lia.
Qed.

Lemma genTypeInfo_returns typ ts s :
  closed U ok → (typ, ts) ∈ U → missing U s ≤ m →
  ∃ r s', genTypeInfo rec typ ts s = Returned r s' ∧ allowed ok r.
Proof.
  intros Hclosed HU Hm. destruct (Hclosed typ ts HU) as [Hd Hw].
  rewrite genTypeInfo_eq.
  destruct (run_returns _ s Hd Hm) as (r & s1 & Hr & Hall).
  rewrite Hr. simpl.
  pose proof (missing_extends _ _ (run_extends _ Hsound _ _ _ _ Hr)).
  destruct r as [d|err].
  - destruct (run_returns _ s1 Hw) as (r2 & s2 & Hr2 & Hall2); [lia|].
    rewrite Hr2. simpl. destruct r2 as [w|err].
    + eexists _, _. split; [done|]. destruct ok; simpl; eauto.
    + destruct ok; [by destruct Hall2|]. by eexists _, _.
  - destruct ok; [by destruct Hall|]. by eexists _, _.
Qed.

End total_resolver.

(** With fuel for every key of [U] that is not cached yet,
    [cachedTypeInfo1] returns. *)
Lemma cachedTypeInfo1_total ok fuel :
  closed U ok → total U ok (cachedTypeInfo1 fuel) fuel.
Proof.
  intros Hclosed. induction fuel as [|fuel IH]; intros typ ts s HU Hm.
  - destruct (typeCache s !! (typ, ts)) as [p|] eqn:Hk.
    + rewrite (cachedTypeInfo1_hit _ _ _ _ _ Hk). eexists _, _.
      split; [done|]. destruct ok; simpl; eauto.
    + pose proof (missing_begin _ _ HU Hk). lia.
  - destruct (typeCache s !! (typ, ts)) as [p|] eqn:Hk.
    + rewrite (cachedTypeInfo1_hit _ _ _ _ _ Hk). eexists _, _.
      split; [done|]. destruct ok; simpl; eauto.
    + rewrite (cachedTypeInfo1_miss _ _ _ _ Hk).
      pose proof (missing_begin _ _ HU Hk) as Hlt.
      destruct (genTypeInfo_returns ok _ fuel
                  (cachedTypeInfo1_sound fuel) IH typ ts
                  (begin (typ, ts) s) Hclosed HU)
        as (r & s2 & Hg & Hall); [lia|].
      rewrite Hg. simpl.
      apply (genTypeInfo_extends _ (cachedTypeInfo1_sound fuel))
        in Hg as [Hext Hinfo].
      destruct r as [info|err].
      * rewrite (finish_Ok _ _ _ _ Hext). eexists _, _.
        split; [done|]. destruct ok; simpl; eauto.
      * rewrite finish_Err. destruct ok; [by destruct Hall|].
        by eexists _, _.
Qed.

End universe.

(** *** Later states *)

Lemma later_extends (v v' : vars) :
  later v v' →
  extends (cache v) (cache v') ∧ typeCacheMutex v' = typeCacheMutex v.
Proof.
  induction 1 as [v|v v1 v2 (fuel & typ & ts & r & Hc) _ [IH1 IH2]];
    [done|].
  destruct (cachedTypeInfo_sound _ _ _ _ _ _ Hc) as (Hext & Hm & _).
  split; [by etrans|congruence].
Qed.

(** A call that misses the cache runs the generator for its key once:
    the generator is entered, and not entered again for the same key
    before the call returns. *)
Lemma cachedTypeInfo1_once fuel typ ts s r s' :
  typeCache s !! (typ, ts) = None →
  cachedTypeInfo1 fuel typ ts s = Returned r s' →
  ∃ l, history s' = history s ++ GenTypeInfo (typ, ts) :: l
       ∧ GenTypeInfo (typ, ts) ∉ l.
Proof.
  intros Hk. destruct fuel as [|fuel]; [simpl; by rewrite Hk|].
  rewrite (cachedTypeInfo1_miss _ _ _ _ Hk).
  destruct (genTypeInfo _ typ ts _) as [r2 s2| | |] eqn:Hg; [|done..].
  apply (genTypeInfo_extends _ (cachedTypeInfo1_sound fuel))
    in Hg as [Hext Hinfo].
  destruct (ext_history _ _ Hext) as (l & Hl & Hok).
  assert (Hnot : GenTypeInfo (typ, ts) ∉ l).
  { intros Hin. rewrite Forall_forall in Hok. apply Hok in Hin.
    simpl in Hin. by rewrite lookup_insert_eq in Hin. }
  simpl in Hl. rewrite <- app_assoc in Hl. simpl in Hl.
  cbn [bind]. destruct r2 as [info|err].
  - rewrite (finish_Ok _ _ _ _ Hext). intros [= <- <-].
    exists (l ++ [Filled (typ, ts) (length (heap s))]). simpl.
    rewrite Hl, <- app_assoc. split; [done|].
    rewrite not_elem_of_app. split; [done|].
    by rewrite list_elem_of_singleton.
  - intros [= <- <-]. by exists l.
Qed.

(** *** The field enumerator *)

Lemma describes_extends typ s s' fd :
  extends s s' → describes typ s fd → describes typ s' fd.
Proof.
  intros Hext (f & ts & ? & ? & ? & ? & Hk). exists f, ts.
  split_and!; try done. by eapply extends_lookup.
Qed.

Section enumerate.
Variable rec : resolver.

Lemma structFieldsLoop_index typ todo i fields s fields' s' :
  structFieldsLoop rec typ todo i fields s = Returned (Ok fields') s' →
  index <$> fields' =
    (index <$> fields) ++ filter (λ j, enumerated typ j) (seq i todo).
Proof.
  revert i fields s. induction todo as [|todo IH]; intros i fields s.
  - simpl. intros [= <- <-]. by rewrite app_nil_r.
  - cbn [structFieldsLoop seq].
    destruct (Field typ i) as [f|] eqn:Hf; [|done].
    case_decide as Hp.
    + destruct (parseStructTag typ i) as [[ts [err|]]|] eqn:Hparse;
        [done| |done].
      destruct (ignored ts) eqn:Hig.
      * intros Hl. rewrite (IH _ _ _ Hl).
        rewrite filter_cons_False; [done|].
        unfold enumerated. rewrite Hf, Hparse, Hig. simpl.
        rewrite andb_false_r. by intros [].
      * destruct (rec _ _ _) as [[p|err] s1| | |]; cbn [bind]; [|done..].
        intros Hl. rewrite (IH _ _ _ Hl), fmap_app.
        rewrite filter_cons_True; [by rewrite <- app_assoc|].
        unfold enumerated. rewrite Hf, Hparse, Hig.
        by rewrite bool_decide_eq_true_2.
    + intros Hl. rewrite (IH _ _ _ Hl).
      rewrite filter_cons_False; [done|].
      unfold enumerated. rewrite Hf.
      rewrite bool_decide_eq_false_2 by done. by intros [].
Qed.

Lemma structFieldsLoop_describes typ todo i fields s fields' s' :
  sound rec →
  structFieldsLoop rec typ todo i fields s = Returned (Ok fields') s' →
  Forall (describes typ s) fields →
  Forall (describes typ s') fields'.
Proof.
  intros Hrec. revert i fields s.
  induction todo as [|todo IH]; intros i fields s.
  - simpl. by intros [= <- <-].
  - simpl. destruct (Field typ i) as [f|] eqn:Hf; [|done].
    case_decide as Hp; [|by apply IH].
    assert (Hs : extends s (record (ParseStructTag typ i) s)).
    { apply extends_record_parse. by exists f. }
    destruct (parseStructTag typ i) as [[ts [err|]]|] eqn:Hparse;
      [done| |done].
    destruct (ignored ts) eqn:Hig.
    + intros Hl Hd. apply (IH _ _ _ Hl).
      eapply Forall_impl; [exact Hd|]. intros fd.
      by apply describes_extends.
    + destruct (rec _ _ _) as [[p|err] s1| | |] eqn:Hr; simpl; [|done..].
      destruct (Hrec _ _ _ _ _ Hr) as [Hext Hkp].
      intros Hl Hd. apply (IH _ _ _ Hl). apply Forall_app. split.
      * eapply Forall_impl; [exact Hd|]. intros fd.
        apply describes_extends. by etrans.
      * apply Forall_singleton. exists f, ts. simpl.
        split_and!; try done. by apply Hkp.
Qed.

(** When the loop returns fields, the tag of every exported field it
    went over parsed without error. *)
Lemma structFieldsLoop_parsed typ todo i fields s fields' s' :
  structFieldsLoop rec typ todo i fields s = Returned (Ok fields') s' →
  ∀ j f, i ≤ j < i + todo → Field typ j = Some f → PkgPath f = "" →
         ∃ ts, parseStructTag typ j = Some (ts, None).
Proof.
  revert i fields s. induction todo as [|todo IH]; intros i fields s.
  - intros _ j f Hj. lia.
  - cbn [structFieldsLoop].
    destruct (Field typ i) as [f|] eqn:Hf; [|done].
    intros Hl j g Hj Hg Hp.
    assert (Hrest : ∀ fields1 s1,
              structFieldsLoop rec typ todo (S i) fields1 s1
                = Returned (Ok fields') s' →
              j ≠ i → ∃ ts, parseStructTag typ j = Some (ts, None)).
    { intros fields1 s1 Hl1 Hne. eapply IH; [exact Hl1| |done..]. lia. }
    case_decide as Hpf; [|apply (Hrest _ _ Hl); by intros ->; simplify_eq].
    destruct (parseStructTag typ i) as [[ts [err|]]|] eqn:Hparse;
      [done| |done].
    destruct (decide (j = i)) as [->|Hne]; [by eexists|].
    destruct (ignored ts); [by eapply Hrest|].
    destruct (rec _ _ _) as [[p|err] s1| | |]; cbn [bind] in Hl; [|done..].
    by eapply Hrest.
Qed.

End enumerate.

Lemma enumerated_spec typ i :
  enumerated typ i = true ↔
  ∃ f ts, Field typ i = Some f ∧ PkgPath f = "" ∧
          parseStructTag typ i = Some (ts, None) ∧ ignored ts = false.
Proof.
  unfold enumerated. split.
  - destruct (Field typ i) as [f|]; [|done].
    rewrite andb_true_iff, bool_decide_eq_true. intros [Hp Hparse].
    destruct (parseStructTag typ i) as [[ts [err|]]|]; [done| |done].
    exists f, ts. split_and!; try done. by apply negb_true_iff.
  - intros (f & ts & -> & Hp & -> & Hig).
    rewrite bool_decide_eq_true_2 by done. by rewrite Hig.
Qed.

Lemma sorted_filter_seq (P : nat → Prop) `{∀ j, Decision (P j)} i n :
  StronglySorted lt (filter P (seq i n)).
Proof.
  revert i. induction n as [|n IH]; intros i; simpl; [constructor|].
  destruct (decide (P i)).
  - rewrite filter_cons_True by done. constructor; [apply IH|].
    apply Forall_forall. intros j Hj.
    apply list_elem_of_filter in Hj as [_ Hj].
    apply elem_of_seq in Hj. lia.
  - rewrite filter_cons_False by done. apply IH.
Qed.

Lemma StronglySorted_lookup_lt (l : list nat) a b x y :
  StronglySorted lt l → a < b → l !! a = Some x → l !! b = Some y → x < y.
Proof.
  intros Hs. revert a b.
  induction Hs as [|z l Hs IH Hall]; intros a b Hab Ha Hb; [done|].
  destruct a as [|a], b as [|b]; try lia; simpl in *.
  - simplify_eq. rewrite Forall_forall in Hall. apply Hall.
    by eapply list_elem_of_lookup_2.
  - eapply (IH a b); [lia|done..].
Qed.

(** *** Calls for a key that is being derived *)

Section short_circuit.
Variables (key : typekey) (s0 : state) (rec : resolver).
Hypothesis Hrec : sound rec.
Hypothesis Hhit :
  ∀ s1, extends (begin key s0) s1 →
        rec key.1 key.2 s1 = Returned (Ok (length (heap s0))) s1.

Local Abbreviation short := (shortCircuit key (length (heap s0)) rec).

(** In a state that comes after the dummy was put, the resolver does
    what its short-circuited form does. *)
Lemma call_shortCircuit typ ts s1 :
  extends (begin key s0) s1 → rec typ ts s1 = short typ ts s1.
Proof.
  intros Hext. unfold shortCircuit. case_decide as Hkey; [|done].
  subst key. by apply Hhit.
Qed.

Lemma structFieldsLoop_shortCircuit typ todo i fields s1 :
  extends (begin key s0) s1 →
  structFieldsLoop rec typ todo i fields s1
    = structFieldsLoop short typ todo i fields s1.
Proof.
  revert i fields s1. induction todo as [|todo IH]; intros i fields s1 Hext;
    [done|].
  cbn [structFieldsLoop].
  destruct (Field typ i) as [f|] eqn:Hf; [|done].
  case_decide as Hp; [|by apply IH].
  assert (Hs : extends (begin key s0) (record (ParseStructTag typ i) s1)).
  { etrans; [exact Hext|]. apply extends_record_parse. by exists f. }
  destruct (parseStructTag typ i) as [[ts [err|]]|]; [done| |done].
  destruct (ignored ts); [by apply IH|].
  rewrite <- (call_shortCircuit _ _ _ Hs).
  destruct (rec _ _ _) as [[info|err] s2| | |] eqn:Hr; cbn [bind];
    [|done..].
  apply IH. etrans; [exact Hs|]. by eapply Hrec.
Qed.

Lemma structFields_shortCircuit typ s1 :
  extends (begin key s0) s1 →
  structFields rec typ s1 = structFields short typ s1.
Proof.
  intros Hext. unfold structFields. destruct (NumField typ); [|done].
  by apply structFieldsLoop_shortCircuit.
Qed.

Lemma run_shortCircuit {A} (p : prog A) s1 :
  extends (begin key s0) s1 → run rec p s1 = run short p s1.
Proof.
  revert s1. induction p as [r0|typ ts k IH|typ k IH]; intros s1 Hext;
    cbn [run]; [done| |].
  - rewrite <- (call_shortCircuit _ _ _ Hext).
    destruct (rec typ ts s1) as [r1 s2| | |] eqn:Hr; cbn [bind]; [|done..].
    apply IH. etrans; [exact Hext|]. by eapply Hrec.
  - rewrite <- (structFields_shortCircuit _ _ Hext).
    destruct (structFields rec typ s1) as [r1 s2| | |] eqn:Hr; cbn [bind];
      [|done..].
    apply IH. etrans; [exact Hext|]. by eapply structFields_extends.
Qed.

Lemma genTypeInfo_shortCircuit typ ts s1 :
  extends (begin key s0) s1 →
  genTypeInfo rec typ ts s1 = genTypeInfo short typ ts s1.
Proof.
  intros Hext. rewrite !genTypeInfo_eq.
  rewrite <- (run_shortCircuit _ _ Hext).
  destruct (run rec (makeDecoder typ ts) s1) as [[d|err] s2| | |] eqn:Hd;
    cbn [bind]; [|done..].
  rewrite <- (run_shortCircuit (makeWriter typ ts) s2); [done|].
  etrans; [exact Hext|]. by eapply run_extends.
Qed.

End short_circuit.

(** *** The cache protocol *)

(** C1. Resolution of a key whose generator asks for the same key
    again. A call of [cachedTypeInfo1] for a key that is not cached
    puts the dummy record and runs the generator in the state
    [begin key s], where the key is bound to the dummy; its result is
    what [finish] makes of the generator's. The states that come after
    [begin key s] ([extends]) are closed under the two calls a generator
    can make, so every call made during the derivation, at any depth,
    sees such a state; in each of them a call for the same key returns
    the dummy's pointer at once, with no fuel used and the state (and so
    the history of generator calls) unchanged. So the generator and the
    field enumerator, run there, do what they do with the resolver that
    answers the key with the dummy's pointer without looking further
    ([shortCircuit]). Hence, with fuel for the keys of [U] not yet
    cached, the resolution returns, from [cachedTypeInfo1] and from
    [cachedTypeInfo] called with no lock held (which leaves no lock
    held); the generator ran once for the key; a pointer that is
    returned is the dummy's, the key is bound to it and its record is
    filled, and after an error the key has no entry; and when no
    generator of [U] fails by itself and no tag of [U] is malformed the
    result is a pointer, whatever cycles [U] has: no error comes from
    the recursion. *)
Theorem reentrant_resolution_short_circuits
        (U : gset typekey) (ok : bool) fuel typ ts s :
  closed U ok →
  (typ, ts) ∈ U →
  typeCache s !! (typ, ts) = None →
  missing U s ≤ fuel →
  let key := (typ, ts) in
  let p := length (heap s) in
  (typeCache (begin key s) !! key = Some p ∧
   heap (begin key s) !! p = Some (mkTypeinfo None None))
  ∧ cachedTypeInfo1 fuel typ ts s
    = bind (genTypeInfo (cachedTypeInfo1 (pred fuel)) typ ts (begin key s))
           (finish key)
  ∧ (∀ s1 s2 fuel1 typ1 ts1 r,
       extends (begin key s) s1 →
       cachedTypeInfo1 fuel1 typ1 ts1 s1 = Returned r s2 →
       extends (begin key s) s2)
  ∧ (∀ s1 s2 fuel1 typ1 r,
       extends (begin key s) s1 →
       structFields (cachedTypeInfo1 fuel1) typ1 s1 = Returned r s2 →
       extends (begin key s) s2)
  ∧ (∀ s1 fuel1,
       extends (begin key s) s1 →
       cachedTypeInfo1 fuel1 typ ts s1 = Returned (Ok p) s1)
  ∧ (∀ s1 fuel1,
       extends (begin key s) s1 →
       (∀ typ1 ts1,
          genTypeInfo (cachedTypeInfo1 fuel1) typ1 ts1 s1
          = genTypeInfo (shortCircuit key p (cachedTypeInfo1 fuel1))
                        typ1 ts1 s1)
       ∧ (∀ typ1,
            structFields (cachedTypeInfo1 fuel1) typ1 s1
            = structFields (shortCircuit key p (cachedTypeInfo1 fuel1))
                           typ1 s1))
  ∧ ∃ r s',
      cachedTypeInfo1 fuel typ ts s = Returned r s' ∧
      cachedTypeInfo fuel typ ts (mkVars free s)
        = Returned r (mkVars free s') ∧
      allowed ok r ∧
      (∃ l, history s' = history s ++ GenTypeInfo key :: l
            ∧ GenTypeInfo key ∉ l) ∧
      (∃ r2 s2,
         genTypeInfo (shortCircuit key p (cachedTypeInfo1 (pred fuel)))
                     typ ts (begin key s) = Returned r2 s2 ∧
         extends (begin key s) s2 ∧
         finish key r2 s2 = Returned r s') ∧
      (∀ p', r = Ok p' →
         p' = p ∧ typeCache s' !! key = Some p ∧ filled (heap s') p) ∧
      (∀ e, r = Err e → typeCache s' !! key = None).
Proof.
  intros Hclosed HU Hk Hm key p.
  assert (Hhit : ∀ fuel1 s1,
            extends (begin key s) s1 →
            cachedTypeInfo1 fuel1 typ ts s1 = Returned (Ok p) s1).
  { intros fuel1 s1 Hext. apply cachedTypeInfo1_hit.
    by apply (extends_lookup _ _ _ _ Hext), begin_lookup. }
  assert (Hfuel : ∃ fuel', fuel = S fuel').
  { pose proof (missing_begin U _ _ HU Hk) as Hlt.
    destruct fuel as [|fuel']; [lia|by exists fuel']. }
  destruct Hfuel as [fuel' ->]. cbn [pred].
  split_and!.
  - apply begin_lookup.
  - apply begin_heap.
  - by apply cachedTypeInfo1_miss.
  - intros s1 s2 fuel1 typ1 ts1 r Hext Hr. etrans; [exact Hext|].
    by eapply cachedTypeInfo1_sound.
  - intros s1 s2 fuel1 typ1 r Hext Hr. etrans; [exact Hext|].
    eapply structFields_extends; [apply cachedTypeInfo1_sound|done].
  - intros s1 fuel1. apply Hhit.
  - intros s1 fuel1 Hext. split.
    + intros typ1 ts1.
      apply (genTypeInfo_shortCircuit key s (cachedTypeInfo1 fuel1));
        [apply cachedTypeInfo1_sound|apply Hhit|done].
    + intros typ1.
      apply (structFields_shortCircuit key s (cachedTypeInfo1 fuel1));
        [apply cachedTypeInfo1_sound|apply Hhit|done].
  - destruct (cachedTypeInfo1_total U ok (S fuel') Hclosed typ ts s HU Hm)
      as (r & s' & Hr & Hall).
    exists r, s'.
    pose proof Hr as Hr'.
    rewrite (cachedTypeInfo1_miss _ _ _ _ Hk) in Hr'.
    destruct (genTypeInfo _ typ ts _) as [r2 s2| | |] eqn:Hg; [|done..].
    pose proof Hg as Hg'.
    apply (genTypeInfo_extends _ (cachedTypeInfo1_sound fuel'))
      in Hg' as [Hext Hinfo].
    cbn [bind] in Hr'.
    split_and!; [done| |done| | | |].
    + rewrite cachedTypeInfo_miss; [|done..].
      unfold onCache. cbn [cache typeCacheMutex]. by rewrite Hr.
    + by eapply cachedTypeInfo1_once.
    + exists r2, s2. split_and!; [|done..].
      rewrite <- Hg. symmetry.
      apply (genTypeInfo_shortCircuit key s (cachedTypeInfo1 fuel'));
        [apply cachedTypeInfo1_sound|apply Hhit|done].
    + intros p' ->. destruct r2 as [info|err]; [|done].
      destruct (Hinfo _ eq_refl) as (d & w & ->).
      rewrite (finish_Ok _ _ _ _ Hext) in Hr'. injection Hr' as <- <-.
      split_and!; [done| |].
      * simpl. by apply (extends_lookup _ _ _ _ Hext), begin_lookup.
      * exists d, w. simpl. apply list_lookup_insert_eq.
        pose proof (extends_heap_length _ _ Hext) as Hl. simpl in Hl.
        rewrite length_app in Hl. simpl in Hl. lia.
    + intros e ->. destruct r2 as [info|err].
      * destruct (Hinfo _ eq_refl) as (d & w & ->).
        by rewrite (finish_Ok _ _ _ _ Hext) in Hr'.
      * rewrite finish_Err in Hr'. injection Hr' as _ <-. simpl.
        apply lookup_delete_eq.
Qed.

(** C2. Once [cachedTypeInfo] has returned a pointer for a key, every
    later call for the key, after any further calls of [cachedTypeInfo],
    returns the same pointer and leaves the variables as they are: the
    generator is not entered (the history does not grow), and all the
    records that existed at the first return, the one returned among
    them, still hold what they held. No generator call for the key is
    recorded after the first return. *)
Theorem resolution_idempotent fuel typ ts (v : vars) p v1 v2 :
  cachedTypeInfo fuel typ ts v = Returned (Ok p) v1 →
  later v1 v2 →
  (∀ fuel', cachedTypeInfo fuel' typ ts v2 = Returned (Ok p) v2)
  ∧ heap (cache v1) `prefix_of` heap (cache v2)
  ∧ (p < length (heap (cache v1)) →
     heap (cache v2) !! p = heap (cache v1) !! p)
  ∧ ∃ l, history (cache v2) = history (cache v1) ++ l
         ∧ GenTypeInfo (typ, ts) ∉ l.
Proof.
  intros Hr Hlater.
  destruct (cachedTypeInfo_sound _ _ _ _ _ _ Hr) as (_ & Hm & Hw & Hp).
  specialize (Hp p eq_refl).
  destruct (later_extends _ _ Hlater) as [Hext Hm2].
  split_and!.
  - intros fuel'. apply cachedTypeInfo_hit; [congruence|].
    by eapply extends_lookup.
  - apply Hext.
  - intros Hlt.
    destruct (lookup_lt_is_Some_2 (heap (cache v1)) p Hlt) as [x Hx].
    rewrite Hx. by eapply extends_heap_lookup.
  - destruct (ext_history _ _ Hext) as (l & Hl & Hok).
    exists l. split; [done|]. intros Hin.
    rewrite Forall_forall in Hok. apply Hok in Hin. simpl in Hin.
    by rewrite Hp in Hin.
Qed.

(** C3. When the generator fails for a key that was not cached,
    [cachedTypeInfo1], and [cachedTypeInfo] with it (called with no lock
    held), returns the generator's error and leaves the state of the
    generator's return with the key deleted: the key has no entry. A
    later call for the key then misses the cache: it puts a new dummy and
    enters the generator again, and its result is again what [finish]
    makes of the generator's. *)
Theorem failed_build_rolled_back fuel typ ts s err s2 :
  typeCache s !! (typ, ts) = None →
  genTypeInfo (cachedTypeInfo1 fuel) typ ts (begin (typ, ts) s)
    = Returned (Err err) s2 →
  let s' := rollback (typ, ts) s2 in
  cachedTypeInfo1 (S fuel) typ ts s = Returned (Err err) s'
  ∧ cachedTypeInfo (S fuel) typ ts (mkVars free s)
      = Returned (Err err) (mkVars free s')
  ∧ typeCache s' !! (typ, ts) = None
  ∧ typeCache s' = delete (typ, ts) (typeCache s2)
  ∧ ∀ fuel',
      cachedTypeInfo1 (S fuel') typ ts s' =
        bind (genTypeInfo (cachedTypeInfo1 fuel') typ ts
                          (begin (typ, ts) s'))
             (finish (typ, ts))
      ∧ cachedTypeInfo (S fuel') typ ts (mkVars free s') =
          onCache (cachedTypeInfo1 (S fuel') typ ts) (mkVars free s').
Proof.
  intros Hk Hg s'.
  assert (H1 : cachedTypeInfo1 (S fuel) typ ts s = Returned (Err err) s').
  { rewrite (cachedTypeInfo1_miss _ _ _ _ Hk), Hg. done. }
  assert (Hgone : typeCache s' !! (typ, ts) = None).
  { simpl. apply lookup_delete_eq. }
  split_and!; [done| |done|done|].
  - rewrite cachedTypeInfo_miss by done. unfold onCache.
    cbn [cache typeCacheMutex]. by rewrite H1.
  - intros fuel'. split.
    + by apply cachedTypeInfo1_miss.
    + by apply cachedTypeInfo_miss.
Qed.

(** C7. A call of [cachedTypeInfo1] that misses the cache and returns a
    pointer returns the pointer of the dummy record it put on line 82.
    From then on the key is bound to this pointer, in every state of
    the derivation and in the state the generator returns in, where the
    record is still the dummy; [finish] binds nothing anew and writes
    the generated strategies into this record. After the call the key
    stays bound to the pointer and the record keeps what was written,
    whatever calls of [cachedTypeInfo] follow. *)
Theorem placeholder_filled_in_place fuel typ ts s q s' :
  typeCache s !! (typ, ts) = None →
  cachedTypeInfo1 fuel typ ts s = Returned (Ok q) s' →
  let key := (typ, ts) in
  q = length (heap s)
  ∧ typeCache (begin key s) !! key = Some q
  ∧ heap (begin key s) !! q = Some (mkTypeinfo None None)
  ∧ (∀ s1, extends (begin key s) s1 → typeCache s1 !! key = Some q)
  ∧ (∃ s2 d w,
       genTypeInfo (cachedTypeInfo1 (pred fuel)) typ ts (begin key s)
         = Returned (Ok (mkTypeinfo (Some d) (Some w))) s2 ∧
       typeCache s2 !! key = Some q ∧
       heap s2 !! q = Some (mkTypeinfo None None) ∧
       typeCache s' = typeCache s2 ∧
       heap s' = <[q := mkTypeinfo (Some d) (Some w)]> (heap s2) ∧
       heap s' !! q = Some (mkTypeinfo (Some d) (Some w)))
  ∧ (∀ v v'' : vars, cache v = s' → later v v'' →
       typeCache (cache v'') !! key = Some q ∧
       heap (cache v'') !! q = heap s' !! q).
Proof.
  intros Hk Hr key.
  destruct fuel as [|fuel]; [simpl in Hr; by rewrite Hk in Hr|].
  rewrite (cachedTypeInfo1_miss _ _ _ _ Hk) in Hr. cbn [pred].
  destruct (genTypeInfo _ typ ts _) as [r2 s2| | |] eqn:Hg; [|done..].
  pose proof Hg as Hg'.
  apply (genTypeInfo_extends _ (cachedTypeInfo1_sound fuel))
    in Hg' as [Hext Hinfo].
  cbn [bind] in Hr. destruct r2 as [info|err]; [|done].
  destruct (Hinfo _ eq_refl) as (d & w & ->).
  rewrite (finish_Ok _ _ _ _ Hext) in Hr.
  injection Hr as <- <-.
  assert (Hlen : length (heap s) < length (heap s2)).
  { pose proof (extends_heap_length _ _ Hext) as Hl. simpl in Hl.
    rewrite length_app in Hl. simpl in Hl. lia. }
  assert (Hq : heap (fill key (length (heap s))
                       (mkTypeinfo (Some d) (Some w)) s2)
               !! length (heap s)
               = Some (mkTypeinfo (Some d) (Some w))).
  { simpl. by apply list_lookup_insert_eq. }
  split_and!.
  - done.
  - apply begin_lookup.
  - apply begin_heap.
  - intros s1 Hs1. by apply (extends_lookup _ _ _ _ Hs1), begin_lookup.
  - exists s2, d, w. split_and!; try done.
    + by apply (extends_lookup _ _ _ _ Hext), begin_lookup.
    + by apply (extends_heap_lookup _ _ _ _ Hext), begin_heap.
  - intros v v'' Hv Hlater.
    destruct (later_extends _ _ Hlater) as [Hl _]. rewrite Hv in Hl.
    split.
    + apply (extends_lookup _ _ _ _ Hl). simpl.
      by apply (extends_lookup _ _ _ _ Hext), begin_lookup.
    + etrans; [|symmetry; exact Hq].
      exact (extends_heap_lookup _ _ _ _ Hl Hq).
Qed.

(** C10. When [cachedTypeInfo1] misses the cache and returns an error,
    the state it leaves is the state of the generator's return with the
    entry of the key deleted and nothing else changed. Every entry the
    cache had before the call is still there, and so is the entry of
    every key whose record was filled during the derivation: such a key
    is not the failed one, it is bound to its filled record, and every
    later call of [cachedTypeInfo] for it returns that record without
    changing the state. *)
Theorem failed_build_keeps_nested_entries fuel typ ts s err s' :
  typeCache s !! (typ, ts) = None →
  cachedTypeInfo1 fuel typ ts s = Returned (Err err) s' →
  let key := (typ, ts) in
  typeCache s' !! key = None
  ∧ (∃ s2,
       genTypeInfo (cachedTypeInfo1 (pred fuel)) typ ts (begin key s)
         = Returned (Err err) s2 ∧
       typeCache s' = delete key (typeCache s2) ∧
       heap s' = heap s2 ∧ history s' = history s2)
  ∧ typeCache s ⊆ typeCache s'
  ∧ ∃ l, history s' = history s ++ l ∧
      ∀ k q, Filled k q ∈ l →
        k ≠ key ∧ typeCache s' !! k = Some q ∧ filled (heap s') q ∧
        ∀ (v v'' : vars) fuel',
          cache v = s' → locked (typeCacheMutex v) = false →
          later v v'' →
          cachedTypeInfo fuel' k.1 k.2 v'' = Returned (Ok q) v''.
Proof.
  intros Hk Hr key.
  destruct (cachedTypeInfo1_sound _ _ _ _ _ _ Hr) as [Hext _].
  destruct fuel as [|fuel]; [simpl in Hr; by rewrite Hk in Hr|].
  rewrite (cachedTypeInfo1_miss _ _ _ _ Hk) in Hr. cbn [pred].
  destruct (genTypeInfo _ typ ts _) as [r2 s2| | |] eqn:Hg; [|done..].
  pose proof Hg as Hg'.
  apply (genTypeInfo_extends _ (cachedTypeInfo1_sound fuel))
    in Hg' as [Hext2 Hinfo].
  cbn [bind] in Hr. destruct r2 as [info|err2].
  { destruct (Hinfo _ eq_refl) as (d & w & ->).
    by rewrite (finish_Ok _ _ _ _ Hext2) in Hr. }
  rewrite finish_Err in Hr. injection Hr as -> <-.
  split_and!.
  - simpl. apply lookup_delete_eq.
  - by exists s2.
  - apply Hext.
  - destruct (ext_history _ _ Hext) as (l & Hl & Hok).
    exists l. split; [done|]. intros k q Hin.
    rewrite Forall_forall in Hok. apply Hok in Hin.
    destruct Hin as (Hnone & Hq & Hkq & Hf).
    split_and!; [|done|done|].
    + intros ->. simpl in Hkq. by rewrite lookup_delete_eq in Hkq.
    + intros v v'' fuel' Hv Hw Hlater. destruct k as [typ' ts']. simpl.
      destruct (later_extends _ _ Hlater) as [Hlat Hm]. rewrite Hv in Hlat.
      apply cachedTypeInfo_hit; [congruence|].
      by apply (extends_lookup _ _ _ _ Hlat).
Qed.

(** *** The field enumerator, on the cache *)

(** C6. With fuel for the keys of [U] not yet cached, [structFields]
    returns. When it returns fields, the tag of every exported field
    has parsed, and the indices of the descriptors are, without
    repetition, exactly the indices of the fields that are exported and
    whose tag does not set [ignored]; each descriptor holds the record
    its field's type and tags are bound to. Tags are parsed for exported
    fields only: every [parseStructTag] call recorded is for one, so a
    field that is not exported is passed over whatever its tag. *)
Theorem structFields_filters (U : gset typekey) (ok : bool) fuel typ s :
  closed U ok →
  fieldsIn U ok typ →
  missing U s ≤ fuel →
  ∃ r s',
    structFields (cachedTypeInfo1 fuel) typ s = Returned r s' ∧
    allowed ok r ∧
    (∀ fields, r = Ok fields →
       (∀ i f, Field typ i = Some f → PkgPath f = "" →
               ∃ ts, parseStructTag typ i = Some (ts, None)) ∧
       NoDup (index <$> fields) ∧
       (∀ i, i ∈ index <$> fields ↔
             ∃ f ts, Field typ i = Some f ∧ PkgPath f = "" ∧
                     parseStructTag typ i = Some (ts, None) ∧
                     ignored ts = false) ∧
       Forall (describes typ s') fields) ∧
    ∃ l, history s' = history s ++ l ∧
         ∀ typ' i, ParseStructTag typ' i ∈ l → exported typ' i.
Proof.
  intros Hclosed Hin Hm.
  pose proof (cachedTypeInfo1_sound fuel) as Hsound.
  destruct (structFields_returns U ok _ fuel Hsound
              (cachedTypeInfo1_total U ok fuel Hclosed) typ s Hin Hm)
    as (r & s' & Hr & Hall).
  exists r, s'. split_and!; [done|done| |].
  - intros fields ->. unfold structFields, NumField in Hr.
    rewrite decide_True in Hr by apply Hin.
    pose proof (structFieldsLoop_index _ _ _ _ _ _ _ _ Hr) as Hidx.
    simpl in Hidx.
    assert (Hiff : ∀ i, i ∈ index <$> fields ↔ enumerated typ i = true).
    { intros i. rewrite Hidx, list_elem_of_filter, elem_of_seq.
      rewrite Is_true_true. split; [by intros [? _]|].
      intros He. split; [done|].
      apply enumerated_spec in He as (f & ? & Hf & _).
      unfold Field in Hf. case_decide; [|done].
      apply lookup_lt_Some in Hf. lia. }
    split_and!.
    + intros i f Hf Hp.
      eapply (structFieldsLoop_parsed _ _ _ _ _ _ _ _ Hr); [|done..].
      unfold Field in Hf. case_decide; [|done].
      apply lookup_lt_Some in Hf. lia.
    + rewrite Hidx. apply NoDup_filter, NoDup_seq.
    + intros i. by rewrite Hiff, enumerated_spec.
    + by eapply (structFieldsLoop_describes _ _ _ _ _ _ _ _ Hsound Hr).
  - destruct (ext_history _ _ (structFields_extends _ Hsound _ _ _ _ Hr))
      as (l & Hl & Hok).
    exists l. split; [done|]. intros typ' i Hi.
    rewrite Forall_forall in Hok. by apply Hok in Hi.
Qed.

(** C8. When [structFields] returns fields, they are in the order of
    declaration: the indices of the descriptors increase strictly along
    the list. *)
Theorem structFields_declaration_order fuel typ s fields s' :
  structFields (cachedTypeInfo1 fuel) typ s = Returned (Ok fields) s' →
  StronglySorted lt (index <$> fields)
  ∧ ∀ a b x y, a < b → fields !! a = Some x → fields !! b = Some y →
               index x < index y.
Proof.
  intros Hr. unfold structFields in Hr.
  destruct (NumField typ) as [n|]; [|done].
  pose proof (structFieldsLoop_index _ _ _ _ _ _ _ _ Hr) as Hidx.
  simpl in Hidx.
  assert (Hs : StronglySorted lt (index <$> fields)).
  { rewrite Hidx. apply sorted_filter_seq. }
  split; [done|]. intros a b x y Hab Ha Hb.
  apply (StronglySorted_lookup_lt _ a b _ _ Hs Hab);
    by rewrite list_lookup_fmap, ?Ha, ?Hb.
Qed.

(** *** Relations that every call respects

    A relation on states that holds across the steps of
    [cachedTypeInfo1] (the note of a parse, the filling of the dummy
    after a derivation, the deletion of the dummy after a failed one)
    holds across every call. *)

Local Abbreviation wellFormed := (wellFormed (T:=T) (D:=D) (W:=W)).
Local Abbreviation complete := (complete (T:=T) (D:=D) (W:=W)).
Local Abbreviation newEntriesFilled :=
  (newEntriesFilled (T:=T) (D:=D) (W:=W)).
Local Abbreviation unbound := (unbound (T:=T) (D:=D) (W:=W)).
Local Abbreviation builtOnce := (builtOnce (T:=T) (D:=D) (W:=W)).

Section respected.
Variable R : state → state → Prop.
Hypothesis R_refl : ∀ s, R s s.
Hypothesis R_trans : ∀ s1 s2 s3, R s1 s2 → R s2 s3 → R s1 s3.
Hypothesis R_parse :
  ∀ typ i s, exported typ i → R s (record (ParseStructTag typ i) s).
Hypothesis R_fill :
  ∀ key s s2 d w,
    typeCache s !! key = None →
    extends (begin key s) s2 → R (begin key s) s2 →
    R s (fill key (length (heap s)) (mkTypeinfo (Some d) (Some w)) s2).
Hypothesis R_rollback :
  ∀ key s s2,
    typeCache s !! key = None →
    extends (begin key s) s2 → R (begin key s) s2 →
    R s (rollback key s2).

Section respecting_resolver.
Variable rec : resolver.
Hypothesis Hrec : ∀ typ ts s r s', rec typ ts s = Returned r s' → R s s'.

Lemma structFieldsLoop_respects typ todo i fields s r s' :
  structFieldsLoop rec typ todo i fields s = Returned r s' → R s s'.
Proof.
  revert i fields s. induction todo as [|todo IH]; intros i fields s.
  - simpl. intros [= <- <-]. apply R_refl.
  - simpl. destruct (Field typ i) as [f|] eqn:Hf; [|done].
    case_decide as Hp; [|by apply IH].
    assert (Hs : R s (record (ParseStructTag typ i) s)).
    { apply R_parse. by exists f. }
    destruct (parseStructTag typ i) as [[ts [err|]]|]; [| |done].
    + by intros [= <- <-].
    + destruct (ignored ts).
      * intros Hl. eapply R_trans; [exact Hs|]. by eapply IH.
      * destruct (rec _ _ _) as [[info|err] s1| | |] eqn:Hr; simpl;
          [| |done..].
        -- intros Hl. eapply R_trans; [exact Hs|].
           eapply R_trans; [by eapply Hrec|]. by eapply IH.
        -- intros [= <- <-]. eapply R_trans; [exact Hs|]. by eapply Hrec.
Qed.

Lemma structFields_respects typ s r s' :
  structFields rec typ s = Returned r s' → R s s'.
Proof.
  unfold structFields. destruct (NumField typ); [|done].
  apply structFieldsLoop_respects.
Qed.

Lemma run_respects {A} (p : prog A) s r s' :
  run rec p s = Returned r s' → R s s'.
Proof.
  revert s. induction p as [r0|typ ts k IH|typ k IH]; intros s; simpl.
  - intros [= <- <-]. apply R_refl.
  - destruct (rec typ ts s) as [r1 s1| | |] eqn:Hr; simpl; [|done..].
    intros Hk. eapply R_trans; [by eapply Hrec|]. by eapply IH.
  - destruct (structFields rec typ s) as [r1 s1| | |] eqn:Hr; simpl;
      [|done..].
    intros Hk. eapply R_trans; [by eapply structFields_respects|].
    by eapply IH.
Qed.

Lemma genTypeInfo_respects typ ts s r s' :
  genTypeInfo rec typ ts s = Returned r s' → R s s'.
Proof.
  rewrite genTypeInfo_eq.
  destruct (run rec (makeDecoder typ ts) s) as [[d|err] s1| | |] eqn:Hd;
    simpl; [| |done..].
  - destruct (run rec (makeWriter typ ts) s1) as [[w|err] s2| | |] eqn:Hw;
      simpl; [| |done..].
    + intros [= <- <-]. eapply R_trans; by eapply run_respects.
    + intros [= <- <-]. eapply R_trans; by eapply run_respects.
  - intros [= <- <-]. by eapply run_respects.
Qed.

End respecting_resolver.

Lemma cachedTypeInfo1_respects fuel typ ts s r s' :
  cachedTypeInfo1 fuel typ ts s = Returned r s' → R s s'.
Proof.
  revert typ ts s r s'. induction fuel as [|fuel IH]; intros typ ts s r s'.
  - simpl. destruct (typeCache s !! (typ, ts)) eqn:Hk; [|done].
    intros [= <- <-]. apply R_refl.
  - destruct (typeCache s !! (typ, ts)) as [p|] eqn:Hk.
    + rewrite (cachedTypeInfo1_hit _ _ _ _ _ Hk). intros [= <- <-].
      apply R_refl.
    + rewrite (cachedTypeInfo1_miss _ _ _ _ Hk).
      destruct (genTypeInfo _ typ ts _) as [r2 s2| | |] eqn:Hg; [|done..].
      pose proof (genTypeInfo_respects _ IH _ _ _ _ _ Hg) as HR.
      apply (genTypeInfo_extends _ (cachedTypeInfo1_sound fuel))
        in Hg as [Hext Hinfo]. simpl.
      destruct r2 as [info|err].
      * destruct (Hinfo _ eq_refl) as (d & w & ->).
        rewrite (finish_Ok _ _ _ _ Hext). intros [= <- <-].
        by apply R_fill.
      * rewrite finish_Err. intros [= <- <-]. by apply R_rollback.
Qed.

Lemma cachedTypeInfo_respects fuel typ ts (v : vars) r v' :
  cachedTypeInfo fuel typ ts v = Returned r v' → R (cache v) (cache v').
Proof.
  intros Hr. apply cachedTypeInfo_returned in Hr as (_ & _ & Hr).
  destruct (typeCache (cache v) !! (typ, ts)) as [p|].
  - destruct Hr as [_ ->]. apply R_refl.
  - destruct Hr as [_ Hr]. by eapply cachedTypeInfo1_respects.
Qed.

Lemma later_respects (v v' : vars) : later v v' → R (cache v) (cache v').
Proof.
  induction 1 as [v|v v1 v2 (fuel & typ & ts & r & Hc) _ IH].
  - apply R_refl.
  - eapply R_trans; [|exact IH]. by eapply cachedTypeInfo_respects.
Qed.

End respected.

(** A state invariant that the three steps keep is kept by every
    call. *)
Section invariant.
Variable P : state → Prop.
Hypothesis P_parse : ∀ typ i s, P s → P (record (ParseStructTag typ i) s).
Hypothesis P_begin :
  ∀ key s, typeCache s !! key = None → P s → P (begin key s).
Hypothesis P_fill :
  ∀ key s2 p info,
    typeCache s2 !! key = Some p → P s2 → P (fill key p info s2).
Hypothesis P_rollback : ∀ key s2, P s2 → P (rollback key s2).

Lemma invariant_fill key s s2 d w :
  typeCache s !! key = None →
  extends (begin key s) s2 → (P (begin key s) → P s2) →
  P s → P (fill key (length (heap s)) (mkTypeinfo (Some d) (Some w)) s2).
Proof.
  intros Hk Hext HR HP. apply P_fill.
  - by apply (extends_lookup _ _ _ _ Hext), begin_lookup.
  - by apply HR, P_begin.
Qed.

Lemma invariant_rollback key s s2 :
  typeCache s !! key = None →
  extends (begin key s) s2 → (P (begin key s) → P s2) →
  P s → P (rollback key s2).
Proof. intros Hk Hext HR HP. by apply P_rollback, HR, P_begin. Qed.

Lemma cachedTypeInfo1_keeps fuel typ ts s r s' :
  cachedTypeInfo1 fuel typ ts s = Returned r s' → P s → P s'.
Proof.
  apply (cachedTypeInfo1_respects (λ s s', P s → P s')).
  - done.
  - intros s1 s2 s3 H12 H23 HP. by apply H23, H12.
  - intros typ1 i s1 _. apply P_parse.
  - apply invariant_fill.
  - apply invariant_rollback.
Qed.

Lemma genTypeInfo_keeps fuel typ ts s r s' :
  genTypeInfo (cachedTypeInfo1 fuel) typ ts s = Returned r s' → P s → P s'.
Proof.
  apply (genTypeInfo_respects (λ s s', P s → P s')).
  - done.
  - intros s1 s2 s3 H12 H23 HP. by apply H23, H12.
  - intros typ1 i s1 _. apply P_parse.
  - intros typ1 ts1 s1 r1 s1'. apply cachedTypeInfo1_keeps.
Qed.

Lemma later_keeps (v v' : vars) : later v v' → P (cache v) → P (cache v').
Proof.
  apply (later_respects (λ s s', P s → P s')).
  - done.
  - intros s1 s2 s3 H12 H23 HP. by apply H23, H12.
  - intros typ1 i s1 _. apply P_parse.
  - apply invariant_fill.
  - apply invariant_rollback.
Qed.

End invariant.

(** *** Shapes of the cache that the calls keep *)

Lemma wellFormed_begin key s :
  typeCache s !! key = None → wellFormed s → wellFormed (begin key s).
Proof.
  intros Hk [Hr Hi]. split; simpl.
  - intros k p. rewrite length_app. simpl.
    destruct (decide (k = key)) as [->|Hne].
    + rewrite lookup_insert_eq. intros [= <-]. lia.
    + rewrite lookup_insert_ne by done. intros Hp. apply Hr in Hp. lia.
  - intros k1 k2 p.
    destruct (decide (k1 = key)) as [->|H1],
             (decide (k2 = key)) as [->|H2]; [done|..];
      rewrite ?lookup_insert_eq, ?lookup_insert_ne by done.
    + intros [= <-] Hp. apply Hr in Hp. lia.
    + intros Hp [= <-]. apply Hr in Hp. lia.
    + apply Hi.
Qed.

Lemma wellFormed_fill key s p info :
  wellFormed s → wellFormed (fill key p info s).
Proof.
  intros [Hr Hi]. split; simpl; [|done].
  intros k q Hq. rewrite length_insert. by eapply Hr.
Qed.

Lemma wellFormed_rollback key s :
  wellFormed s → wellFormed (rollback key s).
Proof.
  intros [Hr Hi]. split; simpl.
  - intros k p [_ Hp]%lookup_delete_Some. by eapply Hr.
  - intros k1 k2 p [_ Hp1]%lookup_delete_Some [_ Hp2]%lookup_delete_Some.
    by eapply Hi.
Qed.

Lemma cachedTypeInfo1_wellFormed fuel typ ts s r s' :
  cachedTypeInfo1 fuel typ ts s = Returned r s' →
  wellFormed s → wellFormed s'.
Proof.
  apply (cachedTypeInfo1_keeps wellFormed).
  - done.
  - apply wellFormed_begin.
  - intros key s2 p info _. apply wellFormed_fill.
  - apply wellFormed_rollback.
Qed.

Lemma later_wellFormed (v v' : vars) :
  later v v' → wellFormed (cache v) → wellFormed (cache v').
Proof.
  apply (later_keeps wellFormed).
  - done.
  - apply wellFormed_begin.
  - intros key s2 p info _. apply wellFormed_fill.
  - apply wellFormed_rollback.
Qed.

(** X9. Every key has a record of its own. When no two keys of the cache
    share a record and every pointer of the map is in the heap, a call
    of [cachedTypeInfo1], whether it returns a pointer or an error,
    leaves the cache so; a pointer it returns is in the heap and no key
    but the one asked for is bound to it, so the same type under other
    tags has another record. The calls of [cachedTypeInfo] that follow
    keep the cache so. *)
Theorem distinct_keys_distinct_records fuel typ ts s r s' :
  wellFormed s →
  cachedTypeInfo1 fuel typ ts s = Returned r s' →
  wellFormed s'
  ∧ (∀ p, r = Ok p →
       p < length (heap s') ∧
       ∀ k, typeCache s' !! k = Some p → k = (typ, ts))
  ∧ (∀ v v' : vars, cache v = s' → later v v' → wellFormed (cache v')).
Proof.
  intros Hwf Hr.
  pose proof (cachedTypeInfo1_wellFormed _ _ _ _ _ _ Hr Hwf) as Hwf'.
  destruct (cachedTypeInfo1_sound _ _ _ _ _ _ Hr) as [_ Hp].
  split_and!.
  - done.
  - intros p Hok. specialize (Hp p Hok). destruct Hwf' as [Hrange Hinj].
    split; [by eapply Hrange|]. intros k Hk. by eapply Hinj.
  - intros v v' Hv Hlater. apply (later_wellFormed _ _ Hlater).
    by rewrite Hv.
Qed.

Lemma newEntriesFilled_step s s' :
  (extends s s' ∧ newEntriesFilled s s') →
  complete s → complete s'.
Proof.
  intros [Hext Hnew] Hc k p Hk.
  destruct (Hnew k p Hk) as [Hold|Hf]; [|done].
  eapply extends_filled; [done|]. by eapply Hc.
Qed.

Lemma later_newEntriesFilled (v v' : vars) :
  later v v' →
  extends (cache v) (cache v') ∧ newEntriesFilled (cache v) (cache v').
Proof.
  apply (later_respects
           (λ s s', extends s s' ∧ newEntriesFilled s s')).
  - intros s. split; [done|]. intros k p Hk. by left.
  - intros s1 s2 s3 [He12 Hn12] [He23 Hn23]. split; [by etrans|].
    intros k p Hk. destruct (Hn23 k p Hk) as [Hk2|Hf]; [|by right].
    destruct (Hn12 k p Hk2) as [Hk1|Hf]; [by left|right].
    by eapply extends_filled.
  - intros typ i s Hex. split; [by apply extends_record_parse|].
    intros k p Hk. by left.
  - intros key s s2 d w Hk Hext [_ Hnew]. split; [by apply extends_fill|].
    intros k p Hkp. simpl in Hkp.
    assert (Hlen : length (heap s) < length (heap s2)).
    { pose proof (extends_heap_length _ _ Hext) as Hl. simpl in Hl.
      rewrite length_app in Hl. simpl in Hl. lia. }
    assert (Hq : filled (heap (fill key (length (heap s))
                                 (mkTypeinfo (Some d) (Some w)) s2))
                        (length (heap s))).
    { exists d, w. simpl. by apply list_lookup_insert_eq. }
    destruct (decide (p = length (heap s))) as [->|Hne]; [by right|].
    destruct (Hnew k p Hkp) as [Hb|(d' & w' & Hf)].
    + left. simpl in Hb. destruct (decide (k = key)) as [->|Hkey].
      * rewrite lookup_insert_eq in Hb. congruence.
      * by rewrite lookup_insert_ne in Hb.
    + right. exists d', w'. simpl. by rewrite list_lookup_insert_ne.
  - intros key s s2 Hk Hext [_ Hnew]. split; [by apply extends_rollback|].
    intros k p Hkp. simpl in Hkp.
    apply lookup_delete_Some in Hkp as [Hkey Hkp].
    destruct (Hnew k p Hkp) as [Hb|Hf]; [left|by right].
    simpl in Hb. by rewrite lookup_insert_ne in Hb.
Qed.

(** X10. Between the calls of [cachedTypeInfo] the cache holds no dummy.
    When every entry refers to a record with both strategies, so it is
    after any calls of [cachedTypeInfo], successful or not, and a
    pointer that [cachedTypeInfo] returns refers to such a record. *)
Theorem top_level_pointers_filled (v v' : vars) :
  complete (cache v) →
  later v v' →
  complete (cache v')
  ∧ ∀ fuel typ ts p v'',
      cachedTypeInfo fuel typ ts v' = Returned (Ok p) v'' →
      filled (heap (cache v'')) p.
Proof.
  intros Hc Hlater.
  pose proof (newEntriesFilled_step _ _ (later_newEntriesFilled _ _ Hlater)
                Hc) as Hc'.
  split; [done|]. intros fuel typ ts p v'' Hr.
  assert (Hl : later v' v'').
  { eapply rtc_l; [|apply rtc_refl]. by exists fuel, typ, ts, (Ok p). }
  pose proof (newEntriesFilled_step _ _ (later_newEntriesFilled _ _ Hl)
                Hc') as Hc''.
  destruct (cachedTypeInfo_sound _ _ _ _ _ _ Hr) as (_ & _ & _ & Hp).
  apply (Hc'' (typ, ts)). by apply Hp.
Qed.

(** A record of the heap that no key is bound to stays so: the records
    put later are new ones. *)
Lemma later_unbound q (v v' : vars) :
  later v v' →
  q < length (heap (cache v)) ∧ unbound q (cache v) →
  q < length (heap (cache v')) ∧ unbound q (cache v').
Proof.
  apply (later_keeps (λ s, q < length (heap s) ∧ unbound q s)).
  - done.
  - intros key s3 Hk3 [Hlt Hu]. split; simpl.
    + rewrite length_app. lia.
    + intros k. simpl. destruct (decide (k = key)) as [->|Hne].
      * rewrite lookup_insert_eq. intros [= Heq]. lia.
      * rewrite lookup_insert_ne by done. apply Hu.
  - intros key s3 p info _ [Hlt Hu]. split; simpl; [|done].
    by rewrite length_insert.
  - intros key s3 [Hlt Hu]. split; simpl; [done|].
    intros k. simpl. intros [_ Hkq]%lookup_delete_Some. by apply (Hu k).
Qed.

(** X11. The dummy of a failed derivation. When [cachedTypeInfo1] misses the
    cache and returns an error, the record it allocated for the key is
    still in the heap with both function values nil. The key was
    deleted and no other key is bound to the record, so no later call
    fills it: it stays as it is, and unbound, whatever calls of
    [cachedTypeInfo] follow. A pointer to it that a call made during
    the derivation received refers to this record for good. *)
Theorem failed_build_leaves_empty_record fuel typ ts s err s' :
  wellFormed s →
  typeCache s !! (typ, ts) = None →
  cachedTypeInfo1 fuel typ ts s = Returned (Err err) s' →
  let q := length (heap s) in
  heap s' !! q = Some (mkTypeinfo None None)
  ∧ unbound q s'
  ∧ ∀ v v'' : vars, cache v = s' → later v v'' →
      heap (cache v'') !! q = Some (mkTypeinfo None None)
      ∧ unbound q (cache v'').
Proof.
  intros Hwf Hk Hr q.
  destruct fuel as [|fuel]; [simpl in Hr; by rewrite Hk in Hr|].
  rewrite (cachedTypeInfo1_miss _ _ _ _ Hk) in Hr.
  destruct (genTypeInfo _ typ ts _) as [r2 s2| | |] eqn:Hg; [|done..].
  assert (Hwf2 : wellFormed s2).
  { apply (genTypeInfo_keeps wellFormed) in Hg; [done|done| | | |].
    - apply wellFormed_begin.
    - intros key s3 p info _. apply wellFormed_fill.
    - apply wellFormed_rollback.
    - by apply wellFormed_begin. }
  apply (genTypeInfo_extends _ (cachedTypeInfo1_sound fuel))
    in Hg as [Hext Hinfo].
  cbn [bind] in Hr. destruct r2 as [info|err2].
  { destruct (Hinfo _ eq_refl) as (d & w & ->).
    by rewrite (finish_Ok _ _ _ _ Hext) in Hr. }
  rewrite finish_Err in Hr. injection Hr as _ <-.
  assert (Hzero : heap (rollback (typ, ts) s2) !! q
                  = Some (mkTypeinfo None None)).
  { simpl. by apply (extends_heap_lookup _ _ _ _ Hext), begin_heap. }
  assert (Hun : unbound q (rollback (typ, ts) s2)).
  { intros k Hkq. simpl in Hkq.
    apply lookup_delete_Some in Hkq as [Hne Hkq]. apply Hne.
    destruct Hwf2 as [_ Hinj]. eapply Hinj; [|exact Hkq].
    by apply (extends_lookup _ _ _ _ Hext), begin_lookup. }
  split_and!; [done..|].
  intros v v'' Hv Hlater.
  destruct (later_extends _ _ Hlater) as [Hl _]. rewrite Hv in Hl.
  split; [by eapply extends_heap_lookup|].
  assert (HP : q < length (heap (cache v)) ∧ unbound q (cache v)).
  { rewrite Hv. split; [|done]. by eapply lookup_lt_Some. }
  by apply (later_unbound q _ _ Hlater).
Qed.

(** *** A filled key is not built again *)

Lemma snoc_eq_split {A} (h l1 l2 : list A) x ev :
  h ++ [ev] = l1 ++ x :: l2 →
  (l2 = [] ∧ h = l1 ∧ ev = x)
  ∨ ∃ l2', l2 = l2' ++ [ev] ∧ h = l1 ++ x :: l2'.
Proof.
  destruct l2 as [|y l2 _] using rev_ind; intros Heq.
  - left. apply app_inj_2 in Heq as [-> [= ->]]; done.
  - right. exists l2.
    change (h ++ [ev] = l1 ++ (x :: l2) ++ [y]) in Heq.
    rewrite app_assoc in Heq.
    apply app_inj_2 in Heq as [-> [= ->]]; done.
Qed.

Lemma builtOnce_parse typ i s :
  builtOnce s → builtOnce (record (ParseStructTag typ i) s).
Proof.
  intros Hb l1 l2 k p Heq. simpl in Heq.
  apply snoc_eq_split in Heq as [(_ & _ & [=])|(l2' & -> & Hh)].
  destruct (Hb _ _ _ _ Hh) as [Hk Hg]. split; [done|].
  rewrite not_elem_of_app, list_elem_of_singleton. by split.
Qed.

Lemma builtOnce_begin key s :
  typeCache s !! key = None → builtOnce s → builtOnce (begin key s).
Proof.
  intros Hkey Hb l1 l2 k p Heq. simpl in Heq.
  apply snoc_eq_split in Heq as [(_ & _ & [=])|(l2' & -> & Hh)].
  destruct (Hb _ _ _ _ Hh) as [Hk Hg].
  assert (k ≠ key) by congruence. split.
  - simpl. by rewrite lookup_insert_ne.
  - rewrite not_elem_of_app, list_elem_of_singleton. split; [done|].
    congruence.
Qed.

Lemma call_builtOnce fuel typ ts s r s' :
  cachedTypeInfo1 fuel typ ts s = Returned r s' →
  builtOnce s → builtOnce s'.
Proof.
  apply (cachedTypeInfo1_respects (λ s s', builtOnce s → builtOnce s')).
  - done.
  - intros s1 s2 s3 H12 H23 Hb. by apply H23, H12.
  - intros typ1 i s1 _. apply builtOnce_parse.
  - intros key s1 s2 d w Hkey Hext HR Hb l1 l2 k p Heq. simpl in Heq.
    specialize (HR (builtOnce_begin _ _ Hkey Hb)).
    apply snoc_eq_split in Heq as [(-> & _ & [= <- <-])|(l2' & -> & Hh)].
    + split; [|by intros ?%elem_of_nil]. simpl.
      by apply (extends_lookup _ _ _ _ Hext), begin_lookup.
    + destruct (HR _ _ _ _ Hh) as [Hk Hg]. split; [done|].
      rewrite not_elem_of_app, list_elem_of_singleton. by split.
  - intros key s1 s2 Hkey Hext HR Hb l1 l2 k p Heq. simpl in Heq.
    specialize (HR (builtOnce_begin _ _ Hkey Hb)).
    destruct (HR _ _ _ _ Heq) as [Hk Hg]. split; [|done]. simpl.
    rewrite lookup_delete_ne; [done|]. intros <-.
    destruct (ext_history _ _ Hext) as (l & Hl & Hok).
    assert (Hin : Filled key p ∈ history s2).
    { rewrite Heq. apply elem_of_app. right. by left. }
    rewrite Hl in Hin. simpl in Hin.
    rewrite !elem_of_app, list_elem_of_singleton in Hin.
    destruct Hin as [[Hin|[=]]|Hin].
    + apply list_elem_of_split in Hin as (a & b & Hab).
      destruct (Hb _ _ _ _ Hab) as [Hbound _]. congruence.
    + rewrite Forall_forall in Hok. apply Hok in Hin.
      destruct Hin as [Hnone _]. simpl in Hnone.
      by rewrite lookup_insert_eq in Hnone.
Qed.

(** X12. Once the record of a key has been filled, the key is not built
    again. When this holds of the history so far (as it does of the
    empty history), it holds after any calls of [cachedTypeInfo]: a
    key whose record was filled, by a call of the program or by a call
    made during a derivation, is still bound to that record, and the
    generator was not entered for it since. *)
Theorem filled_key_never_rebuilt (v v' : vars) :
  builtOnce (cache v) →
  later v v' →
  ∀ l1 l2 k p,
    history (cache v') = l1 ++ Filled k p :: l2 →
    typeCache (cache v') !! k = Some p ∧ GenTypeInfo k ∉ l2.
Proof.
  intros Hb Hlater. revert Hb.
  induction Hlater as [v|v v1 v2 (fuel & typ & ts & r & Hc) _ IH];
    [done|].
  intros Hb. apply IH.
  apply cachedTypeInfo_returned in Hc as (_ & _ & Hc).
  destruct (typeCache (cache v) !! (typ, ts)) as [p|].
  - destruct Hc as [_ ->]. done.
  - destruct Hc as [_ Hc]. by eapply call_builtOnce.
Qed.

(** *** What a call leaves in the map *)

(** X13. What a miss returns is what the builders build. When
    [cachedTypeInfo1] misses the cache, [makeDecoder] runs for the key
    in the state with the dummy, then [makeWriter] in the state
    [makeDecoder] left. When both return a strategy, the call returns
    the pointer to a record that holds these two, and the record holds
    them after any later calls of [cachedTypeInfo]. When [makeDecoder]
    returns an error, the call returns it and [makeWriter] is not run;
    otherwise an error of the call is the error of [makeWriter]. *)
Theorem miss_returns_what_was_built fuel typ ts s r s' :
  typeCache s !! (typ, ts) = None →
  cachedTypeInfo1 fuel typ ts s = Returned r s' →
  let rec := cachedTypeInfo1 (pred fuel) in
  let key := (typ, ts) in
  (∀ p, r = Ok p →
     ∃ d w s1 s2,
       run rec (makeDecoder typ ts) (begin key s) = Returned (Ok d) s1 ∧
       run rec (makeWriter typ ts) s1 = Returned (Ok w) s2 ∧
       s' = fill key p (mkTypeinfo (Some d) (Some w)) s2 ∧
       heap s' !! p = Some (mkTypeinfo (Some d) (Some w)) ∧
       ∀ v v'' : vars, cache v = s' → later v v'' →
         typeCache (cache v'') !! key = Some p ∧
         heap (cache v'') !! p = Some (mkTypeinfo (Some d) (Some w)))
  ∧ (∀ e, r = Err e →
       ∃ s2, s' = rollback key s2 ∧
         (run rec (makeDecoder typ ts) (begin key s) = Returned (Err e) s2
          ∨ ∃ d s1,
              run rec (makeDecoder typ ts) (begin key s)
                = Returned (Ok d) s1 ∧
              run rec (makeWriter typ ts) s1 = Returned (Err e) s2)).
Proof.
  intros Hk Hr rec key.
  destruct fuel as [|fuel]; [simpl in Hr; by rewrite Hk in Hr|].
  rewrite (cachedTypeInfo1_miss _ _ _ _ Hk) in Hr. cbn [pred] in rec.
  destruct (genTypeInfo _ typ ts _) as [r2 s2| | |] eqn:Hg; [|done..].
  pose proof Hg as Hg'.
  apply (genTypeInfo_extends _ (cachedTypeInfo1_sound fuel))
    in Hg' as [Hext _].
  rewrite genTypeInfo_eq in Hg. fold rec key in Hg.
  destruct (run rec (makeDecoder typ ts) (begin key s))
    as [[d|err] s1| | |] eqn:Hd; cbn [bind] in Hg; [| |done..].
  - destruct (run rec (makeWriter typ ts) s1) as [[w|err] s3| | |] eqn:Hw;
      cbn [bind] in Hg; [| |done..]; injection Hg as <- <-;
      cbn [bind] in Hr.
    + rewrite (finish_Ok _ _ _ _ Hext) in Hr. injection Hr as <- <-.
      split; [|done]. intros p [= <-].
      assert (Hlen : length (heap s) < length (heap s3)).
      { pose proof (extends_heap_length _ _ Hext) as Hl. simpl in Hl.
        rewrite length_app in Hl. simpl in Hl. lia. }
      assert (Hq : heap (fill key (length (heap s))
                           (mkTypeinfo (Some d) (Some w)) s3)
                     !! length (heap s)
                   = Some (mkTypeinfo (Some d) (Some w))).
      { simpl. by apply list_lookup_insert_eq. }
      exists d, w, s1, s3. split_and!; [done..|].
      intros v v'' Hv Hlater.
      destruct (later_extends _ _ Hlater) as [Hl _]. rewrite Hv in Hl.
      split.
      * apply (extends_lookup _ _ _ _ Hl). simpl.
        by apply (extends_lookup _ _ _ _ Hext), begin_lookup.
      * exact (extends_heap_lookup _ _ _ _ Hl Hq).
    + rewrite finish_Err in Hr. injection Hr as <- <-.
      split; [done|]. intros e [= <-]. exists s3. split; [done|].
      right. by exists d, s1.
  - injection Hg as <- <-. cbn [bind] in Hr.
    rewrite finish_Err in Hr. injection Hr as <- <-.
    split; [done|]. intros e [= <-]. exists s1. split; [done|]. by left.
Qed.


(** X14. After [cachedTypeInfo] has returned, looking the key up gives what
    the call returned: the pointer, or nothing when it returned an
    error. An error is returned only for a key that was not cached. *)
Theorem lookup_after_cachedTypeInfo fuel typ ts (v : vars) r v' :
  cachedTypeInfo fuel typ ts v = Returned r v' →
  typeCache (cache v') !! (typ, ts)
    = match r with Ok p => Some p | Err _ => None end
  ∧ (∀ err, r = Err err → typeCache (cache v) !! (typ, ts) = None).
Proof.
  intros Hr.
  destruct (cachedTypeInfo_sound _ _ _ _ _ _ Hr) as (_ & _ & _ & Hp).
  apply cachedTypeInfo_returned in Hr as (_ & _ & Hr).
  destruct r as [p|err]; [split; [by apply Hp|done]|].
  destruct (typeCache (cache v) !! (typ, ts)) as [p|] eqn:Hk;
    [by destruct Hr|].
  destruct Hr as [_ Hr]. split; [|done].
  destruct fuel as [|fuel]; [simpl in Hr; by rewrite Hk in Hr|].
  rewrite (cachedTypeInfo1_miss _ _ _ _ Hk) in Hr.
  destruct (genTypeInfo _ typ ts _) as [r2 s2| | |] eqn:Hg; [|done..].
  apply (genTypeInfo_extends _ (cachedTypeInfo1_sound fuel))
    in Hg as [Hext Hinfo].
  cbn [bind] in Hr. destruct r2 as [info|err2].
  { destruct (Hinfo _ eq_refl) as (d & w & ->).
    by rewrite (finish_Ok _ _ _ _ Hext) in Hr. }
  rewrite finish_Err in Hr. injection Hr as _ <-. simpl.
  apply lookup_delete_eq.
Qed.

(** X15. No call of [cachedTypeInfo], successful or not, takes an entry out
    of the map that was there when it began, binds its key to another
    record, or changes a record that was in the heap: the only entry
    ever deleted is the dummy that the failing call itself put. *)
Theorem entries_never_evicted (v v' : vars) k p :
  later v v' →
  typeCache (cache v) !! k = Some p →
  typeCache (cache v') !! k = Some p
  ∧ heap (cache v) `prefix_of` heap (cache v')
  ∧ (∀ x, heap (cache v) !! p = Some x → heap (cache v') !! p = Some x)
  ∧ size (typeCache (cache v)) ≤ size (typeCache (cache v')).
Proof.
  intros Hlater Hk. destruct (later_extends _ _ Hlater) as [Hext _].
  split_and!.
  - by eapply extends_lookup.
  - apply Hext.
  - intros x. by apply extends_heap_lookup.
  - apply map_subseteq_size, Hext.
Qed.

(** *** The mutex *)

(** X16. How [cachedTypeInfo] stands to the locks of the goroutine that
    calls it. With the write lock held, as during a derivation, it
    waits for ever: a generator has to call [cachedTypeInfo1]. With a
    read lock held it returns a cached key and waits for ever on a key
    that is not cached. Whenever it returns, the mutex is as it was
    before the call. *)
Theorem cachedTypeInfo_locking fuel typ ts (v : vars) :
  (locked (typeCacheMutex v) = true →
   cachedTypeInfo fuel typ ts v = Blocked)
  ∧ (locked (typeCacheMutex v) = false →
     0 < readerCount (typeCacheMutex v) →
     typeCache (cache v) !! (typ, ts) = None →
     cachedTypeInfo fuel typ ts v = Blocked)
  ∧ (∀ p, locked (typeCacheMutex v) = false →
          typeCache (cache v) !! (typ, ts) = Some p →
          cachedTypeInfo fuel typ ts v = Returned (Ok p) v)
  ∧ (∀ r v', cachedTypeInfo fuel typ ts v = Returned r v' →
             typeCacheMutex v' = typeCacheMutex v).
Proof.
  split_and!.
  - apply cachedTypeInfo_locked.
  - destruct v as [[n w] s]. simpl. intros -> Hn Hk.
    unfold cachedTypeInfo, onMutex, RLock, RUnlock, Lock. simpl.
    rewrite Hk. simpl. by destruct n; [lia|].
  - intros p. apply cachedTypeInfo_hit.
  - intros r v' Hr. by apply cachedTypeInfo_returned in Hr as (? & _).
Qed.

(** X17. Called with no lock held, [cachedTypeInfo] does to the cache what
    [cachedTypeInfo1] does, returns what it returns, panics when it
    panics, and leaves no lock held. *)
Theorem cachedTypeInfo_unlocked fuel typ ts s :
  cachedTypeInfo fuel typ ts (mkVars free s)
    = onCache (cachedTypeInfo1 fuel typ ts) (mkVars free s).
Proof.
  destruct (typeCache s !! (typ, ts)) as [p|] eqn:Hk.
  - rewrite (cachedTypeInfo_hit _ _ _ _ p); [|done..].
    unfold onCache. cbn [cache typeCacheMutex].
    by rewrite (cachedTypeInfo1_hit _ _ _ _ _ Hk).
  - by apply cachedTypeInfo_miss.
Qed.

(** *** More on the field enumerator *)

Section enumerate_more.
Variable rec : resolver.

(** Over fields that are not exported or are ignored the loop changes
    nothing but the history, and does not call the resolver. *)
Lemma structFieldsLoop_skips typ todo i fields s :
  kindOf typ = Struct →
  i + todo ≤ length (fieldsOf typ) →
  (∀ j f, Field typ j = Some f → PkgPath f = "" →
          ∃ ts, parseStructTag typ j = Some (ts, None)
                ∧ ignored ts = true) →
  ∃ l, structFieldsLoop rec typ todo i fields s
       = Returned (Ok fields)
                  (mkState (typeCache s) (heap s) (history s ++ l)).
Proof.
  intros Hkind Hlen Hskip. revert i s Hlen.
  induction todo as [|todo IH]; intros i s Hlen.
  - exists []. simpl. rewrite app_nil_r. by destruct s.
  - cbn [structFieldsLoop].
    destruct (lookup_lt_is_Some_2 (fieldsOf typ) i) as [f Hf]; [lia|].
    assert (Hf' : Field typ i = Some f).
    { unfold Field. by rewrite decide_True. }
    rewrite Hf'. case_decide as Hp.
    + destruct (Hskip i f Hf' Hp) as (ts & -> & ->).
      destruct (IH (S i) (record (ParseStructTag typ i) s)) as [l Hl];
        [lia|].
      exists (ParseStructTag typ i :: l). rewrite Hl. simpl.
      by rewrite <- app_assoc.
    + apply IH. lia.
Qed.


End enumerate_more.

(** X18. A struct of which no field is enumerated: every exported field
    carries "-" in a tag that parses (the other fields are unexported,
    or there is no field at all). [structFields] returns no descriptor
    and no error, whatever the types of the fields are: it resolves
    none of them, and the map and the records are as before. *)
Theorem structFields_skips_all typ :
  kindOf typ = Struct →
  (∀ j f, Field typ j = Some f → PkgPath f = "" →
          ∃ ts, parseStructTag typ j = Some (ts, None)
                ∧ ignored ts = true) →
  ∀ (rec : resolver) s,
    ∃ s', structFields rec typ s = Returned (Ok []) s'
          ∧ typeCache s' = typeCache s ∧ heap s' = heap s.
Proof.
  intros Hkind Hskip rec s. unfold structFields, NumField.
  rewrite decide_True by done.
  destruct (structFieldsLoop_skips rec typ (length (fieldsOf typ)) 0 [] s)
    as [l Hl]; [done|lia|done|].
  rewrite Hl. by eexists.
Qed.


(** X20. The field that swallows the rest of a list is the last descriptor.
    When [structFields] returns fields and the tags of one of them set
    [tail], this field is the last of the list. *)
Theorem tail_field_is_last (rec : resolver) typ s fields s' fd ts :
  structFields rec typ s = Returned (Ok fields) s' →
  fd ∈ fields →
  parseStructTag typ (index fd) = Some (ts, None) →
  tail ts = true →
  last fields = Some fd.
Proof.
  intros Hr Hin Hparse Htail.
  assert (∃ f, Field typ (index fd) = Some f) as [f Hf].
  { unfold parseStructTag in Hparse.
    destruct (Field typ (index fd)) as [f|]; [by exists f|done]. }
  destruct (parseStructTag_accepted (E:=E) _ _ _ _ Hf Hparse)
    as (_ & Hallowed & Hts).
  assert (Hlast : NumField typ = Some (S (index fd))).
  { rewrite Hts in Htail. simpl in Htail.
    apply bool_decide_eq_true in Htail. by destruct (Hallowed Htail). }
  unfold structFields in Hr.
  destruct (NumField typ) as [n|] eqn:Hn; [|done].
  assert (Hn' : n = S (index fd)) by congruence.
  pose proof (structFieldsLoop_index _ _ _ _ _ _ _ _ Hr) as Hidx.
  simpl in Hidx.
  apply list_elem_of_split in Hin as (l1 & l2 & ->).
  destruct l2 as [|g l2]; [by rewrite last_snoc|].
  assert (Hsorted : StronglySorted lt (index <$> l1 ++ fd :: g :: l2)).
  { rewrite Hidx. apply sorted_filter_seq. }
  assert (Hlt : index fd < index g).
  { apply (StronglySorted_lookup_lt _ (length l1) (S (length l1)) _ _
             Hsorted); [lia|..].
    - rewrite list_lookup_fmap, lookup_app_r, Nat.sub_diag by lia. done.
    - rewrite list_lookup_fmap, lookup_app_r by lia.
      by replace (S (length l1) - length l1) with 1 by lia. }
  assert (Hg : index g ∈ index <$> l1 ++ fd :: g :: l2).
  { apply list_elem_of_fmap_2, elem_of_app. right. right. by left. }
  rewrite Hidx in Hg. apply list_elem_of_filter in Hg as [_ Hg].
  apply elem_of_seq in Hg. lia.
Qed.

Lemma structFieldsLoop_again (rec : resolver) fuel' typ todo :
  sound rec →
  ∀ i fields s fields1 s1,
    structFieldsLoop rec typ todo i fields s = Returned (Ok fields1) s1 →
    ∀ fields' s2,
      typeCache s1 ⊆ typeCache s2 →
      ∃ new l,
        fields1 = fields ++ new ∧
        structFieldsLoop (cachedTypeInfo1 fuel') typ todo i fields' s2
          = Returned (Ok (fields' ++ new))
                     (mkState (typeCache s2) (heap s2) (history s2 ++ l)).
Proof.
  intros Hrec. induction todo as [|todo IH];
    intros i fields s fields1 s1 Hl fields' s2 Hsub.
  - simpl in Hl. injection Hl as <- <-. exists [], [].
    rewrite !app_nil_r. simpl. by destruct s2.
  - cbn [structFieldsLoop] in Hl |- *.
    destruct (Field typ i) as [f|] eqn:Hf; [|done].
    case_decide as Hp; [|by eapply IH].
    destruct (parseStructTag typ i) as [[ts [err|]]|] eqn:Hparse;
      [done| |done].
    destruct (ignored ts) eqn:Hig.
    + destruct (IH _ _ _ _ _ Hl fields'
                  (record (ParseStructTag typ i) s2) Hsub)
        as (new & l & -> & Hl2).
      exists new, (ParseStructTag typ i :: l). split; [done|].
      rewrite Hl2. simpl. by rewrite <- app_assoc.
    + destruct (rec _ _ _) as [[p|err] sa| | |] eqn:Hr; cbn [bind] in Hl;
        [|done..].
      destruct (Hrec _ _ _ _ _ Hr) as [_ Hkp]. specialize (Hkp p eq_refl).
      pose proof (structFieldsLoop_extends _ Hrec _ _ _ _ _ _ _ Hl)
        as Hext.
      assert (Hhit : typeCache (record (ParseStructTag typ i) s2)
                       !! (Type_ f, ts) = Some p).
      { simpl. eapply lookup_weaken; [|exact Hsub].
        by eapply extends_lookup. }
      rewrite (cachedTypeInfo1_hit _ _ _ _ _ Hhit). cbn [bind].
      destruct (IH _ _ _ _ _ Hl (fields' ++ [mkField i p])
                  (record (ParseStructTag typ i) s2) Hsub)
        as (new & l & -> & Hl2).
      exists (mkField i p :: new), (ParseStructTag typ i :: l).
      split; [by rewrite <- app_assoc|].
      rewrite Hl2. simpl. by rewrite <- !app_assoc.
Qed.

(** X21. Enumerating again. After [structFields] has returned the fields of
    a struct, another call on the struct, in any later state and with
    any bound on the nesting, returns the same descriptors; the type of
    every field is answered from the cache, so the map and the records
    do not change and no record is allocated. *)
Theorem structFields_again fuel fuel' typ s fields s1 s2 :
  structFields (cachedTypeInfo1 fuel) typ s = Returned (Ok fields) s1 →
  extends s1 s2 →
  ∃ s3,
    structFields (cachedTypeInfo1 fuel') typ s2 = Returned (Ok fields) s3
    ∧ typeCache s3 = typeCache s2 ∧ heap s3 = heap s2.
Proof.
  unfold structFields. destruct (NumField typ) as [n|]; [|done].
  intros Hl Hext.
  destruct (structFieldsLoop_again _ fuel' typ n
              (cachedTypeInfo1_sound fuel) _ _ _ _ _ Hl [] s2)
    as (new & l & -> & Hl2); [apply Hext|].
  rewrite Hl2. by eexists.
Qed.

End cache_facts.

(** ** The example program *)

Module ProgramFacts.
Import Program.

Lemma fieldsIn_Node : fieldsIn (E:=ty) nodeKeys true tNode.
Proof.
  split; [done|]. intros i f ts e Hf Hp Hparse.
  do 5 (destruct i as [|i];
        [vm_compute in Hf; injection Hf as <-;
         vm_compute in Hp; try discriminate Hp;
         vm_compute in Hparse; injection Hparse as <- <-;
         (split; [done|]); intros _ Hig; try discriminate Hig;
         simpl; unfold nodeKeys, nodeKey; set_solver|]).
  by vm_compute in Hf.
Qed.

Lemma closed_nodeKeys : closed make make nodeKeys true.
Proof.
  intros typ ts Hin. unfold nodeKeys, nodeKey in Hin.
  rewrite !elem_of_union, !elem_of_singleton in Hin.
  assert (Hret : ∀ a : strategy,
            progIn (E:=ty) nodeKeys true (Ret (Ok a))).
  { intros a. constructor. by exists a. }
  assert (Helem : ∀ t, (Elem t, noTags) ∈ nodeKeys →
            progIn (E:=ty) nodeKeys true
              (CallCachedTypeInfo1 (Elem t) noTags (λ r,
                 match r with
                 | Ok p => Ret (Ok (ForElem p))
                 | Err e => Ret (Err e)
                 end))).
  { intros t Ht. constructor; [done|]. intros r [p ->]. apply Hret. }
  assert (Hnode : progIn (E:=ty) nodeKeys true (make tNode noTags)).
  { apply progIn_Fields; [apply fieldsIn_Node|].
    intros r [fs ->]. apply Hret. }
  destruct Hin as [[[Hin|Hin]|Hin]|Hin]; simplify_eq; split;
    try exact Hnode; try apply Hret;
    (apply (Helem tPtrNode) || apply (Helem tUints));
    simpl; unfold nodeKeys, nodeKey; set_solver.
Qed.

Lemma nodeKey_in : nodeKey ∈ nodeKeys.
Proof. unfold nodeKeys. set_solver. Qed.

Lemma missing_s0 : missing nodeKeys s0 ≤ 4.
Proof. vm_compute. by repeat constructor. Qed.

Lemma call_Node : cachedTypeInfo 4 tNode noTags v0 = Returned (Ok 0) vNode.
Proof. vm_compute. reflexivity. Qed.

Lemma call_Bad_after_Node :
  cachedTypeInfo 4 tBad noTags vNode = Returned (Err (ErrGen tChan)) vNodeBad.
Proof. vm_compute. reflexivity. Qed.

(** [Node] refers to itself through [Next]. Its resolution returns the
    pointer of the dummy, now filled, and the strategies cached for
    [*Node], built while [Node] was being derived, hold this pointer. *)
Lemma reentrant_resolution_witness :
  cachedTypeInfo 4 tNode noTags v0 = Returned (Ok 0) (mkVars free sNode)
  ∧ typeCache sNode !! nodeKey = Some 0
  ∧ filled (heap sNode) 0
  ∧ heap sNode !! 2
    = Some (mkTypeinfo (Some (ForElem 0)) (Some (ForElem 0))).
Proof.
  pose proof (reentrant_resolution_short_circuits make make nodeKeys true
                4 tNode noTags s0 closed_nodeKeys nodeKey_in eq_refl
                missing_s0) as Hw.
  cbv zeta in Hw.
  destruct Hw as (_ & _ & _ & _ & _ & _ & r & s' & Hr1 & Hr & [p' Hp']
                  & _ & _ & Hok & _).
  destruct (Hok p' Hp') as (Heq & Hbound & Hfilled).
  assert (Hc : cachedTypeInfo1 4 tNode noTags s0 = Returned (Ok 0) sNode)
    by (vm_compute; reflexivity).
  rewrite Hc in Hr1. injection Hr1 as Hr0 Hs. subst s'.
  rewrite Hp', Heq in Hr.
  exact (conj Hr (conj Hbound (conj Hfilled eq_refl))).
Defined.

(** After [Node] was resolved and a resolution of [Bad] failed, [Node]
    is still answered from the cache. *)
Lemma resolution_idempotent_witness :
  cachedTypeInfo 0 tNode noTags vNodeBad = Returned (Ok 0) vNodeBad.
Proof.
  refine (proj1 (resolution_idempotent make make 4 tNode noTags v0 0
                   vNode vNodeBad call_Node _) 0).
  eapply rtc_l; [|apply rtc_refl].
  exists 4, tBad, noTags, (Err (ErrGen tChan)). exact call_Bad_after_Node.
Defined.

Lemma gen_Bad :
  genTypeInfo (cachedTypeInfo1 3) tBad noTags (begin badKey s0)
    = Returned (Err (ErrGen tChan)) sBadGen.
Proof. vm_compute. reflexivity. Qed.

(** The generator of [Bad] fails on the channel: the call returns the
    error and [Bad] has no entry. *)
Lemma failed_build_rolled_back_witness :
  cachedTypeInfo 4 tBad noTags v0
    = Returned (Err (ErrGen tChan)) (mkVars free (rollback badKey sBadGen))
  ∧ typeCache (rollback badKey sBadGen) !! badKey = None.
Proof.
  destruct (failed_build_rolled_back make make 3 tBad noTags s0
              (ErrGen tChan) sBadGen eq_refl gen_Bad)
    as (_ & Hcall & Hgone & _).
  by split.
Defined.

Lemma call1_Bad :
  cachedTypeInfo1 4 tBad noTags s0
    = Returned (Err (ErrGen tChan)) (rollback badKey sBadGen).
Proof. vm_compute. reflexivity. Qed.

(** The record of [uint], filled while [Bad] was derived, stays
    cached. *)
Lemma failed_build_keeps_nested_entries_witness :
  typeCache (rollback badKey sBadGen) !! badKey = None
  ∧ typeCache (rollback badKey sBadGen) !! (tUint, noTags) = Some 1.
Proof.
  destruct (failed_build_keeps_nested_entries make make 4 tBad noTags s0
              (ErrGen tChan) (rollback badKey sBadGen) eq_refl call1_Bad)
    as (Hgone & _ & _ & l & Hl & Hfilled).
  split; [exact Hgone|].
  vm_compute in Hl. subst l.
  apply (Hfilled (tUint, noTags) 1). by repeat constructor.
Defined.

Lemma call1_Node :
  cachedTypeInfo1 4 tNode noTags s0 = Returned (Ok 0) sNode.
Proof. vm_compute. reflexivity. Qed.

(** The record of [Node] is the one put as the dummy, and it is
    filled. *)
Lemma placeholder_filled_in_place_witness :
  typeCache sNode !! nodeKey = Some 0
  ∧ ∃ d w, heap sNode !! 0 = Some (mkTypeinfo (Some d) (Some w)).
Proof.
  destruct (placeholder_filled_in_place make make 4 tNode noTags s0 0
              sNode eq_refl call1_Node)
    as (_ & _ & _ & _ & (s2 & d & w & _ & _ & _ & _ & _ & Hq) & Hlater).
  split; [|by exists d, w].
  exact (proj1 (Hlater (mkVars free sNode) (mkVars free sNode) eq_refl
                       (rtc_refl _ _))).
Defined.

Lemma enumerate_Node :
  structFields (cachedTypeInfo1 4) tNode s0 = Returned (Ok nodeFields) sFields.
Proof. vm_compute. reflexivity. Qed.

Lemma structFields_declaration_order_witness :
  StronglySorted lt (index <$> nodeFields).
Proof.
  exact (proj1 (structFields_declaration_order make make 4 tNode s0
                  nodeFields sFields enumerate_Node)).
Defined.

Lemma structFields_filters_witness :
  ∃ fields s',
    structFields (cachedTypeInfo1 4) tNode s0 = Returned (Ok fields) s'
    ∧ NoDup (index <$> fields)
    ∧ Forall (describes (E:=ty) tNode s') fields.
Proof.
  destruct (structFields_filters make make nodeKeys true 4 tNode s0
              closed_nodeKeys fieldsIn_Node missing_s0)
    as (r & s' & Hr & [fields ->] & Hprops & _).
  destruct (Hprops fields eq_refl) as (_ & Hnd & _ & Hd).
  by exists fields, s'.
Defined.

(** [Mis.A] carries "tail" and is followed by [B]. *)
Lemma tail_placement_rejected_witness :
  ∃ ts e, parseStructTag tMis 0 = Some (ts, Some e) ∧ isPlacementError e.
Proof.
  destruct (tail_placement_rejected (E:=ty) tMis 0
              (fld "A" "" tUints [("rlp", "tail")]))
    as (ts & e & pre & post & Hparse & Hsplit & Hpre & Hk & _).
  - reflexivity.
  - change ("tail" ∈ ["tail"]). by left.
  - intros [Hlast _].
    by apply (Hlast 1 (fld "B" "" tUint [])); [lia|reflexivity|].
  - exists ts, e. split; [exact Hparse|]. apply Hk.
    change (["tail"] = pre ++ "tail" :: post) in Hsplit.
    destruct pre as [|a pre]; [constructor|].
    injection Hsplit as <- _. destruct Hpre. by left.
Defined.

(** [Mis2.A] carries "bogus,tail" and is followed by [B]: the error is
    the one of the unknown token, not a placement error. *)
Lemma tail_after_unknown_token_counterexample :
  Field tMis2 0 = Some (fld "A" "" tUints [("rlp", "bogus,tail")])
  ∧ "tail" ∈ tokens (fld "A" "" tUints [("rlp", "bogus,tail")])
  ∧ ¬ lastVisible tMis2 0
  ∧ parseStructTag tMis2 0
      = Some (noTags, Some (ErrUnknownTag "bogus" tMis2 "A"))
  ∧ ¬ ∃ ts e, parseStructTag tMis2 0 = Some (ts, Some e)
              ∧ isPlacementError e.
Proof.
  split_and!.
  - reflexivity.
  - change ("tail" ∈ ["bogus"; "tail"]). set_solver.
  - intros Hlast.
    by apply (Hlast 1 (fld "B" "" tUint [])); [lia|reflexivity|].
  - reflexivity.
  - intros (ts & e & Hparse & He). vm_compute in Hparse.
    by injection Hparse as <- <-.
Qed.

(** [Hid.A] carries "tail", is a slice and is the last exported field,
    but the unexported [b] is declared after it: the test is on the
    index of the last declared field, and the tag is rejected. *)
Lemma tail_before_unexported_field :
  lastVisible tHid 0
  ∧ kindOf (Type_ (fld "A" "" tUints [("rlp", "tail")])) = Slice
  ∧ parseStructTag tHid 0
      = Some (mkTags false true false, Some (ErrTailNotLast tHid "A")).
Proof.
  split_and!; [|done..].
  intros j g Hj Hg. destruct j as [|[|j]]; [lia| |done].
  by injection Hg as <-.
Qed.

End ProgramFacts.

(** ** The example programs, further *)

Module ProgramShapes.
Import Program ProgramFacts.

(** [Node.Val] has no tag. *)
Lemma blank_tag_sets_nothing_witness :
  parseStructTag tNode 0 = Some (noTags, None).
Proof.
  apply (blank_tag_sets_nothing tNode 0 (fld "Val" "" tUint []));
    [reflexivity|left; reflexivity].
Defined.

(** [Node.Rest] carries " tail ", is a slice and is declared last. *)
Lemma parseStructTag_accepts_iff_witness :
  ∃ ts, parseStructTag tNode 4 = Some (ts, None).
Proof.
  apply (parseStructTag_accepts_iff tNode 4
           (fld "Rest" "" tUints [("rlp", " tail ")]));
    [reflexivity|].
  change (Forall known ["tail"] ∧
          ("tail" ∈ ["tail"] →
           tailAllowed tNode 4 (fld "Rest" "" tUints [("rlp", " tail ")]))).
  split.
  - constructor; [|constructor]. right; right; right; reflexivity.
  - intros _. split; reflexivity.
Defined.

Lemma tail_only_on_last_slice_witness :
  NumField tNode = Some 5 ∧ kindOf tUints = Slice.
Proof.
  assert (Hf : Field tNode 4
               = Some (fld "Rest" "" tUints [("rlp", " tail ")]))
    by reflexivity.
  assert (Hparse : parseStructTag tNode 4
                   = Some (mkTags false true false, None))
    by reflexivity.
  destruct (tail_only_on_last_slice tNode 4 _ _ Hf Hparse) as [Ht _].
  destruct (Ht eq_refl) as (Hn & Hs & _). exact (conj Hn Hs).
Defined.

(** [Mis.A] carries "tail" and is followed by [B]. *)
Lemma parseStructTag_first_error_witness :
  ∃ pre t post,
    tokens (fld "A" "" tUints [("rlp", "tail")]) = pre ++ t :: post ∧
    Forall known pre ∧
    ("tail" ∈ pre →
     tailAllowed tMis 0 (fld "A" "" tUints [("rlp", "tail")])) ∧
    ((¬ known t ∧ ErrTailNotLast tMis "A" = ErrUnknownTag (E:=ty) t tMis "A")
     ∨ (t = "tail" ∧ NumField tMis ≠ Some 1 ∧
        ErrTailNotLast (E:=ty) tMis "A" = ErrTailNotLast tMis "A")
     ∨ (t = "tail" ∧ NumField tMis = Some 1 ∧
        kindOf tUints ≠ Slice ∧
        ErrTailNotLast (E:=ty) tMis "A" = ErrTailNotSlice tMis "A")).
Proof.
  apply (parseStructTag_first_error (E:=ty) tMis 0
           (fld "A" "" tUints [("rlp", "tail")])
           (mkTags false true false) (ErrTailNotLast tMis "A"));
    reflexivity.
Defined.

Lemma wellFormed_s0 : wellFormed s0.
Proof.
  split; [intros k p Hk|intros k1 k2 p Hk _];
    unfold s0 in Hk; simpl in Hk; by rewrite lookup_empty in Hk.
Qed.

Lemma later_v0_vNodeBad : later make make v0 vNodeBad.
Proof.
  eapply rtc_l; [by exists 4, tNode, noTags, (Ok 0); apply call_Node|].
  eapply rtc_l; [|apply rtc_refl].
  exists 4, tBad, noTags, (Err (ErrGen tChan)).
  apply call_Bad_after_Node.
Qed.

Lemma later_vNode_vNodeBad : later make make vNode vNodeBad.
Proof.
  eapply rtc_l; [|apply rtc_refl].
  exists 4, tBad, noTags, (Err (ErrGen tChan)).
  apply call_Bad_after_Node.
Qed.

(** After [Node] was resolved from the empty cache, its four keys have
    four records. *)
Lemma distinct_keys_distinct_records_witness : wellFormed sNode.
Proof.
  exact (proj1 (distinct_keys_distinct_records make make 4 tNode noTags s0
                  (Ok 0) sNode wellFormed_s0 call1_Node)).
Defined.

Lemma complete_v0 : complete (cache v0).
Proof.
  intros k p Hk. unfold v0, s0 in Hk. simpl in Hk.
  by rewrite lookup_empty in Hk.
Qed.

(** After [Node] was resolved and [Bad] failed, every entry is
    filled. *)
Lemma top_level_pointers_filled_witness : complete (cache vNodeBad).
Proof.
  exact (proj1 (top_level_pointers_filled make make v0 vNodeBad
                  complete_v0 later_v0_vNodeBad)).
Defined.

Lemma lookup_after_cachedTypeInfo_witness :
  typeCache (cache vNode) !! (tNode, noTags) = Some 0.
Proof.
  exact (proj1 (lookup_after_cachedTypeInfo make make 4 tNode noTags v0
                  (Ok 0) vNode call_Node)).
Defined.

Lemma builtOnce_v0 : builtOnce (cache v0).
Proof. intros l1 l2 k p Heq. by destruct l1. Qed.

(** [uint] was built while [Node] was: it is cached, and not built
    again for [Bad]. *)
Lemma filled_key_never_rebuilt_witness :
  typeCache (cache vNodeBad) !! (tUint, noTags) = Some 1
  ∧ GenTypeInfo (tUint, noTags) ∉ drop 4 (history (cache vNodeBad)).
Proof.
  apply (filled_key_never_rebuilt make make v0 vNodeBad builtOnce_v0
           later_v0_vNodeBad (take 3 (history (cache vNodeBad)))).
  vm_compute. reflexivity.
Defined.

Lemma call1_Uint :
  cachedTypeInfo1 1 tUint noTags s0
    = Returned (Ok 0) (stateOf (cachedTypeInfo1 1 tUint noTags s0) s0).
Proof. vm_compute. reflexivity. Qed.

(** The record of [uint] holds the two strategies built for it. *)
Lemma miss_returns_what_was_built_witness :
  heap (stateOf (cachedTypeInfo1 1 tUint noTags s0) s0) !! 0
    = Some (mkTypeinfo (Some ForUint) (Some ForUint)).
Proof.
  pose proof (miss_returns_what_was_built make make 1 tUint noTags s0
                (Ok 0) _ eq_refl call1_Uint) as Hw.
  cbv zeta in Hw. destruct Hw as [Hok _].
  destruct (Hok 0 eq_refl)
    as (d & w & s1 & s2 & Hd & Hw & _ & Hheap & _).
  vm_compute in Hd. injection Hd as <- <-.
  vm_compute in Hw. injection Hw as <- <-.
  exact Hheap.
Defined.

(** The entry of [Node] outlives the failed resolution of [Bad]. *)
Lemma entries_never_evicted_witness :
  typeCache (cache vNodeBad) !! nodeKey = Some 0.
Proof.
  exact (proj1 (entries_never_evicted make make vNode vNodeBad nodeKey 0
                  later_vNode_vNodeBad eq_refl)).
Defined.



(** [Rest], the tail of [Node], is its last descriptor. *)
Lemma tail_field_is_last_witness :
  last nodeFields = Some (mkField 4 3).
Proof.
  apply (tail_field_is_last (cachedTypeInfo1 4) tNode s0 nodeFields sFields
           (mkField 4 3) (mkTags false true false) enumerate_Node);
    [|reflexivity|reflexivity].
  unfold nodeFields. right. right. left.
Defined.

(** The fields of [Node], enumerated again with no fuel. *)
Lemma structFields_again_witness :
  ∃ s3, structFields (cachedTypeInfo1 0) tNode sFields
          = Returned (Ok nodeFields) s3
        ∧ typeCache s3 = typeCache sFields ∧ heap s3 = heap sFields.
Proof.
  apply (structFields_again make make 4 0 tNode s0 nodeFields sFields
           sFields enumerate_Node).
  reflexivity.
Defined.

End ProgramShapes.

Module CellFacts.
Import Cell.

Lemma call1_Cell :
  cachedTypeInfo1 3 tCell noTags s0 = Returned (Err (ErrGen tChan)) sCell.
Proof. vm_compute. reflexivity. Qed.

Lemma wellFormed_Cell_s0 : wellFormed s0.
Proof.
  split; [intros k p Hk|intros k1 k2 p Hk _];
    unfold s0 in Hk; simpl in Hk; by rewrite lookup_empty in Hk.
Qed.

(** The resolution of [Cell] fails on the channel after [*Cell] was
    resolved: the record of [Cell] stays empty, and the strategy cached
    for [*Cell] holds the pointer to it. *)
Lemma failed_build_leaves_empty_record_witness :
  heap sCell !! 0 = Some (mkTypeinfo None None)
  ∧ typeCache sCell !! (tPtrCell, noTags) = Some 1
  ∧ heap sCell !! 1 = Some (mkTypeinfo (Some (Program.ForElem 0))
                                       (Some (Program.ForElem 0))).
Proof.
  pose proof (failed_build_leaves_empty_record make make 3 tCell noTags s0
                (ErrGen tChan) sCell wellFormed_Cell_s0 eq_refl call1_Cell)
    as Hw.
  cbv zeta in Hw. destruct Hw as (Hzero & _).
  split; [exact Hzero|]. split; reflexivity.
Defined.

(** [Opaque] has an unexported field and an ignored one. *)
Lemma structFields_skips_all_witness :
  ∃ s', structFields (E:=ty) (λ _ _ _, Panicked) tOpaque s0
          = Returned (Ok []) s'
        ∧ typeCache s' = typeCache s0 ∧ heap s' = heap s0.
Proof.
  apply (structFields_skips_all (E:=ty) tOpaque); [reflexivity|].
  intros j f Hf Hp.
  destruct j as [|[|j]]; vm_compute in Hf; [| |discriminate Hf];
    injection Hf as <-; [discriminate Hp|].
  eexists. split; reflexivity.
Defined.

End CellFacts.

Module TaggedFacts.
Import Tagged.

(** [Tagged.B] carries " nil , - ,": three pieces, the tokens "nil",
    "-" and the empty one. *)
Lemma parseStructTag_grammar_witness :
  parseStructTag tTagged 1 = Some (mkTags true false true, None).
Proof.
  destruct (parseStructTag_grammar (E:=ty) tTagged 1
              (mkStructField "B" "" tUint [("rlp", " nil , - ,")]))
    as (_ & Hall & _); [reflexivity|].
  destruct (Hall [" nil "; " - "; ""] ["nil"; "-"; ""]) as (Hacc & _).
  - split_and!.
    + discriminate.
    + reflexivity.
    + apply (bool_decide_unpack _). vm_compute. exact I.
    + repeat constructor.
      * apply (trims_spaces "nil"), tight_check, (bool_decide_unpack _).
        vm_compute. exact I.
      * apply (trims_spaces "-"), tight_check, (bool_decide_unpack _).
        vm_compute. exact I.
      * apply (trims_self ""), tight_check, (bool_decide_unpack _).
        vm_compute. exact I.
  - apply Hacc.
    + apply (bool_decide_unpack _). vm_compute. exact I.
    + intros Hin.
      repeat (apply elem_of_cons in Hin as [Hin|Hin]; [discriminate Hin|]).
      by apply elem_of_nil in Hin.
Defined.

(** [Tagged.A] carries "tail,bogus" and is followed by [B]: the error is
    the placement error of "tail", and it does not name "bogus". *)
Lemma tail_before_unknown_token_counterexample :
  Field tTagged 0
    = Some (mkStructField "A" "" tUints [("rlp", "tail,bogus")])
  ∧ "bogus" ∈ tokens (mkStructField "A" "" tUints [("rlp", "tail,bogus")])
  ∧ ¬ known "bogus"
  ∧ parseStructTag tTagged 0
      = Some (mkTags false true false, Some (ErrTailNotLast tTagged "A"))
  ∧ ¬ ∃ ts t, parseStructTag tTagged 0
                = Some (ts, Some (ErrUnknownTag t tTagged "A")).
Proof.
  split_and!.
  - reflexivity.
  - change ("bogus" ∈ ["tail"; "bogus"]). right. by left.
  - unfold known. by intros [?|[?|[?|?]]].
  - reflexivity.
  - intros (ts & t & Hparse). vm_compute in Hparse. discriminate Hparse.
Qed.

End TaggedFacts.
